(** * MindForge AI backend: the text chunker and the keyword ranker

    A shallow embedding of [utils/textChunker.js] ([chunkText] and
    [findRelevantChunks]) together with the JavaScript built-ins the two
    functions call, followed by the properties proved about them.

    Conventions of the embedding.
    - A JavaScript string is the list of its UTF-16 code units.  The
      development covers strings whose code units are below 256 (Latin-1),
      one [ascii] per code unit.
    - A JavaScript number that holds an integer (a length, an index, a word
      count, [chunkSize], [overlap], [maxChunks]) is a [Z]; the relevance
      scores are IEEE 754 binary64 values, Rocq's primitive [float].
    - A loop whose termination depends on its arguments takes a fuel and
      returns [None] when the fuel runs out. *)

From Stdlib Require Import Ascii String.
From Stdlib Require Import List ZArith Lia Bool Arith.
From Stdlib Require Import Sorting.Sorted Sorting.Permutation.
From Stdlib Require Import Floats.
Import ListNotations.

Set Implicit Arguments.
Local Open Scope Z_scope.
Local Open Scope list_scope.

(* ================================================================== *)
(** * Part I: definitions *)
(* ================================================================== *)

(** ** Strings *)

Definition jsstring := list ascii.

(** A string literal of the development, as a list of code units. *)
Definition str (s : string) : jsstring := list_ascii_of_string s.

Definition TAB : ascii := "009"%char.
Definition LF : ascii := "010"%char.
Definition CR : ascii := "013"%char.
Definition SP : ascii := " "%char.

(** The code units matched by [\s] and stripped by [trim]: ECMAScript's
    WhiteSpace and LineTerminator productions, restricted to Latin-1
    (TAB, LF, VT, FF, CR, SPACE, NBSP). *)
Definition is_space (c : ascii) : bool :=
  match N_of_ascii c with
  | 9 | 10 | 11 | 12 | 13 | 32 | 160 => true
  | _ => false
  end%N.

Definition is_LF (c : ascii) : bool := Ascii.eqb c LF.

Fixpoint dropWhile {A} (p : A -> bool) (l : list A) : list A :=
  match l with
  | [] => []
  | x :: l' => if p x then dropWhile p l' else l
  end.

(** [String.prototype.trim]. *)
Definition trimStart (s : jsstring) : jsstring := dropWhile is_space s.
Definition trimEnd (s : jsstring) : jsstring := rev (dropWhile is_space (rev s)).
Definition trim (s : jsstring) : jsstring := trimEnd (trimStart s).

Definition is_empty {A} (l : list A) : bool :=
  match l with [] => true | _ => false end.

(** [s.replace(/ab/g, r)] for a pattern of two literal code units. *)
Fixpoint replace_pair (a b : ascii) (r : jsstring) (s : jsstring) : jsstring :=
  match s with
  | [] => []
  | c :: s' =>
      match s' with
      | d :: s'' =>
          if Ascii.eqb c a && Ascii.eqb d b then r ++ replace_pair a b r s''
          else c :: replace_pair a b r s'
      | [] => [c]
      end
  end.

(** [s.replace(/\s+/g, " ")]: [in_run] tells that the previous code unit
    belonged to the whitespace run being replaced. *)
Fixpoint collapse_from (in_run : bool) (s : jsstring) : jsstring :=
  match s with
  | [] => []
  | c :: s' =>
      if is_space c
      then (if in_run then collapse_from true s' else SP :: collapse_from true s')
      else c :: collapse_from false s'
  end.

Definition collapse_ws (s : jsstring) : jsstring := collapse_from false s.

(** [s.split(/[sep]+/)]: the fields between the maximal runs of separator
    code units.  A run at the start or at the end of [s] gives an empty
    first or last field, and the empty string gives one empty field. *)
Fixpoint split_from (sep : ascii -> bool) (in_run : bool) (s : jsstring)
  : list jsstring :=
  match s with
  | [] => [[]]
  | c :: s' =>
      if sep c
      then (if in_run then split_from sep true s'
            else [] :: split_from sep true s')
      else match split_from sep false s' with
           | f :: fs => (c :: f) :: fs
           | [] => [[c]]
           end
  end.

(** [s.split(/\s+/)] and [s.split(/\n+/)]. *)
Definition split_ws (s : jsstring) : list jsstring := split_from is_space false s.
Definition split_nl (s : jsstring) : list jsstring := split_from is_LF false s.

(** [Array.prototype.join]. *)
Fixpoint join (sep : jsstring) (l : list jsstring) : jsstring :=
  match l with
  | [] => []
  | [x] => x
  | x :: l' => x ++ sep ++ join sep l'
  end.

(** ** Arrays *)

(** The relative index of [Array.prototype.slice]: a negative argument
    counts from the end, and the result is clamped to [0 .. len]. *)
Definition rel_index (len k : Z) : Z :=
  if k <? 0 then Z.max (len + k) 0 else Z.min k len.

(** [l.slice(first, last)]. *)
Definition slice {A} (l : list A) (first last : Z) : list A :=
  let len := Z.of_nat (length l) in
  let k := rel_index len first in
  let final := rel_index len last in
  firstn (Z.to_nat (final - k)) (skipn (Z.to_nat k) l).

(** [l.slice(first)]. *)
Definition slice_from {A} (l : list A) (first : Z) : list A :=
  slice l first (Z.of_nat (length l)).

Definition len {A} (l : list A) : Z := Z.of_nat (length l).

(** ** The chunker *)

(** A chunk record.  [id] is the property the ranker copies; a record that
    has no such property reads as [undefined], here [None]. *)
Record Chunk := mkChunk {
  content : jsstring;
  chunkIndex : Z;
  pageNumber : Z;
  id : option jsstring
}.

(** The variables [chunkText] updates: [chunks], [currentChunk],
    [currentWordCount] and [chunkIndex]. *)
Record state := mkState {
  st_chunks : list Chunk;
  st_currentChunk : list jsstring;
  st_currentWordCount : Z;
  st_chunkIndex : Z
}.

Definition pushChunk (st : state) (text : jsstring) : state :=
  let finalContent := trim text in
  if is_empty finalContent then st
  else mkState (st_chunks st ++ [mkChunk finalContent (st_chunkIndex st) 0 None])
               (st_currentChunk st)
               (st_currentWordCount st)
               (st_chunkIndex st + 1).

Definition PARA_SEP : jsstring := [LF; LF].

(** [if (currentChunk.length) { pushChunk(...); currentChunk = [];
    currentWordCount = 0; }] *)
Definition flush_pending (st : state) : state :=
  if is_empty (st_currentChunk st) then st
  else
    let st' := pushChunk st (join PARA_SEP (st_currentChunk st)) in
    mkState (st_chunks st') [] 0 (st_chunkIndex st').

(** [for (let i = 0; i < words.length; i += chunkSize - overlap)
      { pushChunk(words.slice(i, i + chunkSize).join(" "));
        if (i + chunkSize >= words.length) break; }]
    started at index [i]. *)
Fixpoint window_loop (fuel : nat) (words : list jsstring)
    (chunkSize overlap : Z) (i : Z) (st : state) : option state :=
  match fuel with
  | O => None
  | S fuel' =>
      if i <? len words then
        let st' := pushChunk st (join [SP] (slice words i (i + chunkSize))) in
        if i + chunkSize >=? len words then Some st'
        else window_loop fuel' words chunkSize overlap
                         (i + (chunkSize - overlap)) st'
      else Some st
  end.

(** The body of [for (const paragraph of paragraphs)]. *)
Definition paragraph_step (fuel : nat) (chunkSize overlap : Z)
    (st : state) (paragraph : jsstring) : option state :=
  let words := split_ws (trim paragraph) in
  if len words >? chunkSize then
    window_loop fuel words chunkSize overlap 0 (flush_pending st)
  else if (st_currentWordCount st + len words >? chunkSize)
          && negb (is_empty (st_currentChunk st)) then
    let st' := pushChunk st (join PARA_SEP (st_currentChunk st)) in
    let prevWords := split_ws (join [SP] (st_currentChunk st)) in
    let overlapText :=
      join [SP] (slice_from prevWords (- Z.min overlap (len prevWords))) in
    Some (mkState (st_chunks st')
            (if is_empty overlapText then [paragraph]
             else [overlapText; paragraph])
            (len (split_ws overlapText) + len words)
            (st_chunkIndex st'))
  else
    Some (mkState (st_chunks st)
            (st_currentChunk st ++ [paragraph])
            (st_currentWordCount st + len words)
            (st_chunkIndex st)).

Fixpoint for_paragraphs (fuel : nat) (chunkSize overlap : Z)
    (paragraphs : list jsstring) (st : state) : option state :=
  match paragraphs with
  | [] => Some st
  | p :: ps =>
      match paragraph_step fuel chunkSize overlap st p with
      | Some st' => for_paragraphs fuel chunkSize overlap ps st'
      | None => None
      end
  end.

Definition cleanText (text : jsstring) : jsstring :=
  trim (replace_pair SP LF [LF] (collapse_ws (replace_pair CR LF [LF] text))).

Definition paragraphsOf (cleanedText : jsstring) : list jsstring :=
  filter (fun p => negb (is_empty (trim p))) (split_nl cleanedText).

Definition initial_state : state := mkState [] [] 0 0.

(** [chunkText(text, chunkSize, overlap)]; [None] when a window loop does
    not finish within [fuel] iterations. *)
Definition chunkText (fuel : nat) (text : jsstring) (chunkSize overlap : Z)
  : option (list Chunk) :=
  if is_empty text || is_empty (trim text) then Some []
  else
    match for_paragraphs fuel chunkSize overlap
            (paragraphsOf (cleanText text)) initial_state with
    | None => None
    | Some st =>
        if is_empty (st_currentChunk st) then Some (st_chunks st)
        else Some (st_chunks (pushChunk st (join PARA_SEP (st_currentChunk st))))
    end.

(** The words of a text: its maximal runs of non-whitespace code units,
    that is, the non-empty fields between its whitespace runs. *)
Definition words (s : jsstring) : list jsstring :=
  filter (fun f => negb (is_empty f)) (split_ws s).

(** The word sequence a chunk sequence stands for: the words of the first
    chunk, then the words of every later chunk without the [overlap] words
    it repeats from its predecessor. *)
Definition reconstruct (overlap : Z) (cs : list Chunk) : list jsstring :=
  match cs with
  | [] => []
  | c :: cs' =>
      words (content c)
      ++ concat (map (fun c' => skipn (Z.to_nat overlap) (words (content c'))) cs')
  end.

(** ** Regular expressions

    The fragment of ECMAScript's pattern language (Annex B, no flag other
    than [g]) that the development interprets.  [RegExp] answers
    [Unsupported] for a pattern outside the fragment; nothing is claimed
    about such a pattern. *)

Inductive outcome (A : Type) : Type :=
| Ok (a : A)
| SyntaxError
| Unsupported.

Arguments Ok {A} a.
Arguments SyntaxError {A}.
Arguments Unsupported {A}.

Inductive assertion := AStart | AEnd | AWordBoundary | ANotWordBoundary.

Inductive charset := CsDigit | CsWord | CsSpace.

Inductive regex :=
| REmpty
| RChar (c : ascii)
| RAny
| RSet (negated : bool) (k : charset)
| RAssert (a : assertion)
| RSeq (r1 r2 : regex)
| RAlt (r1 r2 : regex)
| RRepeat (r : regex) (min : nat) (max : option nat) (greedy : bool).

Definition BS : ascii := "\"%char.

Definition in_range (lo hi : N) (c : ascii) : bool :=
  ((lo <=? N_of_ascii c) && (N_of_ascii c <=? hi))%N.

Definition is_digit (c : ascii) : bool := in_range 48 57 c.

Definition is_ascii_letter (c : ascii) : bool :=
  in_range 65 90 c || in_range 97 122 c.

(** [\w]: the code units [A-Za-z0-9_]. *)
Definition is_word_char (c : ascii) : bool :=
  is_ascii_letter c || is_digit c || Ascii.eqb c "_"%char.

(** The code units [.] does not match (Latin-1: LF and CR). *)
Definition is_line_terminator (c : ascii) : bool :=
  Ascii.eqb c LF || Ascii.eqb c CR.

Definition char_is (c : ascii) (s : string) : bool :=
  existsb (Ascii.eqb c) (list_ascii_of_string s).

(** A quantifier after an atom: [*], [+] or [?], lazy when a [?] follows.
    A brace is outside the fragment. *)
Definition parse_quantifier (atom : regex) (p : jsstring) : outcome (regex * jsstring) :=
  let lazy_suffix (min : nat) (max : option nat) (rest : jsstring) :=
    match rest with
    | q :: rest' =>
        if Ascii.eqb q "?"%char then Ok (RRepeat atom min max false, rest')
        else Ok (RRepeat atom min max true, rest)
    | [] => Ok (RRepeat atom min max true, rest)
    end in
  match p with
  | c :: rest =>
      if Ascii.eqb c "*"%char then lazy_suffix 0%nat None rest
      else if Ascii.eqb c "+"%char then lazy_suffix 1%nat None rest
      else if Ascii.eqb c "?"%char then lazy_suffix 0%nat (Some 1%nat) rest
      else if Ascii.eqb c "{"%char then Unsupported
      else Ok (atom, p)
  | [] => Ok (atom, p)
  end.

(** The term after a backslash. *)
Definition parse_escape (p : jsstring) : outcome (regex * jsstring) :=
  match p with
  | [] => SyntaxError
  | c :: rest =>
      if Ascii.eqb c "b"%char then Ok (RAssert AWordBoundary, rest)
      else if Ascii.eqb c "B"%char then Ok (RAssert ANotWordBoundary, rest)
      else if Ascii.eqb c "d"%char then parse_quantifier (RSet false CsDigit) rest
      else if Ascii.eqb c "D"%char then parse_quantifier (RSet true CsDigit) rest
      else if Ascii.eqb c "w"%char then parse_quantifier (RSet false CsWord) rest
      else if Ascii.eqb c "W"%char then parse_quantifier (RSet true CsWord) rest
      else if Ascii.eqb c "s"%char then parse_quantifier (RSet false CsSpace) rest
      else if Ascii.eqb c "S"%char then parse_quantifier (RSet true CsSpace) rest
      else if Ascii.eqb c "t"%char then parse_quantifier (RChar "009"%char) rest
      else if Ascii.eqb c "n"%char then parse_quantifier (RChar "010"%char) rest
      else if Ascii.eqb c "v"%char then parse_quantifier (RChar "011"%char) rest
      else if Ascii.eqb c "f"%char then parse_quantifier (RChar "012"%char) rest
      else if Ascii.eqb c "r"%char then parse_quantifier (RChar "013"%char) rest
      else if is_ascii_letter c || is_digit c then Unsupported
      else parse_quantifier (RChar c) rest
  end.

(** Disjunction, Alternative and Term of the pattern grammar.  A
    disjunction or an alternative ends before a [)] or at the end of the
    pattern. *)
Fixpoint parse_disjunction (fuel : nat) (p : jsstring) : outcome (regex * jsstring) :=
  match fuel with
  | O => Unsupported
  | S fuel' =>
      match parse_alternative fuel' p with
      | Ok (r1, rest) =>
          match rest with
          | c :: rest' =>
              if Ascii.eqb c "|"%char then
                match parse_disjunction fuel' rest' with
                | Ok (r2, rest'') => Ok (RAlt r1 r2, rest'')
                | e => e
                end
              else Ok (r1, rest)
          | [] => Ok (r1, rest)
          end
      | e => e
      end
  end
with parse_alternative (fuel : nat) (p : jsstring) : outcome (regex * jsstring) :=
  match fuel with
  | O => Unsupported
  | S fuel' =>
      match p with
      | [] => Ok (REmpty, p)
      | c :: _ =>
          if char_is c "|)" then Ok (REmpty, p)
          else
            match parse_term fuel' p with
            | Ok (t, rest) =>
                match parse_alternative fuel' rest with
                | Ok (r, rest') => Ok (RSeq t r, rest')
                | e => e
                end
            | e => e
            end
      end
  end
with parse_term (fuel : nat) (p : jsstring) : outcome (regex * jsstring) :=
  match fuel with
  | O => Unsupported
  | S fuel' =>
      match p with
      | [] => Ok (REmpty, p)
      | c :: rest =>
          if Ascii.eqb c "^"%char then Ok (RAssert AStart, rest)
          else if Ascii.eqb c "$"%char then Ok (RAssert AEnd, rest)
          else if Ascii.eqb c BS then parse_escape rest
          else if Ascii.eqb c "."%char then parse_quantifier RAny rest
          else if char_is c "*+?" then SyntaxError
          else if char_is c "{[" then Unsupported
          else if Ascii.eqb c "("%char then
            let body :=
              match rest with
              | q :: rest' =>
                  if Ascii.eqb q "?"%char then
                    match rest' with
                    | k :: rest'' =>
                        if Ascii.eqb k ":"%char then Some rest'' else None
                    | [] => None
                    end
                  else Some rest
              | [] => Some rest
              end in
            match body with
            | None => Unsupported
            | Some b =>
                match parse_disjunction fuel' b with
                | Ok (r, after) =>
                    match after with
                    | k :: after' =>
                        if Ascii.eqb k ")"%char then parse_quantifier r after'
                        else SyntaxError
                    | [] => SyntaxError
                    end
                | e => e
                end
            end
          else parse_quantifier (RChar c) rest
      end
  end.

(** [new RegExp(pattern, "g")]: the parsed pattern, or the [SyntaxError]
    the constructor throws. *)
Definition RegExp (pattern : jsstring) : outcome regex :=
  match parse_disjunction (4 * length pattern + 4) pattern with
  | Ok (r, []) => Ok r
  | Ok (_, _ :: _) => SyntaxError
  | SyntaxError => SyntaxError
  | Unsupported => Unsupported
  end.

(** A position of the matcher: the code unit before it, if any, and the
    input from it on. *)
Definition position := (option ascii * jsstring)%type.

Definition word_before (prev : option ascii) : bool :=
  match prev with Some c => is_word_char c | None => false end.

Definition word_after (s : jsstring) : bool :=
  match s with c :: _ => is_word_char c | [] => false end.

Definition holds (a : assertion) (prev : option ascii) (s : jsstring) : bool :=
  match a with
  | AStart => match prev with None => true | Some _ => false end
  | AEnd => is_empty s
  | AWordBoundary => xorb (word_before prev) (word_after s)
  | ANotWordBoundary => negb (xorb (word_before prev) (word_after s))
  end.

Definition in_charset (k : charset) (c : ascii) : bool :=
  match k with
  | CsDigit => is_digit c
  | CsWord => is_word_char c
  | CsSpace => is_space c
  end.

Definition on_char (ok : ascii -> bool) (s : jsstring)
    (k : option ascii -> jsstring -> option position) : option position :=
  match s with
  | c :: s' => if ok c then k (Some c) s' else None
  | [] => None
  end.

Definition or_else {A} (x : option A) (y : option A) : option A :=
  match x with Some _ => x | None => y end.

(** The backtracking matcher of the language specification: [rmatch r prev
    s k] is the first way, in priority order, to match [r] at the position
    and then satisfy the continuation [k].  The inner loop is the
    specification's RepeatMatcher: an iteration that may be skipped and
    consumes nothing is rejected. *)
Fixpoint rmatch (r : regex) (prev : option ascii) (s : jsstring)
    (k : option ascii -> jsstring -> option position) {struct r}
  : option position :=
  match r with
  | REmpty => k prev s
  | RChar c => on_char (Ascii.eqb c) s k
  | RAny => on_char (fun c => negb (is_line_terminator c)) s k
  | RSet negated cs => on_char (fun c => xorb negated (in_charset cs c)) s k
  | RAssert a => if holds a prev s then k prev s else None
  | RSeq r1 r2 => rmatch r1 prev s (fun prev' s' => rmatch r2 prev' s' k)
  | RAlt r1 r2 => or_else (rmatch r1 prev s k) (rmatch r2 prev s k)
  | RRepeat r0 min max greedy =>
      (fix repeat (fuel : nat) (min : nat) (max : option nat)
           (prev : option ascii) (s : jsstring) {struct fuel} : option position :=
         match fuel with
         | O => None
         | S fuel' =>
             match max with
             | Some O => k prev s
             | _ =>
                 let d := fun prev' s' =>
                   if Nat.eqb min 0 && Nat.eqb (length s') (length s) then None
                   else repeat fuel' (Nat.pred min) (option_map Nat.pred max) prev' s' in
                 if negb (Nat.eqb min 0) then rmatch r0 prev s d
                 else if greedy then or_else (rmatch r0 prev s d) (k prev s)
                 else or_else (k prev s) (rmatch r0 prev s d)
             end
         end) (S (min + length s)) min max prev s
  end.

(** The number of matches [s.match(re)] collects for a global [re]: after
    a match the search resumes where the match ended, one code unit further
    when the match was empty; where no match starts the search moves one
    code unit on. *)
Fixpoint count_from (fuel : nat) (r : regex) (prev : option ascii) (s : jsstring) : nat :=
  match fuel with
  | O => O
  | S fuel' =>
      match rmatch r prev s (fun prev' s' => Some (prev', s')) with
      | Some (prev', s') =>
          if Nat.eqb (length s') (length s) then
            match s with
            | [] => 1%nat
            | c :: t => S (count_from fuel' r (Some c) t)
            end
          else S (count_from fuel' r prev' s')
      | None =>
          match s with
          | [] => O
          | c :: t => count_from fuel' r (Some c) t
          end
      end
  end.

(** [(s.match(re) || []).length]. *)
Definition match_count (r : regex) (s : jsstring) : Z :=
  Z.of_nat (count_from (S (length s)) r None s).

(** ** The ranker *)

Definition lower_char (c : ascii) : ascii :=
  if in_range 65 90 c
     || (in_range 192 222 c && negb (N.eqb (N_of_ascii c) 215))
  then ascii_of_N (N_of_ascii c + 32)
  else c.

(** [String.prototype.toLowerCase] on Latin-1 code units. *)
Definition toLowerCase (s : jsstring) : jsstring := map lower_char s.

Fixpoint starts_with (w s : jsstring) : bool :=
  match w, s with
  | [], _ => true
  | _ :: _, [] => false
  | a :: w', b :: s' => Ascii.eqb a b && starts_with w' s'
  end.

(** [s.includes(w)]. *)
Fixpoint includes (s w : jsstring) : bool :=
  starts_with w s
  || match s with
     | [] => false
     | _ :: s' => includes s' w
     end.

Fixpoint jsstring_eqb (a b : jsstring) : bool :=
  match a, b with
  | [], [] => true
  | x :: a', y :: b' => Ascii.eqb x y && jsstring_eqb a' b'
  | _, _ => false
  end.

Definition stopWords : list jsstring :=
  map str
    ["the"; "is"; "at"; "which"; "on"; "an"; "in"; "with"; "to"; "for";
     "a"; "and"; "or"; "of"; "as"; "by"; "but"; "this"; "that"; "it"]%string.

(** [stopWords.has(w)]. *)
Definition has (set : list jsstring) (w : jsstring) : bool :=
  existsb (jsstring_eqb w) set.

Definition queryWordsOf (query : jsstring) : list jsstring :=
  filter (fun w => (len w >? 2) && negb (has stopWords w))
         (split_ws (toLowerCase query)).

(** The double that holds an array length or an index (exact below 2^53). *)
Definition number (z : Z) : float := PrimFloat.of_uint63 (Uint63.of_Z z).

(** [Math.max] of two numbers. *)
Definition Math_max (x y : float) : float :=
  if is_nan x || is_nan y then nan
  else if (x <? y)%float then y
  else if (y <? x)%float then x
  else if get_sign x then y else x.

Record ScoredChunk := mkScored {
  s_content : jsstring;
  s_chunkIndex : Z;
  s_pageNumber : Z;
  s_id : option jsstring;
  score : float;
  rawScore : float;
  matchedWords : Z
}.

(** An element of the array [findRelevantChunks] returns: a copy of the
    four chunk properties, with or without the three annotations. *)
Inductive ChunkObject :=
| Unscored (c : Chunk)
| Scored (s : ScoredChunk).

#[local] Set Warnings "-inexact-float".

(** [for (const word of queryWords) { ... score += ... }], from [score]. *)
Fixpoint accumulate (queryWords : list jsstring) (text : jsstring)
    (score : float) : outcome float :=
  match queryWords with
  | [] => Ok score
  | word :: rest =>
      match RegExp ([BS; "b"%char] ++ word ++ [BS; "b"%char]) with
      | Ok exact =>
          let exactMatches := match_count exact text in
          match RegExp word with
          | Ok partial =>
              let partialMatches := match_count partial text in
              let score := (score + number exactMatches * 3)%float in
              let score :=
                (score
                 + Math_max 0 (number partialMatches - number exactMatches) * 1.5)%float in
              accumulate rest text score
          | SyntaxError => SyntaxError
          | Unsupported => Unsupported
          end
      | SyntaxError => SyntaxError
      | Unsupported => Unsupported
      end
  end.

(** The callback of [chunks.map((chunk, index) => ...)]; [total] is
    [chunks.length]. *)
Definition scoreChunk (queryWords : list jsstring) (total : Z)
    (chunk : Chunk) (index : Z) : outcome ScoredChunk :=
  let text := toLowerCase (content chunk) in
  let contentWords := len (split_ws text) in
  match accumulate queryWords text 0%float with
  | Ok score0 =>
      let uniqueWordsFound := len (filter (fun w => includes text w) queryWords) in
      let score1 :=
        if uniqueWordsFound >? 1
        then (score0 + number uniqueWordsFound * 2)%float
        else score0 in
      let normalizedScore := (score1 / sqrt (number contentWords))%float in
      let positionBonus := (1 - (number index / number total) * 0.1)%float in
      Ok (mkScored (content chunk) (chunkIndex chunk) (pageNumber chunk) (id chunk)
                   (normalizedScore * positionBonus)%float score1 uniqueWordsFound)
  | SyntaxError => SyntaxError
  | Unsupported => Unsupported
  end.

(** [chunks.map(...)] from position [index] on: the first callback that
    throws ends the call. *)
Fixpoint scoreChunks (queryWords : list jsstring) (total : Z)
    (chunks : list Chunk) (index : Z) : outcome (list ScoredChunk) :=
  match chunks with
  | [] => Ok []
  | chunk :: rest =>
      match scoreChunk queryWords total chunk index with
      | Ok sc =>
          match scoreChunks queryWords total rest (index + 1) with
          | Ok scs => Ok (sc :: scs)
          | e => e
          end
      | SyntaxError => SyntaxError
      | Unsupported => Unsupported
      end
  end.

(** The sign of a number as [Array.prototype.sort] reads a comparator's
    result: negative, positive, or neither (zero and NaN). *)
Definition float_sign (f : float) : Z :=
  if (f <? 0)%float then -1 else if (0 <? f)%float then 1 else 0.

(** The sign of the comparator's result.  The differences of
    [matchedWords] and of [chunkIndex] are differences of integers. *)
Definition compareChunks (a b : ScoredChunk) : Z :=
  if negb (score b =? score a)%float then float_sign (score b - score a)%float
  else if negb (matchedWords b =? matchedWords a)
       then Z.sgn (matchedWords b - matchedWords a)
  else Z.sgn (s_chunkIndex a - s_chunkIndex b).

(** [Array.prototype.sort] for a comparator that orders consistently: the
    stable sorted arrangement, built by insertion.  [x] goes after [y] when
    the comparator's result on [(x, y)] is positive. *)
Fixpoint insert {A} (cmp : A -> A -> Z) (x : A) (l : list A) : list A :=
  match l with
  | [] => [x]
  | y :: l' => if cmp x y >? 0 then y :: insert cmp x l' else x :: l
  end.

Definition sort {A} (cmp : A -> A -> Z) (l : list A) : list A :=
  fold_right (insert cmp) [] l.

Definition copyChunk (chunk : Chunk) : Chunk :=
  mkChunk (content chunk) (chunkIndex chunk) (pageNumber chunk) (id chunk).

(** [findRelevantChunks(chunks, query, maxChunks)]: the array returned, or
    the [SyntaxError] a [RegExp] constructor throws. *)
Definition findRelevantChunks (chunks : list Chunk) (query : jsstring)
    (maxChunks : Z) : outcome (list ChunkObject) :=
  if is_empty chunks || is_empty query then Ok []
  else
    let queryWords := queryWordsOf query in
    if is_empty queryWords then
      Ok (map (fun chunk => Unscored (copyChunk chunk)) (slice chunks 0 maxChunks))
    else
      match scoreChunks queryWords (len chunks) chunks 0 with
      | Ok scoredChunks =>
          Ok (map Scored
                (slice (sort compareChunks
                          (filter (fun c => (0 <? score c)%float) scoredChunks))
                       0 maxChunks))
      | SyntaxError => SyntaxError
      | Unsupported => Unsupported
      end.

(** ** Arrays and objects as heap cells

    [findRelevantChunks] once more, with the identity of arrays and objects
    made explicit.  An array is a heap cell that holds references to
    objects; [slice], [map] and [filter] allocate a new array, an object
    literal allocates a new object, and [sort] rearranges its receiver in
    place.  The function writes to no property of an existing object. *)

Definition ref := nat.

Record heap := mkHeap {
  objects : list ChunkObject;
  arrays : list (list ref)
}.

(** The four chunk properties of an object. *)
Definition chunk_of (o : ChunkObject) : Chunk :=
  match o with
  | Unscored c => c
  | Scored s => mkChunk (s_content s) (s_chunkIndex s) (s_pageNumber s) (s_id s)
  end.

(** All seven properties of an object; the annotations of an object that
    has none read as [undefined]. *)
Definition scored_of (o : ChunkObject) : ScoredChunk :=
  match o with
  | Scored s => s
  | Unscored c =>
      mkScored (content c) (chunkIndex c) (pageNumber c) (id c) nan nan 0
  end.

Definition read_chunk (h : heap) (r : ref) : Chunk :=
  chunk_of (nth r (objects h) (Unscored (mkChunk [] 0 0 None))).

Definition read_scored (h : heap) (r : ref) : ScoredChunk :=
  scored_of (nth r (objects h) (Unscored (mkChunk [] 0 0 None))).

Definition array_at (h : heap) (a : ref) : list ref := nth a (arrays h) [].

Definition new_object (h : heap) (o : ChunkObject) : heap * ref :=
  (mkHeap (objects h ++ [o]) (arrays h), length (objects h)).

Definition new_array (h : heap) (elems : list ref) : heap * ref :=
  (mkHeap (objects h) (arrays h ++ [elems]), length (arrays h)).

Fixpoint set_nth {A} (n : nat) (x : A) (l : list A) : list A :=
  match l, n with
  | [], _ => []
  | _ :: l', O => x :: l'
  | y :: l', S n' => y :: set_nth n' x l'
  end.

(** The elements of the array at [a] are replaced: an update in place. *)
Definition store_array (h : heap) (a : ref) (elems : list ref) : heap :=
  mkHeap (objects h) (set_nth a elems (arrays h)).

(** [refs.map((chunk) => ({ content: chunk.content, ... }))]. *)
Fixpoint map_copy (h : heap) (refs : list ref) : heap * list ref :=
  match refs with
  | [] => (h, [])
  | r :: rest =>
      let (h1, r') := new_object h (Unscored (copyChunk (read_chunk h r))) in
      let (h2, rs) := map_copy h1 rest in
      (h2, r' :: rs)
  end.

(** [refs.map((chunk, index) => { ... return { ..., score, rawScore,
    matchedWords }; })] from position [index] on. *)
Fixpoint map_score (queryWords : list jsstring) (total : Z) (h : heap)
    (refs : list ref) (index : Z) : outcome (heap * list ref) :=
  match refs with
  | [] => Ok (h, [])
  | r :: rest =>
      match scoreChunk queryWords total (read_chunk h r) index with
      | Ok sc =>
          let (h1, r') := new_object h (Scored sc) in
          match map_score queryWords total h1 rest (index + 1) with
          | Ok (h2, rs) => Ok (h2, r' :: rs)
          | SyntaxError => SyntaxError
          | Unsupported => Unsupported
          end
      | SyntaxError => SyntaxError
      | Unsupported => Unsupported
      end
  end.

(** [scoredChunks.filter(...).sort(...).slice(0, maxChunks)] on the array
    at [scoredChunks]: [filter] allocates the array that [sort] then
    rearranges, and [slice] allocates the array returned. *)
Definition filter_sort_slice (h : heap) (scoredChunks : ref) (maxChunks : Z)
  : heap * ref :=
  let (h1, filtered) :=
    new_array h
      (filter (fun r => (0 <? score (read_scored h r))%float)
              (array_at h scoredChunks)) in
  let h2 :=
    store_array h1 filtered
      (sort (fun x y => compareChunks (read_scored h1 x) (read_scored h1 y))
            (array_at h1 filtered)) in
  new_array h2 (slice (array_at h2 filtered) 0 maxChunks).

(** [findRelevantChunks] on the array at [chunks]: the heap after the call
    and the array returned. *)
Definition findRelevantChunks_in_heap (h : heap) (chunks : ref)
    (query : jsstring) (maxChunks : Z) : outcome (heap * ref) :=
  let refs := array_at h chunks in
  if is_empty refs || is_empty query then Ok (new_array h [])
  else
    let queryWords := queryWordsOf query in
    if is_empty queryWords then
      let (h1, sliced) := new_array h (slice refs 0 maxChunks) in
      let (h2, copies) := map_copy h1 (array_at h1 sliced) in
      Ok (new_array h2 copies)
    else
      match map_score queryWords (len refs) h refs 0 with
      | Ok (h1, scoredRefs) =>
          let (h2, scoredChunks) := new_array h1 scoredRefs in
          Ok (filter_sort_slice h2 scoredChunks maxChunks)
      | SyntaxError => SyntaxError
      | Unsupported => Unsupported
      end.

(** Three chunks for the examples. *)
Definition sample_chunks : list Chunk :=
  [mkChunk (str "a cut above") 0 0 None;
   mkChunk (str "The Cat sat on the mat with a category") 1 0 None;
   mkChunk (str "cat cat") 2 0 None].

(** A heap that holds the three sample chunks and, at [0], their array. *)
Definition sample_heap : heap :=
  mkHeap (map Unscored sample_chunks) [[0; 1; 2]%nat].

(** ** The upload pipeline

    [extractTextFromPDF] (utils/pdfParser.js) and [processPDF]
    (controllers/documentController.js), the caller of [chunkText].  The
    file system, the PDF library and the document store are outside the
    program: what they answer is a parameter, and the updates sent to the
    store are the result. *)

(** The outcome of an asynchronous call: the value it resolves to, or the
    message of the [Error] it rejects with. *)
Inductive result (A : Type) : Type :=
| Returns (a : A)
| Throws (message : jsstring).

Arguments Returns {A} a.
Arguments Throws {A} message.

Definition Buffer := list Byte.byte.

(** The object the PDF library resolves to; a property it lacks reads as
    [undefined], here [None]. *)
Record PdfData := mkPdfData {
  data_text : option jsstring;
  data_numpages : option Z;
  data_info : option (list (jsstring * jsstring))
}.

(** The object [extractTextFromPDF] returns. *)
Record Extracted := mkExtracted {
  text : jsstring;
  numPages : Z;
  info : list (jsstring * jsstring)
}.

(** [x || d] for a string and for a number: [d] when [x] is [undefined],
    empty or zero. *)
Definition or_string (x : option jsstring) (d : jsstring) : jsstring :=
  match x with
  | Some (c :: s) => c :: s
  | _ => d
  end.

Definition or_number (x : option Z) (d : Z) : Z :=
  match x with
  | Some z => if z =? 0 then d else z
  | None => d
  end.

(** [extractTextFromPDF(filePath)]: [readFile] and [pdfParse] answer [None]
    when they reject; either rejection is caught and replaced. *)
Definition extractTextFromPDF (readFile : jsstring -> option Buffer)
    (pdfParse : Buffer -> option PdfData) (filePath : jsstring)
  : result Extracted :=
  match readFile filePath with
  | Some dataBuffer =>
      match pdfParse dataBuffer with
      | Some data =>
          Returns (mkExtracted (or_string (data_text data) [])
                               (or_number (data_numpages data) 0)
                               (match data_info data with
                                | Some i => i
                                | None => []
                                end))
      | None => Throws (str "Failed to extract text from PDF")
      end
  | None => Throws (str "Failed to extract text from PDF")
  end.

(** A chunk as [processPDF] stores it. *)
Record StoredChunk := mkStored {
  stored_content : jsstring;
  stored_chunkIndex : Z;
  stored_pageNumber : Z
}.

(** [rawChunks.map((chunk, index) => ({ content: typeof chunk === "string"
    ? chunk : chunk.content, chunkIndex: index, pageNumber: 0 }))] from
    position [index] on; an element of [rawChunks] is an object, never a
    string. *)
Fixpoint storeChunks (rawChunks : list Chunk) (index : Z) : list StoredChunk :=
  match rawChunks with
  | [] => []
  | chunk :: rest => mkStored (content chunk) index 0 :: storeChunks rest (index + 1)
  end.

(** The second argument of [Document.findByIdAndUpdate]:
    [{ extractedText, chunks, status: "ready" }] or [{ status: "failed" }]. *)
Inductive DocumentUpdate :=
| Ready (extractedText : jsstring) (chunks : list StoredChunk)
| Failed.

Definition ObjectId := jsstring.

(** How the promise of [processPDF] settles. *)
Inductive settled := Resolved | Rejected.

(** The [catch] block of [processPDF], after the updates in [sent]. *)
Definition markFailed (accepts : ObjectId -> DocumentUpdate -> bool)
    (documentId : ObjectId) (sent : list (ObjectId * DocumentUpdate))
  : list (ObjectId * DocumentUpdate) * settled :=
  (sent ++ [(documentId, Failed)],
   if accepts documentId Failed then Resolved else Rejected).

(** [processPDF(documentId, filePath)]: the calls of
    [Document.findByIdAndUpdate] in the order they are made, and how the
    promise settles.  [accepts] tells whether the store resolves an update;
    [None] when [chunkText] does not finish within [fuel] iterations. *)
Definition processPDF (fuel : nat) (readFile : jsstring -> option Buffer)
    (pdfParse : Buffer -> option PdfData)
    (accepts : ObjectId -> DocumentUpdate -> bool)
    (documentId : ObjectId) (filePath : jsstring)
  : option (list (ObjectId * DocumentUpdate) * settled) :=
  match extractTextFromPDF readFile pdfParse filePath with
  | Returns extracted =>
      let text := text extracted in
      if is_empty text || is_empty (trim text)
      then Some (markFailed accepts documentId [])
      else
        match chunkText fuel text 500 50 with
        | Some rawChunks =>
            let chunks := storeChunks rawChunks 0 in
            let update := Ready text chunks in
            if accepts documentId update
            then Some ([(documentId, update)], Resolved)
            else Some (markFailed accepts documentId [(documentId, update)])
        | None => None
        end
  | Throws _ => Some (markFailed accepts documentId [])
  end.

(** ** The vocabulary of the statements *)

Definition spaces (s : jsstring) : Prop := Forall (fun c => is_space c = true) s.

Definition space_free (s : jsstring) : Prop := Forall (fun c => is_space c = false) s.

(** A word: a non-empty string without whitespace. *)
Definition is_word (w : jsstring) : Prop := w <> [] /\ space_free w.

Definition starts_clean (s : jsstring) : Prop :=
  match s with c :: _ => is_space c = false | [] => True end.

(** A string that [trim] leaves alone: it neither starts nor ends with
    whitespace. *)
Definition tight (s : jsstring) : Prop := starts_clean s /\ starts_clean (rev s).

Definition pad (b : bool) : list jsstring := if b then [[]] else [].

(** The shape of a field list: words, with at most one empty field in
    front and one at the end. *)
Definition padded (hd tl : bool) (W : list jsstring) : list jsstring :=
  pad hd ++ W ++ pad tl.

(** The index invariant: the emitted chunks are numbered [0], [1], ... in
    emission order and the counter is their number. *)
Definition dense (cs : list Chunk) : Prop :=
  map chunkIndex cs = map Z.of_nat (seq 0 (length cs)).

Definition numbered (st : state) : Prop :=
  dense (st_chunks st) /\ st_chunkIndex st = len (st_chunks st).

Definition stride (S O : Z) : Z := S - O.

(** The [j]-th window of a word list. *)
Definition window (ws : list jsstring) (S O : Z) (j : nat) : list jsstring :=
  slice ws (Z.of_nat j * stride S O) (Z.of_nat j * stride S O + S).

(** The chunks the window loop emits for windows [0 .. count - 1], the
    first of them numbered [first]. *)
Definition window_chunks (ws : list jsstring) (S O : Z) (first : Z)
    (count : nat) : list Chunk :=
  map (fun j => mkChunk (join [SP] (window ws S O j)) (first + Z.of_nat j) 0 None)
      (seq 0 count).

(** The chunk [flush_pending] emits for the pending buffer, if any. *)
Definition pending_chunk (st : state) : list Chunk :=
  if is_empty (st_currentChunk st)
     || is_empty (trim (join PARA_SEP (st_currentChunk st)))
  then []
  else [mkChunk (trim (join PARA_SEP (st_currentChunk st))) (st_chunkIndex st) 0 None].

Definition sf_sign (f : spec_float) : Z :=
  match f with
  | S754_zero _ | S754_nan => 0
  | S754_infinity s | S754_finite s _ _ => if s then -1 else 1
  end.

(** A positive number in specification form: finite or infinite. *)
Definition sf_positive (f : spec_float) : Prop :=
  valid_binary f = true
  /\ match f with
     | S754_infinity false | S754_finite false _ _ => True
     | _ => False
     end.

(** The order key of a positive number. *)
Definition sf_key (f : spec_float) : Z * Z * Z :=
  match f with
  | S754_infinity _ => (1, 0, 0)
  | S754_finite _ m e => (0, e, Z.pos m)
  | _ => (0, 0, 0)
  end.

Definition key_lt (a b : Z * Z * Z) : Prop :=
  let '(a1, a2, a3) := a in
  let '(b1, b2, b3) := b in
  a1 < b1 \/ (a1 = b1 /\ (a2 < b2 \/ (a2 = b2 /\ a3 < b3))).

(** A positive score: one that [filter] keeps. *)
Definition positive_score (x : float) : Prop := (0 <? x)%float = true.

(** [a] may stand before [b] in the ranking: a higher score, or the same
    score and more matched words, or the same score and matched words and
    a chunk index that is not higher. *)
Definition ranks_before (a b : ScoredChunk) : Prop :=
  (score b <? score a)%float = true
  \/ ((score a =? score b)%float = true
      /\ (matchedWords b < matchedWords a
          \/ (matchedWords a = matchedWords b
              /\ s_chunkIndex a <= s_chunkIndex b))).

Definition score_key (x : float) : Z * Z * Z := sf_key (Prim2SF x).

(** The references of the input array point to objects of the heap. *)
Definition valid_input (h : heap) (chunks : ref) : Prop :=
  (chunks < length (arrays h))%nat
  /\ Forall (fun r => (r < length (objects h))%nat) (array_at h chunks).

(** A code unit that stands for itself in a pattern. *)
Definition plain_char (c : ascii) : bool := negb (char_is c "^$\.*+?()[]{}|").

(** The pattern of a word of plain code units, followed by [tail]. *)
Fixpoint literal (w : jsstring) (tail : regex) : regex :=
  match w with
  | [] => tail
  | c :: w' => RSeq (RChar c) (literal w' tail)
  end.

(** A query whose words hold no pattern character. *)
Definition plain_query (query : jsstring) : Prop :=
  Forall (fun c => plain_char c = true \/ is_space c = true) query.

(** What may follow an atom without being read as its quantifier. *)
Definition no_quantifier (rest : jsstring) : Prop :=
  match rest with
  | [] => True
  | c :: _ => plain_char c = true \/ c = BS
  end.

(** The three properties [processPDF] stores of a chunk, as the chunk has
    them. *)
Definition stored (c : Chunk) : StoredChunk :=
  mkStored (content c) (chunkIndex c) (pageNumber c).

(* ================================================================== *)
(** * Part II: properties *)
(* ================================================================== *)

(** ** Whitespace, trimming and fields *)

Lemma dropWhile_all {A} (p : A -> bool) (pre x : list A) :
  Forall (fun c => p c = true) pre -> dropWhile p (pre ++ x) = dropWhile p x.
Proof.
  induction 1 as [|c pre Hc _ IH]; simpl; [reflexivity|].
  now rewrite Hc.
Qed.

Lemma dropWhile_clean (s : jsstring) :
  starts_clean s -> dropWhile is_space s = s.
Proof.
  destruct s as [|c s]; simpl; [reflexivity|].
  now intros ->.
Qed.

Lemma dropWhile_starts_clean (s : jsstring) : starts_clean (dropWhile is_space s).
Proof.
  induction s as [|c s IH]; simpl; [exact I|].
  destruct (is_space c) eqn:E; [exact IH|]. simpl. exact E.
Qed.

Lemma dropWhile_suffix {A} (p : A -> bool) (s : list A) :
  exists pre, Forall (fun c => p c = true) pre /\ s = pre ++ dropWhile p s.
Proof.
  induction s as [|c s [pre [Hp He]]]; simpl.
  - exists []. split; [constructor|reflexivity].
  - destruct (p c) eqn:E.
    + exists (c :: pre). split; [now constructor|]. simpl. now rewrite <- He.
    + exists []. split; [constructor|reflexivity].
Qed.

Lemma spaces_rev (s : jsstring) : spaces s -> spaces (rev s).
Proof. intros H. apply Forall_rev. exact H. Qed.

Lemma starts_clean_app (a b : jsstring) :
  a <> [] -> starts_clean a -> starts_clean (a ++ b).
Proof. destruct a; simpl; [congruence|auto]. Qed.

(** [trim] removes a whitespace prefix and a whitespace suffix around a
    tight core. *)
Lemma trim_spec (pre core post : jsstring) :
  spaces pre -> spaces post -> tight core -> trim (pre ++ core ++ post) = core.
Proof.
  intros Hpre Hpost [Hs He]. unfold trim, trimStart, trimEnd.
  rewrite dropWhile_all by exact Hpre.
  destruct core as [|c core].
  - simpl. replace (dropWhile is_space post) with (@nil ascii).
    + reflexivity.
    + rewrite <- (app_nil_r post) at 1. rewrite dropWhile_all by exact Hpost.
      reflexivity.
  - rewrite (@dropWhile_clean ((c :: core) ++ post)).
    + rewrite rev_app_distr. rewrite dropWhile_all by (apply spaces_rev; exact Hpost).
      rewrite dropWhile_clean by exact He. apply rev_involutive.
    + simpl. exact Hs.
Qed.

Lemma trim_tight (s : jsstring) : tight s -> trim s = s.
Proof.
  intros H.
  pose proof (@trim_spec [] s [] (Forall_nil _) (Forall_nil _) H) as E.
  simpl in E. now rewrite app_nil_r in E.
Qed.

Lemma trim_is_tight (s : jsstring) : tight (trim s).
Proof.
  unfold trim, trimEnd, trimStart. split.
  - pose proof (dropWhile_starts_clean s) as H.
    destruct (dropWhile_suffix is_space (rev (dropWhile is_space s))) as [pre [Hp He]].
    apply (f_equal (@rev ascii)) in He. rewrite rev_involutive, rev_app_distr in He.
    set (core := rev (dropWhile is_space (rev (dropWhile is_space s)))) in *.
    destruct core as [|c core]; [exact I|].
    rewrite He in H. simpl in H. simpl. exact H.
  - rewrite rev_involutive. apply dropWhile_starts_clean.
Qed.

(** Every string is its trimmed core between two runs of whitespace. *)
Lemma trim_decompose (s : jsstring) :
  exists pre post, spaces pre /\ spaces post /\ s = pre ++ trim s ++ post.
Proof.
  destruct (dropWhile_suffix is_space s) as [pre [Hp He]].
  destruct (dropWhile_suffix is_space (rev (dropWhile is_space s))) as [post [Hq Hf]].
  exists pre, (rev post). split; [exact Hp|]. split; [apply spaces_rev; exact Hq|].
  unfold trim, trimEnd, trimStart.
  apply (f_equal (@rev ascii)) in Hf. rewrite rev_involutive, rev_app_distr in Hf.
  rewrite <- Hf. exact He.
Qed.

Lemma trim_spaces (s : jsstring) : spaces s -> trim s = [].
Proof.
  intros H. rewrite <- (app_nil_r s). change (s ++ []) with (s ++ [] ++ []).
  apply trim_spec; try constructor; try exact H; exact I.
Qed.

Lemma trim_empty_spaces (s : jsstring) : trim s = [] -> spaces s.
Proof.
  intros H. destruct (trim_decompose s) as [pre [post [Hp [Hq He]]]].
  rewrite H in He. simpl in He. rewrite He. apply Forall_app. now split.
Qed.

(** ** The fields of a string *)

Lemma split_from_not_nil (sep : ascii -> bool) (s : jsstring) (b : bool) :
  split_from sep b s <> [].
Proof.
  revert b. induction s as [|c s IH]; intros b; simpl; [discriminate|].
  destruct (sep c).
  - destruct b; [apply IH|discriminate].
  - destruct (split_from sep false s); discriminate.
Qed.

Lemma join_cons (sep x : jsstring) (l : list jsstring) :
  l <> [] -> join sep (x :: l) = x ++ sep ++ join sep l.
Proof. destruct l; [congruence|reflexivity]. Qed.

(** Replacing every whitespace run by one space joins the fields with
    single spaces. *)
Lemma collapse_join (s : jsstring) (b : bool) :
  collapse_from b s = join [SP] (split_from is_space b s).
Proof.
  revert b. induction s as [|c s IH]; intros b; simpl; [reflexivity|].
  destruct (is_space c).
  - destruct b; [apply IH|].
    rewrite join_cons by apply split_from_not_nil. simpl. now rewrite IH.
  - rewrite IH. pose proof (@split_from_not_nil is_space s false) as H.
    destruct (split_from is_space false s) as [|f fs]; [congruence|].
    destruct fs; reflexivity.
Qed.

Lemma split_sep_free (sep : ascii -> bool) (w : jsstring) (b : bool) :
  Forall (fun c => sep c = false) w -> split_from sep b w = [w].
Proof.
  intros H. revert b. induction H as [|c w Hc _ IH]; intros b; simpl; [reflexivity|].
  rewrite Hc. now rewrite (IH false).
Qed.

Lemma split_clean_start (s : jsstring) :
  starts_clean s -> split_from is_space true s = split_from is_space false s.
Proof.
  destruct s as [|c s]; simpl; [reflexivity|]. now intros ->.
Qed.

(** A word in front of a string extends its first field. *)
Lemma split_word_app (w x : jsstring) (b : bool) :
  space_free w -> w <> [] \/ b = false ->
  split_from is_space b (w ++ x)
  = match split_from is_space false x with
    | f :: fs => (w ++ f) :: fs
    | [] => [w]
    end.
Proof.
  intros Hw. revert b. induction Hw as [|c w Hc Hw IH]; intros b Hb.
  - destruct Hb as [Hb|Hb]; [congruence|]. subst b. simpl.
    pose proof (@split_from_not_nil is_space x false).
    destruct (split_from is_space false x); [congruence|reflexivity].
  - simpl. rewrite Hc. rewrite (IH false) by now right.
    pose proof (@split_from_not_nil is_space x false).
    destruct (split_from is_space false x); [congruence|reflexivity].
Qed.

Lemma split_structure (s : jsstring) :
  (exists hd tl W, Forall is_word W
                   /\ split_from is_space false s = padded hd tl W)
  /\ (exists tl W, Forall is_word W
                   /\ split_from is_space true s = padded false tl W).
Proof.
  induction s as [|c s [[hd [tl [W [HW E]]]] [tl' [W' [HW' E']]]]].
  - split.
    + exists false, true, []. split; [constructor|reflexivity].
    + exists true, []. split; [constructor|reflexivity].
  - simpl. destruct (is_space c) eqn:Ec.
    + split.
      * exists true, tl', W'. split; [exact HW'|]. rewrite E'. reflexivity.
      * exists tl', W'. split; [exact HW'|exact E'].
    + assert (exists tl2 W2, Forall is_word W2 /\
                match split_from is_space false s with
                | [] => [[c]]
                | f :: fs => (c :: f) :: fs
                end = padded false tl2 W2) as [tl2 [W2 [H2 E2]]].
      { rewrite E. destruct hd.
        - exists tl, ([c] :: W). split; [|reflexivity].
          constructor; [|exact HW]. split; [discriminate|]. now repeat constructor.
        - destruct W as [|w W].
          + exists false, [[c]]. split.
            * constructor; [|constructor]. split; [discriminate|]. now repeat constructor.
            * destruct tl; reflexivity.
          + exists tl, ((c :: w) :: W). split; [|reflexivity].
            inversion HW as [|? ? [Hn Hf] HW0]; subst.
            constructor; [|exact HW0]. split; [discriminate|]. now constructor. }
      split.
      * exists false, tl2, W2. now split.
      * exists tl2, W2. now split.
Qed.

Lemma filter_words (W : list jsstring) :
  Forall is_word W -> filter (fun f => negb (is_empty f)) W = W.
Proof.
  induction 1 as [|w W [Hn _] _ IH]; simpl; [reflexivity|].
  destruct w; [congruence|]. simpl. now rewrite IH.
Qed.

Lemma words_padded (hd tl : bool) (W : list jsstring) :
  Forall is_word W -> filter (fun f => negb (is_empty f)) (padded hd tl W) = W.
Proof.
  intros H. unfold padded, pad.
  destruct hd, tl; simpl; rewrite ?filter_app; simpl;
    rewrite ?app_nil_r; now apply filter_words.
Qed.

(** The fields of a string are its words, padded. *)
Lemma split_ws_words (s : jsstring) :
  Forall is_word (words s)
  /\ exists hd tl, split_ws s = padded hd tl (words s).
Proof.
  destruct (split_structure s) as [[hd [tl [W [HW E]]]] _].
  unfold words, split_ws. rewrite E, (words_padded _ _ HW).
  split; [exact HW|]. now exists hd, tl.
Qed.

Lemma words_are_words (s : jsstring) : Forall is_word (words s).
Proof. apply split_ws_words. Qed.

Lemma join_nonempty (W : list jsstring) :
  Forall is_word W -> W <> [] -> join [SP] W <> [].
Proof.
  intros H Hn. destruct H as [|w W [Hw _] H]; [congruence|].
  destruct w as [|c w]; [congruence|]. destruct W; discriminate.
Qed.

Lemma word_starts_clean (w : jsstring) : space_free w -> starts_clean w.
Proof. destruct 1; simpl; auto. Qed.

Lemma join_tight (W : list jsstring) : Forall is_word W -> tight (join [SP] W).
Proof.
  induction 1 as [|w W [Hn Hf] HW IH]; [split; exact I|].
  destruct W as [|w' W].
  - simpl. split.
    + now apply word_starts_clean.
    + apply word_starts_clean. now apply Forall_rev.
  - rewrite join_cons by discriminate. split.
    + apply starts_clean_app; [exact Hn|now apply word_starts_clean].
    + rewrite app_assoc, rev_app_distr. apply starts_clean_app.
      * intros E. apply (@join_nonempty (w' :: W) HW); [discriminate|].
        rewrite <- (rev_involutive (join [SP] (w' :: W))). now rewrite E.
      * apply IH.
Qed.

Lemma join_padded (hd tl : bool) (W : list jsstring) :
  exists pre post, spaces pre /\ spaces post
    /\ join [SP] (padded hd tl W) = pre ++ join [SP] W ++ post.
Proof.
  assert (Hsp : spaces [SP]) by (repeat constructor).
  assert (Htl : forall tl, exists post, spaces post
             /\ join [SP] (W ++ pad tl) = join [SP] W ++ post).
  { intros [|].
    - induction W as [|w W [post [Hp IH]]].
      + exists []. split; [constructor|reflexivity].
      + destruct W as [|w' W].
        * exists [SP]. split; [exact Hsp|reflexivity].
        * exists post. split; [exact Hp|].
          change ((w :: w' :: W) ++ pad true) with (w :: ((w' :: W) ++ pad true)).
          rewrite (@join_cons [SP] w ((w' :: W) ++ pad true)) by discriminate.
          rewrite (@join_cons [SP] w (w' :: W)) by discriminate.
          rewrite IH. now rewrite <- !app_assoc.
    - exists []. split; [constructor|]. now rewrite !app_nil_r. }
  destruct (Htl tl) as [post [Hp E]]. unfold padded. destruct hd.
  - destruct (W ++ pad tl) as [|x l] eqn:El.
    + exists [], []. repeat split; try constructor.
      destruct W; [reflexivity|discriminate].
    + exists [SP], post. repeat split; try assumption.
      simpl app at 1. rewrite join_cons by discriminate.
      rewrite E. reflexivity.
  - exists [], post. repeat split; try assumption; try constructor.
Qed.

(** [trim] after the replacement of whitespace runs leaves the words,
    joined by single spaces. *)
Lemma trim_collapse (s : jsstring) :
  trim (collapse_ws s) = join [SP] (words s).
Proof.
  unfold collapse_ws. rewrite collapse_join.
  destruct (split_ws_words s) as [HW [hd [tl E]]]. unfold split_ws in E.
  rewrite E. destruct (join_padded hd tl (words s)) as [pre [post [Hp [Hq Ej]]]].
  rewrite Ej. apply trim_spec; try assumption. now apply join_tight.
Qed.

(** The fields of a list of words joined by single spaces. *)
Lemma split_join (W : list jsstring) :
  Forall is_word W -> W <> [] -> split_ws (join [SP] W) = W.
Proof.
  unfold split_ws. induction 1 as [|w W [Hn Hf] HW IH]; [congruence|]. intros _.
  destruct W as [|w' W].
  - simpl. now apply split_sep_free.
  - rewrite join_cons by discriminate.
    rewrite split_word_app by (try exact Hf; now left).
    pose proof (proj1 (join_tight HW)) as Hc.
    specialize (IH ltac:(discriminate)).
    set (J := join [SP] (w' :: W)) in *.
    change ([SP] ++ J) with (SP :: J).
    cbn [split_from]. change (is_space SP) with true. cbv iota.
    rewrite split_clean_start by exact Hc.
    rewrite IH. now rewrite app_nil_r.
Qed.

Lemma words_join (W : list jsstring) :
  Forall is_word W -> words (join [SP] W) = W.
Proof.
  intros H. destruct W as [|w W]; [reflexivity|].
  unfold words. rewrite split_join by (try exact H; discriminate).
  now apply filter_words.
Qed.

Lemma concat_split (sep : ascii -> bool) (s : jsstring) (b : bool) :
  concat (split_from sep b s) = filter (fun c => negb (sep c)) s.
Proof.
  revert b. induction s as [|c s IH]; intros b; simpl; [reflexivity|].
  destruct (sep c); simpl.
  - destruct b; simpl; apply IH.
  - rewrite <- (IH false).
    pose proof (@split_from_not_nil sep s false).
    destruct (split_from sep false s); [congruence|reflexivity].
Qed.

Lemma filter_nonempty_nil (F : list jsstring) :
  filter (fun f => negb (is_empty f)) F = [] <-> concat F = [].
Proof.
  induction F as [|f F IH]; simpl; [tauto|].
  destruct f as [|c f]; simpl; [exact IH|]. split; discriminate.
Qed.

(** A string has no word exactly when it is blank. *)
Lemma words_nil_spaces (s : jsstring) : words s = [] <-> spaces s.
Proof.
  unfold words, split_ws. rewrite filter_nonempty_nil, concat_split.
  unfold spaces. induction s as [|c s IH]; simpl.
  - split; [constructor|reflexivity].
  - destruct (is_space c) eqn:Ec; simpl.
    + rewrite IH. split; [now constructor|now inversion 1].
    + split; [discriminate|]. inversion 1; congruence.
Qed.

Lemma trim_nil_words (s : jsstring) : trim s = [] <-> words s = [].
Proof.
  rewrite words_nil_spaces. split; [apply trim_empty_spaces|apply trim_spaces].
Qed.

Lemma replace_pair_step (a b : ascii) (r : jsstring) (c d : ascii) (s : jsstring) :
  replace_pair a b r (c :: d :: s)
  = if Ascii.eqb c a && Ascii.eqb d b then r ++ replace_pair a b r s
    else c :: replace_pair a b r (d :: s).
Proof. reflexivity. Qed.

(** A carriage return and line feed become one line feed inside a
    whitespace run: the fields stay. *)
Lemma split_replace_crlf (s : jsstring) (b : bool) :
  split_from is_space b (replace_pair CR LF [LF] s) = split_from is_space b s.
Proof.
  remember (length s) as n eqn:Hn. revert s Hn b.
  induction n as [n IH] using lt_wf_ind. intros s Hn b.
  destruct s as [|c [|d s]]; [reflexivity|reflexivity|].
  rewrite replace_pair_step.
  destruct (Ascii.eqb c CR && Ascii.eqb d LF) eqn:E.
  - apply andb_true_iff in E. destruct E as [E1 E2].
    apply Ascii.eqb_eq in E1, E2. subst c d.
    change ([LF] ++ replace_pair CR LF [LF] s) with (LF :: replace_pair CR LF [LF] s).
    cbn [split_from]. change (is_space LF) with true. change (is_space CR) with true.
    cbv iota. rewrite (IH (length s)) by (simpl in Hn; first [lia | reflexivity]).
    now destruct b.
  - assert (Hlen : (length (d :: s) < n)%nat) by (subst n; simpl; lia).
    remember (d :: s) as t eqn:Et.
    cbn [split_from]. now rewrite !(IH (length t) Hlen t eq_refl).
Qed.

Lemma replace_pair_absent (a b : ascii) (r s : jsstring) :
  Forall (fun c => Ascii.eqb c b = false) s -> replace_pair a b r s = s.
Proof.
  induction 1 as [|c s Hc Hs IH]; [reflexivity|].
  cbn [replace_pair]. destruct s as [|d s]; [reflexivity|].
  inversion Hs; subst. rewrite H1, andb_false_r. now rewrite IH.
Qed.

Lemma space_not_LF (c : ascii) : is_space c = false -> Ascii.eqb c LF = false.
Proof.
  intros H. destruct (Ascii.eqb c LF) eqn:E; [|reflexivity].
  apply Ascii.eqb_eq in E. subst c. discriminate.
Qed.

Lemma collapse_no_LF (s : jsstring) (b : bool) :
  Forall (fun c => Ascii.eqb c LF = false) (collapse_from b s).
Proof.
  revert b. induction s as [|c s IH]; intros b; simpl; [constructor|].
  destruct (is_space c) eqn:Ec.
  - destruct b; [apply IH|]. constructor; [reflexivity|apply IH].
  - constructor; [now apply space_not_LF|apply IH].
Qed.

(** The normalisation of [chunkText] yields the words of the text joined
    by single spaces: no line feed survives it. *)
Lemma cleanText_words (text : jsstring) :
  cleanText text = join [SP] (words text).
Proof.
  unfold cleanText.
  rewrite (@replace_pair_absent SP LF [LF] _ (collapse_no_LF _ false)).
  rewrite <- trim_collapse. unfold collapse_ws.
  now rewrite !collapse_join, split_replace_crlf.
Qed.

Lemma cleanText_no_LF (text : jsstring) :
  Forall (fun c => is_LF c = false) (cleanText text).
Proof.
  rewrite cleanText_words.
  pose proof (words_are_words text) as H.
  induction H as [|w W [_ Hf] HW IH]; [constructor|].
  assert (Hw : Forall (fun c => is_LF c = false) w).
  { revert Hf. apply Forall_impl. intros c Hc. now apply space_not_LF. }
  destruct W as [|w' W]; [exact Hw|].
  rewrite join_cons by discriminate.
  apply Forall_app. split; [exact Hw|].
  apply Forall_app. split; [now repeat constructor|exact IH].
Qed.

(** ** Slices *)

Lemma slice_firstn_skipn {A} (l : list A) (i n : Z) :
  0 <= i -> 0 <= n ->
  slice l i (i + n) = firstn (Z.to_nat n) (skipn (Z.to_nat i) l).
Proof.
  intros Hi Hn. unfold slice, rel_index.
  replace (i <? 0) with false by (symmetry; apply Z.ltb_ge; lia).
  replace (i + n <? 0) with false by (symmetry; apply Z.ltb_ge; lia).
  set (L := Z.of_nat (length l)).
  assert (HL : 0 <= L) by (unfold L; lia).
  destruct (Z.le_gt_cases L i) as [H|H].
  - rewrite (Z.min_r i L), (Z.min_r (i + n) L) by lia.
    rewrite !skipn_all2 by (unfold L in *; lia). now rewrite !firstn_nil.
  - rewrite (Z.min_l i L) by lia.
    destruct (Z.le_gt_cases (i + n) L) as [H'|H'].
    + rewrite Z.min_l by lia. f_equal. lia.
    + rewrite Z.min_r by lia.
      rewrite !firstn_all2; try reflexivity;
        rewrite length_skipn; unfold L in *; lia.
Qed.

Lemma firstn_skipn_glue {A} (l : list A) (a b : nat) :
  firstn a l ++ firstn b (skipn a l) = firstn (a + b) l.
Proof.
  revert l. induction a as [|a IH]; intros l; simpl; [reflexivity|].
  destruct l as [|x l]; simpl.
  - now rewrite firstn_nil.
  - now rewrite IH.
Qed.

Lemma skipn_firstn_swap {A} (l : list A) (a b : nat) :
  (a <= b)%nat -> skipn a (firstn b l) = firstn (b - a) (skipn a l).
Proof.
  revert l b. induction a as [|a IH]; intros l b H; simpl.
  - now rewrite Nat.sub_0_r.
  - destruct b as [|b]; [lia|]. destruct l as [|x l]; simpl.
    + now rewrite firstn_nil.
    + apply IH. lia.
Qed.

Lemma Forall_firstn {A} (P : A -> Prop) (n : nat) (l : list A) :
  Forall P l -> Forall P (firstn n l).
Proof.
  intros H. revert n. induction H; intros [|n]; simpl; constructor; auto.
Qed.

Lemma Forall_skipn {A} (P : A -> Prop) (n : nat) (l : list A) :
  Forall P l -> Forall P (skipn n l).
Proof.
  intros H. revert n. induction H; intros [|n]; simpl; try constructor; auto.
Qed.

Lemma Forall_slice {A} (P : A -> Prop) (l : list A) (i j : Z) :
  Forall P l -> Forall P (slice l i j).
Proof.
  intros H. unfold slice. apply Forall_firstn. now apply Forall_skipn.
Qed.

(** ** Emission *)

Lemma pushChunk_words (st : state) (ws : list jsstring) :
  Forall is_word ws -> ws <> [] ->
  pushChunk st (join [SP] ws)
  = mkState (st_chunks st ++ [mkChunk (join [SP] ws) (st_chunkIndex st) 0 None])
            (st_currentChunk st) (st_currentWordCount st) (st_chunkIndex st + 1).
Proof.
  intros H Hn. unfold pushChunk. rewrite (trim_tight (join_tight H)).
  pose proof (join_nonempty H Hn).
  destruct (join [SP] ws); [congruence|reflexivity].
Qed.

Lemma pushChunk_currentChunk (st : state) (text : jsstring) :
  st_currentChunk (pushChunk st text) = st_currentChunk st.
Proof. unfold pushChunk. now destruct (is_empty (trim text)). Qed.

Lemma pushChunk_numbered (st : state) (text : jsstring) :
  numbered st -> numbered (pushChunk st text).
Proof.
  intros [Hd Hi]. unfold pushChunk.
  destruct (is_empty (trim text)); [now split|].
  unfold numbered, dense, len in *. simpl.
  rewrite length_app, map_app, Hd. simpl.
  rewrite Nat.add_1_r, seq_S, map_app. simpl.
  split; [now rewrite Hi|lia].
Qed.

Lemma flush_pending_numbered (st : state) :
  numbered st -> numbered (flush_pending st).
Proof.
  intros H. unfold flush_pending.
  destruct (is_empty (st_currentChunk st)); [exact H|].
  apply (pushChunk_numbered (join PARA_SEP (st_currentChunk st))) in H.
  exact H.
Qed.

Lemma window_loop_numbered (fuel : nat) (ws : list jsstring) (S O i : Z)
    (st st' : state) :
  numbered st -> window_loop fuel ws S O i st = Some st' -> numbered st'.
Proof.
  revert i st. induction fuel as [|fuel IH]; intros i st H E; simpl in E;
    [discriminate|].
  destruct (i <? len ws); [|now inversion E; subst].
  destruct (i + S >=? len ws).
  - inversion E; subst. now apply pushChunk_numbered.
  - eapply IH; [|exact E]. now apply pushChunk_numbered.
Qed.

Lemma paragraph_step_numbered (fuel : nat) (S O : Z) (st st' : state)
    (p : jsstring) :
  numbered st -> paragraph_step fuel S O st p = Some st' -> numbered st'.
Proof.
  intros H E. unfold paragraph_step in E.
  destruct (len (split_ws (trim p)) >? S).
  - eapply window_loop_numbered; [|exact E]. now apply flush_pending_numbered.
  - destruct ((st_currentWordCount st + len (split_ws (trim p)) >? S)
              && negb (is_empty (st_currentChunk st))).
    + inversion E; subst. clear E.
      apply (pushChunk_numbered (join PARA_SEP (st_currentChunk st))) in H.
      exact H.
    + inversion E; subst. exact H.
Qed.

Lemma for_paragraphs_numbered (fuel : nat) (S O : Z) (ps : list jsstring)
    (st st' : state) :
  numbered st -> for_paragraphs fuel S O ps st = Some st' -> numbered st'.
Proof.
  revert st. induction ps as [|p ps IH]; intros st H E; simpl in E.
  - now inversion E; subst.
  - destruct (paragraph_step fuel S O st p) as [st1|] eqn:E1; [|discriminate].
    eapply IH; [|exact E]. eapply paragraph_step_numbered; eassumption.
Qed.

(** Whatever [chunkText] returns is densely numbered from zero. *)
Lemma chunkText_dense (fuel : nat) (text : jsstring) (S O : Z) (cs : list Chunk) :
  chunkText fuel text S O = Some cs -> dense cs.
Proof.
  unfold chunkText. destruct (is_empty text || is_empty (trim text)).
  - intros E. inversion E. reflexivity.
  - destruct (for_paragraphs fuel S O (paragraphsOf (cleanText text)) initial_state)
      as [st|] eqn:E; [|discriminate].
    assert (Hn : numbered st).
    { eapply for_paragraphs_numbered; [|exact E]. split; reflexivity. }
    destruct (is_empty (st_currentChunk st)); intros E'; inversion E'; subst.
    + apply Hn.
    + apply (pushChunk_numbered (join PARA_SEP (st_currentChunk st))) in Hn.
      apply Hn.
Qed.

(** ** The window loop *)

Lemma window_words (ws : list jsstring) (S O : Z) (j : nat) :
  Forall is_word ws -> Forall is_word (window ws S O j).
Proof. intros H. now apply Forall_slice. Qed.

Lemma window_nonempty (ws : list jsstring) (S O : Z) (j : nat) :
  0 <= O < S -> Z.of_nat j * stride S O < len ws -> window ws S O j <> [].
Proof.
  intros HS Hj. unfold window, stride in *.
  rewrite slice_firstn_skipn by nia.
  assert (Hk : (Z.to_nat (Z.of_nat j * (S - O)) < length ws)%nat)
    by (unfold len in Hj; nia).
  pose proof (length_skipn (Z.to_nat (Z.of_nat j * (S - O))) ws) as Hl.
  destruct (skipn (Z.to_nat (Z.of_nat j * (S - O))) ws) as [|x l] eqn:E.
  - simpl in Hl. lia.
  - destruct (Z.to_nat S) eqn:ES; [lia|]. discriminate.
Qed.

(** The loop started at the [k]-th window with enough fuel: it emits the
    windows [k .. k + m] and stops at the first one that reaches the end
    of the word list. *)
Lemma window_loop_from (ws : list jsstring) (S O : Z) :
  0 <= O < S -> Forall is_word ws ->
  forall (fuel k : nat) (st : state),
    Z.of_nat k * stride S O < len ws ->
    (len ws - Z.of_nat k * stride S O < Z.of_nat fuel) ->
    exists m : nat,
      (forall j, (k <= j < k + m)%nat -> Z.of_nat j * stride S O + S < len ws)
      /\ len ws <= Z.of_nat (k + m) * stride S O + S
      /\ window_loop fuel ws S O (Z.of_nat k * stride S O) st
         = Some (mkState
                   (st_chunks st
                    ++ map (fun j => mkChunk (join [SP] (window ws S O (k + j)))
                                             (st_chunkIndex st + Z.of_nat j) 0 None)
                           (seq 0 (Datatypes.S m)))
                   (st_currentChunk st) (st_currentWordCount st)
                   (st_chunkIndex st + Z.of_nat (Datatypes.S m))).
Proof.
  intros HS HW fuel. induction fuel as [|fuel IH]; intros k st Hk Hf; [lia|].
  cbn [window_loop].
  replace (Z.of_nat k * stride S O <? len ws) with true
    by (symmetry; apply Z.ltb_lt; exact Hk).
  change (slice ws (Z.of_nat k * stride S O) (Z.of_nat k * stride S O + S))
    with (window ws S O k).
  rewrite (@pushChunk_words st _ (@window_words ws S O k HW) (@window_nonempty ws S O k HS Hk)).
  destruct (Z.of_nat k * stride S O + S >=? len ws) eqn:Hend.
  - exists 0%nat. split; [intros j Hj; lia|]. split.
    + rewrite Nat.add_0_r. apply Z.geb_le in Hend. lia.
    + simpl. rewrite Nat.add_0_r, Z.add_0_r. reflexivity.
  - assert (Hlt : Z.of_nat k * stride S O + S < len ws).
    { rewrite Z.geb_leb in Hend. apply Z.leb_gt in Hend. exact Hend. }
    replace (Z.of_nat k * stride S O + (S - O))
      with (Z.of_nat (Datatypes.S k) * stride S O) by (unfold stride; lia).
    edestruct (IH (Datatypes.S k)) as [m [Hm1 [Hm2 Hm3]]];
      [| |rewrite Hm3; clear Hm3].
    + unfold stride in *. lia.
    + unfold stride in *. lia.
    + exists (Datatypes.S m). split; [|split].
      * intros j Hj. destruct (Nat.eq_dec j k) as [->|Hne]; [exact Hlt|].
        apply Hm1. lia.
      * replace (k + Datatypes.S m)%nat with (Datatypes.S k + m)%nat by lia.
        exact Hm2.
      * cbn [st_chunks st_chunkIndex st_currentChunk st_currentWordCount].
        f_equal. f_equal.
        -- rewrite <- app_assoc. f_equal.
           change (seq 0 (Datatypes.S (Datatypes.S m)))
             with (0%nat :: seq 1 (Datatypes.S m)).
           rewrite <- seq_shift, map_cons, map_map.
           cbn [app]. rewrite Nat.add_0_r, Z.add_0_r. f_equal.
           apply map_ext. intros j.
           f_equal; [f_equal; f_equal; lia|lia].
        -- lia.
Qed.

(** ** The words of a tight string *)

Lemma last_field_nonempty (s : jsstring) (b : bool) :
  s <> [] -> starts_clean (rev s) ->
  last (split_from is_space b s) [SP] <> [].
Proof.
  revert b. induction s as [|c s IH]; intros b Hn Hc; [congruence|].
  destruct s as [|d s].
  - simpl in Hc. simpl. rewrite Hc. discriminate.
  - assert (Hc' : starts_clean (rev (d :: s))).
    { simpl in Hc. simpl. destruct (rev s ++ [d]) eqn:E; [|exact Hc].
      destruct (rev s); discriminate. }
    assert (Hd : d :: s <> []) by discriminate.
    remember (d :: s) as t eqn:Et.
    cbn [split_from]. destruct (is_space c).
    + pose proof (@split_from_not_nil is_space t true) as Hnn.
      pose proof (IH true Hd Hc') as Hl.
      destruct b; [exact Hl|].
      destruct (split_from is_space true t); [congruence|exact Hl].
    + pose proof (IH false Hd Hc') as Hl.
      pose proof (@split_from_not_nil is_space t false) as Hnn.
      destruct (split_from is_space false t) as [|f fs]; [congruence|].
      destruct fs; [discriminate|exact Hl].
Qed.

(** The fields of a tight, non-empty string are its words: no field is
    empty. *)
Lemma split_tight (s : jsstring) :
  tight s -> s <> [] -> split_ws s = words s.
Proof.
  intros [Hs He] Hn.
  destruct (split_ws_words s) as [HW [hd [tl E]]].
  assert (Hhd : hd = false).
  { destruct hd; [|reflexivity]. unfold split_ws in E.
    destruct s as [|c s]; [congruence|]. simpl in Hs. simpl in E. rewrite Hs in E.
    destruct (split_from is_space false s); discriminate. }
  assert (Htl : tl = false).
  { destruct tl; [|reflexivity].
    pose proof (@last_field_nonempty s false Hn He) as Hl.
    unfold split_ws in E. rewrite E in Hl. unfold padded, pad in Hl.
    rewrite app_assoc, last_last in Hl. congruence. }
  subst. rewrite E. unfold padded, pad. simpl. now rewrite app_nil_r.
Qed.

Lemma split_trim_words (p : jsstring) :
  trim p <> [] -> Forall is_word (split_ws (trim p)).
Proof.
  intros H. rewrite (split_tight (trim_is_tight p) H). apply words_are_words.
Qed.

Lemma split_trim_blank (p : jsstring) : trim p = [] -> split_ws (trim p) = [[]].
Proof. now intros ->. Qed.

(** ** Counting words *)

Lemma words_count_concat (W : list jsstring) :
  Forall is_word W -> (length W <= length (concat W))%nat.
Proof.
  induction 1 as [|w W [Hn _] _ IH]; simpl; [lia|].
  rewrite length_app. destruct w; [congruence|]. simpl. lia.
Qed.

Lemma concat_filter_nonempty (F : list jsstring) :
  concat (filter (fun f => negb (is_empty f)) F) = concat F.
Proof.
  induction F as [|f F IH]; simpl; [reflexivity|].
  destruct f; simpl; [exact IH|]. now rewrite IH.
Qed.

Lemma words_count (s : jsstring) : (length (words s) <= length s)%nat.
Proof.
  pose proof (words_count_concat (words_are_words s)) as H.
  unfold words in H at 2. rewrite concat_filter_nonempty in H.
  unfold split_ws in H. rewrite concat_split in H.
  pose proof (filter_length_le (fun c => negb (is_space c)) s). lia.
Qed.

Lemma trim_length (s : jsstring) : (length (trim s) <= length s)%nat.
Proof.
  destruct (trim_decompose s) as [pre [post [_ [_ E]]]].
  rewrite E at 2. rewrite !length_app. lia.
Qed.

Lemma split_trim_count (p : jsstring) :
  p <> [] -> (length (split_ws (trim p)) <= length p)%nat.
Proof.
  intros Hp. destruct (trim p) as [|c t] eqn:E.
  - simpl. destruct p; [congruence|simpl; lia].
  - assert (Hn : trim p <> []) by (rewrite E; discriminate).
    rewrite <- E. rewrite (split_tight (trim_is_tight p) Hn).
    pose proof (words_count (trim p)). pose proof (trim_length p). lia.
Qed.

(** ** What [chunkText] computes *)

Lemma is_empty_true {A} (l : list A) : is_empty l = true <-> l = [].
Proof. destruct l; simpl; split; congruence. Qed.

Lemma is_empty_false {A} (l : list A) : is_empty l = false <-> l <> [].
Proof. destruct l; simpl; split; congruence. Qed.

(** The text has one paragraph: the normalisation has already replaced
    every line feed by a space when the paragraphs are split. *)
Lemma paragraphs_single (text : jsstring) :
  words text <> [] -> paragraphsOf (cleanText text) = [join [SP] (words text)].
Proof.
  intros Hn. unfold paragraphsOf, split_nl.
  rewrite (@split_sep_free is_LF _ false (cleanText_no_LF text)).
  rewrite cleanText_words. simpl.
  rewrite (@trim_tight _ (@join_tight _ (words_are_words text))).
  pose proof (@join_nonempty _ (words_are_words text) Hn).
  destruct (join [SP] (words text)); [congruence|reflexivity].
Qed.

Lemma paragraphs_blank (text : jsstring) :
  words text = [] -> paragraphsOf (cleanText text) = [].
Proof.
  intros E. unfold paragraphsOf, split_nl.
  rewrite (@split_sep_free is_LF _ false (cleanText_no_LF text)).
  rewrite cleanText_words, E. reflexivity.
Qed.

Lemma window_loop_currentChunk (fuel : nat) (ws : list jsstring) (S O i : Z)
    (st st' : state) :
  window_loop fuel ws S O i st = Some st' ->
  st_currentChunk st' = st_currentChunk st.
Proof.
  revert i st. induction fuel as [|fuel IH]; intros i st E; simpl in E;
    [discriminate|].
  destruct (i <? len ws); [|now inversion E; subst].
  destruct (i + S >=? len ws).
  - inversion E; subst. apply pushChunk_currentChunk.
  - rewrite (IH _ _ E). apply pushChunk_currentChunk.
Qed.

(** [chunkText] in closed form: nothing for a blank text, one chunk holding
    the whole normalised text when it has at most [chunkSize] words, and
    the windows of the word list otherwise. *)
Lemma chunkText_closed_form (fuel : nat) (text : jsstring) (S O : Z) :
  chunkText fuel text S O
  = if is_empty (words text) then Some []
    else if len (words text) >? S
         then option_map st_chunks
                (window_loop fuel (words text) S O 0 initial_state)
         else Some [mkChunk (join [SP] (words text)) 0 0 None].
Proof.
  unfold chunkText.
  destruct (is_empty (words text)) eqn:EW.
  - apply is_empty_true in EW.
    assert (Ht : trim text = []) by now apply trim_nil_words.
    rewrite Ht. simpl. now rewrite orb_true_r.
  - apply is_empty_false in EW.
    assert (Ht : trim text <> []) by (intros H; now apply trim_nil_words in H).
    assert (Hx : text <> []) by (intros ->; now apply Ht).
    replace (is_empty text || is_empty (trim text)) with false.
    2:{ symmetry. apply orb_false_iff. split; now apply is_empty_false. }
    rewrite (@paragraphs_single text EW).
    pose proof (words_are_words text) as HW.
    pose proof (@join_nonempty _ HW EW) as HJ.
    cbn [for_paragraphs]. unfold paragraph_step.
    rewrite (@trim_tight _ (@join_tight _ HW)), (@split_join _ HW EW).
    destruct (len (words text) >? S) eqn:Hbig.
    + change (flush_pending initial_state) with initial_state.
      destruct (window_loop fuel (words text) S O 0 initial_state)
        as [st|] eqn:EL; [|reflexivity].
      pose proof (window_loop_currentChunk _ _ _ _ _ _ EL) as Hc.
      simpl in Hc. cbn [option_map]. rewrite Hc. reflexivity.
    + cbn [initial_state st_currentChunk st_currentWordCount st_chunks
             st_chunkIndex is_empty negb andb].
      rewrite andb_false_r. cbn [app is_empty join].
      change (join PARA_SEP [join [SP] (words text)]) with (join [SP] (words text)).
      rewrite (@pushChunk_words _ _ HW EW). reflexivity.
Qed.

(** ** Windows as list segments *)

Lemma window_nat (ws : list jsstring) (S O : Z) (j : nat) :
  0 <= O <= S ->
  window ws S O j
  = firstn (Z.to_nat S) (skipn (j * Z.to_nat (S - O)) ws).
Proof.
  intros H. unfold window, stride.
  rewrite slice_firstn_skipn by nia.
  f_equal. f_equal. rewrite Z2Nat.inj_mul by lia. now rewrite Nat2Z.id.
Qed.

Lemma window_full (ws : list jsstring) (S O : Z) (j : nat) :
  0 <= O <= S -> Z.of_nat j * stride S O + S <= len ws ->
  length (window ws S O j) = Z.to_nat S.
Proof.
  intros H Hj. rewrite window_nat by exact H.
  rewrite length_firstn, length_skipn. unfold len, stride in Hj. nia.
Qed.

(** The last [overlap] words of a full window are the first [overlap]
    words of the next one. *)
Lemma window_overlap (ws : list jsstring) (S O : Z) (j : nat) :
  0 <= O <= S -> Z.of_nat j * stride S O + S < len ws ->
  skipn (Z.to_nat (S - O)) (window ws S O j)
  = firstn (Z.to_nat O) (window ws S O (Datatypes.S j))
  /\ length (firstn (Z.to_nat O) (window ws S O (Datatypes.S j))) = Z.to_nat O.
Proof.
  intros H Hj. rewrite !window_nat by exact H.
  rewrite skipn_firstn_swap by lia. rewrite skipn_skipn.
  rewrite firstn_firstn.
  replace (Z.to_nat S - Z.to_nat (S - O))%nat with (Z.to_nat O) by lia.
  replace (Nat.min (Z.to_nat O) (Z.to_nat S)) with (Z.to_nat O) by lia.
  replace (Z.to_nat (S - O) + j * Z.to_nat (S - O))%nat
    with (Datatypes.S j * Z.to_nat (S - O))%nat by lia.
  split; [reflexivity|].
  rewrite length_firstn, length_skipn. unfold len, stride in Hj. nia.
Qed.

Lemma window_chunk_words (ws : list jsstring) (S O : Z) (j : nat) :
  Forall is_word ws -> words (join [SP] (window ws S O j)) = window ws S O j.
Proof. intros H. apply words_join. now apply window_words. Qed.

(** Dropping the [overlap] leading words of every window but the first
    and concatenating gives a prefix of the word list. *)
Lemma reconstruct_windows (ws : list jsstring) (S O first : Z) (m : nat) :
  0 <= O <= S -> Forall is_word ws ->
  reconstruct O (window_chunks ws S O first (Datatypes.S m))
  = firstn (m * Z.to_nat (S - O) + Z.to_nat S) ws.
Proof.
  intros H HW. unfold window_chunks.
  change (seq 0 (Datatypes.S m)) with (0%nat :: seq 1 m).
  cbn [map reconstruct content]. rewrite map_map. cbn [content].
  rewrite (window_chunk_words S O 0 HW).
  induction m as [|m IH].
  - simpl. rewrite app_nil_r. rewrite window_nat by exact H. reflexivity.
  - rewrite seq_S, map_app, concat_app, app_assoc, IH. cbn [map concat].
    rewrite app_nil_r, (window_chunk_words S O _ HW).
    rewrite window_nat by exact H.
    rewrite skipn_firstn_swap by lia. rewrite skipn_skipn.
    replace (Z.to_nat O + (1 + m) * Z.to_nat (S - O))%nat
      with (m * Z.to_nat (S - O) + Z.to_nat S)%nat by lia.
    rewrite firstn_skipn_glue. f_equal. lia.
Qed.

(** ** The chunker: termination *)

(** The window loop ends on every word list once the stride is positive. *)
Lemma window_loop_terminates (ws : list jsstring) (S O : Z) :
  0 <= O < S ->
  forall (fuel : nat) (i : Z) (st : state),
    (0 < fuel)%nat -> len ws - i < Z.of_nat fuel ->
    exists st', window_loop fuel ws S O i st = Some st'.
Proof.
  intros H fuel. induction fuel as [|fuel IH]; intros i st H0 Hf; [lia|].
  cbn [window_loop]. destruct (i <? len ws) eqn:E1; [|eauto].
  destruct (i + S >=? len ws) eqn:E2; [eauto|].
  apply Z.ltb_lt in E1. rewrite Z.geb_leb in E2. apply Z.leb_gt in E2.
  apply IH; lia.
Qed.

(** With [overlap = chunkSize] the loop index never moves: on a word list
    longer than one window the loop does not end, whatever the fuel. *)
Lemma window_loop_diverges (ws : list jsstring) (S : Z) (fuel : nat)
    (i : Z) (st : state) :
  0 <= i -> i + S < len ws -> 0 <= S -> window_loop fuel ws S S i st = None.
Proof.
  intros Hi Hn HS. revert st. induction fuel as [|fuel IH]; intros st;
    [reflexivity|].
  cbn [window_loop].
  replace (i <? len ws) with true by (symmetry; apply Z.ltb_lt; lia).
  replace (i + S >=? len ws) with false
    by (symmetry; rewrite Z.geb_leb; apply Z.leb_gt; lia).
  replace (i + (S - S)) with i by lia. apply IH.
Qed.

(** The windows [chunkText] emits for a text of more than [chunkSize]
    words. *)
Lemma chunkText_windows (text : jsstring) (S O : Z) :
  0 <= O < S -> len (words text) > S ->
  exists m : nat,
    (forall j, (j < m)%nat -> Z.of_nat j * stride S O + S < len (words text))
    /\ len (words text) <= Z.of_nat m * stride S O + S
    /\ forall fuel, (length text < fuel)%nat ->
         chunkText fuel text S O
         = Some (window_chunks (words text) S O 0 (Datatypes.S m)).
Proof.
  intros H Hbig.
  pose proof (words_are_words text) as HW.
  pose proof (words_count text) as Hc.
  assert (H0 : Z.of_nat 0 * stride S O < len (words text)) by (simpl; lia).
  destruct (@window_loop_from (words text) S O H HW
              (Datatypes.S (length text)) 0%nat initial_state H0)
    as [m [Hm1 [Hm2 _]]]; [unfold len; simpl Z.of_nat at 1; lia|].
  exists m. split; [intros j Hj; apply Hm1; lia|]. split; [exact Hm2|].
  intros fuel Hf. rewrite chunkText_closed_form.
  replace (is_empty (words text)) with false
    by (symmetry; apply is_empty_false; intros E; rewrite E in Hbig;
        unfold len in Hbig; cbn [length] in Hbig; lia).
  replace (len (words text) >? S) with true
    by (symmetry; apply Z.gtb_lt; lia).
  destruct (@window_loop_from (words text) S O H HW fuel 0%nat initial_state H0)
    as [m' [Hm1' [Hm2' Hm3']]]; [unfold len in *; simpl Z.of_nat at 1; lia|].
  assert (m' = m).
  { destruct (Nat.lt_trichotomy m' m) as [Hlt|[Heq|Hgt]]; [|exact Heq|].
    - specialize (Hm1 m' ltac:(lia)). simpl in Hm2'. lia.
    - specialize (Hm1' m ltac:(lia)). simpl in Hm2. lia. }
  subst m'. change (Z.of_nat 0 * stride S O) with 0 in Hm3'.
  rewrite Hm3'. reflexivity.
Qed.

(** ** The chunker: theorems *)

Lemma flush_pending_chunks (st : state) :
  st_chunks (flush_pending st) = st_chunks st ++ pending_chunk st
  /\ st_currentChunk (flush_pending st) = []
  /\ st_chunkIndex (flush_pending st)
     = st_chunkIndex st + len (pending_chunk st).
Proof.
  unfold flush_pending, pending_chunk, pushChunk.
  destruct (st_currentChunk st) as [|p ps] eqn:E; cbn [is_empty orb].
  - rewrite app_nil_r, E. repeat split. unfold len. simpl. lia.
  - destruct (is_empty (trim (join PARA_SEP (p :: ps)))); cbn [st_chunks st_currentChunk st_chunkIndex].
    + rewrite app_nil_r. repeat split. unfold len. simpl. lia.
    + repeat split.
Qed.

(** The body of the paragraph loop on an oversized paragraph.  A
    paragraph of more than [chunkSize] words, met in any state of
    the paragraph loop with [0 <= overlap < chunkSize]: the pending buffer
    is emitted first as a chunk of its own and the buffer is left empty;
    then the windows [0 .. m] of the paragraph's words follow, numbered
    consecutively, window [j] starting at word [j * (chunkSize - overlap)].
    Every window before the last holds exactly [chunkSize] words and does
    not reach the end of the paragraph, its last [overlap] words are the
    first [overlap] words of the next window, and the last window [m] is
    the first one that reaches the end of the paragraph (it may be
    shorter).  Each emitted chunk holds the words of its window. *)
Theorem oversized_paragraph_windows (fuel : nat) (chunkSize overlap : Z)
    (st : state) (paragraph : jsstring) :
  0 <= overlap < chunkSize ->
  len (split_ws (trim paragraph)) > chunkSize ->
  (length paragraph < fuel)%nat ->
  let ws := split_ws (trim paragraph) in
  let st0 := flush_pending st in
  exists (m : nat) (st' : state),
    paragraph_step fuel chunkSize overlap st paragraph = Some st'
    /\ st_chunks st0 = st_chunks st ++ pending_chunk st
    /\ st_chunks st'
       = st_chunks st0
         ++ window_chunks ws chunkSize overlap (st_chunkIndex st0) (S m)
    /\ st_currentChunk st' = []
    /\ st_chunkIndex st' = st_chunkIndex st0 + Z.of_nat (S m)
    /\ (forall j, (j <= m)%nat ->
          window ws chunkSize overlap j <> []
          /\ words (join [SP] (window ws chunkSize overlap j))
             = window ws chunkSize overlap j)
    /\ (forall j, (j < m)%nat ->
          length (window ws chunkSize overlap j) = Z.to_nat chunkSize
          /\ Z.of_nat j * (chunkSize - overlap) + chunkSize < len ws
          /\ skipn (Z.to_nat (chunkSize - overlap)) (window ws chunkSize overlap j)
             = firstn (Z.to_nat overlap) (window ws chunkSize overlap (S j))
          /\ length (firstn (Z.to_nat overlap) (window ws chunkSize overlap (S j)))
             = Z.to_nat overlap)
    /\ len ws <= Z.of_nat m * (chunkSize - overlap) + chunkSize.
Proof.
  intros HS Hbig Hfuel ws st0.
  assert (Htrim : trim paragraph <> []).
  { intros E. unfold ws in *. rewrite E in Hbig. unfold len in Hbig.
    simpl in Hbig. lia. }
  assert (HW : Forall is_word ws) by (apply split_trim_words; exact Htrim).
  assert (Hp : paragraph <> []) by (intros ->; now apply Htrim).
  pose proof (@split_trim_count paragraph Hp) as Hcount.
  assert (H0 : Z.of_nat 0 * stride chunkSize overlap < len ws)
    by (fold ws in Hbig; simpl; lia).
  destruct (@window_loop_from ws chunkSize overlap HS HW fuel 0%nat st0 H0)
    as [m [Hm1 [Hm2 Hm3]]].
  { fold ws in Hcount. unfold len. simpl Z.of_nat at 1. lia. }
  change (Z.of_nat 0 * stride chunkSize overlap) with 0 in Hm3.
  destruct (flush_pending_chunks st) as [Hf1 [Hf2 Hf3]].
  eexists m, _. split.
  { unfold paragraph_step. fold ws.
    replace (len ws >? chunkSize) with true
      by (symmetry; apply Z.gtb_lt; fold ws in Hbig; lia).
    fold st0. exact Hm3. }
  cbn [st_chunks st_currentChunk st_chunkIndex].
  split; [exact Hf1|]. split; [reflexivity|]. split; [exact Hf2|].
  split; [reflexivity|]. split; [|split].
  - intros j Hj. split; [|now apply window_chunk_words].
    apply window_nonempty; [exact HS|].
    destruct (Nat.eq_dec j 0) as [->|Hne]; [exact H0|].
    specialize (Hm1 (j - 1)%nat ltac:(lia)). unfold stride in *. nia.
  - intros j Hj. specialize (Hm1 j ltac:(lia)).
    split; [apply window_full; lia|]. split; [exact Hm1|].
    apply window_overlap; [lia|exact Hm1].
  - exact Hm2.
Qed.

Lemma oversized_paragraph_windows_witness :
  exists (m : nat) (st' : state),
    paragraph_step 10 2 1 initial_state (str "a b c d e") = Some st'
    /\ st_chunks st' = window_chunks (str "a" :: str "b" :: str "c" :: str "d" :: [str "e"]) 2 1 0 (S m)
    /\ (m = 3)%nat.
Proof.
  destruct (@oversized_paragraph_windows 10 2 1 initial_state (str "a b c d e"))
    as [m [st' [H1 [H2 [H3 [H4 [H5 [H6 [H7 H8]]]]]]]]].
  - lia.
  - reflexivity.
  - simpl. lia.
  - exists m, st'. split; [exact H1|]. split; [exact H3|].
    vm_compute in H1. injection H1 as H1. subst st'. simpl in H5.
    lia.
Defined.

Lemma chunkText_returns (text : jsstring) (chunkSize overlap : Z) :
  0 <= overlap < chunkSize ->
  exists chunks, forall fuel, (length text < fuel)%nat ->
    chunkText fuel text chunkSize overlap = Some chunks.
Proof.
  intros HS. destruct (is_empty (words text)) eqn:E1.
  - exists []. intros fuel _. now rewrite chunkText_closed_form, E1.
  - destruct (len (words text) >? chunkSize) eqn:E2.
    + apply Z.gtb_lt in E2.
      destruct (@chunkText_windows text chunkSize overlap HS ltac:(lia))
        as [m [_ [_ Hm]]]. eauto.
    + eexists. intros fuel _. now rewrite chunkText_closed_form, E1, E2.
Qed.

Lemma dense_nth (cs : list Chunk) (i : nat) (c : Chunk) :
  dense cs -> nth_error cs i = Some c -> chunkIndex c = Z.of_nat i.
Proof.
  intros Hd Hi. apply (map_nth_error chunkIndex) in Hi. rewrite Hd in Hi.
  rewrite nth_error_map, nth_error_seq in Hi.
  destruct (i <? length cs)%nat; simpl in Hi; [|discriminate].
  injection Hi. lia.
Qed.

(** C7.  For [0 <= overlap < chunkSize], [chunkText] returns, and the
    chunk at position [i] of the result has [chunkIndex] [i]: the indices
    are [0, 1, ..., n-1] in emission order, without a gap, also where
    [pushChunk] dropped an empty content. *)
Theorem chunkIndex_dense (text : jsstring) (chunkSize overlap : Z) :
  0 <= overlap < chunkSize ->
  exists chunks,
    (forall fuel, (length text < fuel)%nat ->
       chunkText fuel text chunkSize overlap = Some chunks)
    /\ map chunkIndex chunks = map Z.of_nat (seq 0 (length chunks))
    /\ (forall i c, nth_error chunks i = Some c -> chunkIndex c = Z.of_nat i).
Proof.
  intros HS. destruct (chunkText_returns text HS) as [chunks Hc].
  exists chunks. split; [exact Hc|].
  pose proof (chunkText_dense _ _ _ _ (Hc (S (length text)) (Nat.lt_succ_diag_r _)))
    as Hd.
  split; [exact Hd|]. intros i c. now apply dense_nth.
Qed.

Lemma chunkIndex_dense_witness :
  exists chunks,
    (forall fuel, (length (str "a b c") < fuel)%nat ->
       chunkText fuel (str "a b c") 2 1 = Some chunks)
    /\ map chunkIndex chunks = map Z.of_nat (seq 0 (length chunks))
    /\ (forall i c, nth_error chunks i = Some c -> chunkIndex c = Z.of_nat i).
Proof. apply (@chunkIndex_dense (str "a b c") 2 1). lia. Defined.

(** C8.  For [0 <= overlap < chunkSize], [chunkText] returns, and the
    words of the first chunk followed by the words of every later chunk
    without its first [overlap] words are the words of the normalised
    text, which are the words of the text: in order, none lost, none
    twice. *)
Theorem chunks_reconstruct_text (text : jsstring) (chunkSize overlap : Z) :
  0 <= overlap < chunkSize ->
  exists chunks,
    (forall fuel, (length text < fuel)%nat ->
       chunkText fuel text chunkSize overlap = Some chunks)
    /\ reconstruct overlap chunks = words (cleanText text)
    /\ words (cleanText text) = words text.
Proof.
  intros HS.
  pose proof (words_are_words text) as HW.
  assert (Hclean : words (cleanText text) = words text)
    by (rewrite cleanText_words; now apply words_join).
  rewrite Hclean.
  destruct (is_empty (words text)) eqn:E1.
  - exists []. split; [|split; [|reflexivity]].
    + intros fuel _. now rewrite chunkText_closed_form, E1.
    + apply is_empty_true in E1. now rewrite E1.
  - destruct (len (words text) >? chunkSize) eqn:E2.
    + apply Z.gtb_lt in E2.
      destruct (@chunkText_windows text chunkSize overlap HS ltac:(lia))
        as [m [_ [Hm2 Hm]]].
      eexists. split; [exact Hm|]. split; [|reflexivity].
      rewrite reconstruct_windows by (try exact HW; lia).
      apply firstn_all2. unfold len, stride in Hm2. nia.
    + eexists. split; [|split; [|reflexivity]].
      * intros fuel _. now rewrite chunkText_closed_form, E1, E2.
      * cbn [reconstruct content map concat]. rewrite app_nil_r.
        now apply words_join.
Qed.

Lemma chunks_reconstruct_text_witness :
  exists chunks,
    (forall fuel, (length (str "a b  c d e") < fuel)%nat ->
       chunkText fuel (str "a b  c d e") 3 1 = Some chunks)
    /\ reconstruct 1 chunks = words (cleanText (str "a b  c d e"))
    /\ words (cleanText (str "a b  c d e")) = words (str "a b  c d e").
Proof. apply (@chunks_reconstruct_text (str "a b  c d e") 3 1). lia. Defined.

(** C9.  For [0 <= overlap < chunkSize] the window loop ends, from every
    start index and on every word list, within as many iterations as
    there are words left, and [chunkText] returns on every text: the
    result is the same for every fuel above the length of the text. *)
Theorem chunkText_terminates (text : jsstring) (chunkSize overlap : Z) :
  0 <= overlap < chunkSize ->
  (forall (ws : list jsstring) (i : Z) (st : state) (fuel : nat),
      (0 < fuel)%nat -> len ws - i < Z.of_nat fuel ->
      exists st', window_loop fuel ws chunkSize overlap i st = Some st')
  /\ exists chunks,
       forall fuel, (length text < fuel)%nat ->
         chunkText fuel text chunkSize overlap = Some chunks.
Proof.
  intros HS. split.
  - intros ws i st fuel. now apply window_loop_terminates.
  - now apply chunkText_returns.
Qed.

Lemma chunkText_terminates_witness :
  (forall (ws : list jsstring) (i : Z) (st : state) (fuel : nat),
      (0 < fuel)%nat -> len ws - i < Z.of_nat fuel ->
      exists st', window_loop fuel ws 3 2 i st = Some st')
  /\ exists chunks,
       forall fuel, (length (str "a b c d e f g") < fuel)%nat ->
         chunkText fuel (str "a b c d e f g") 3 2 = Some chunks.
Proof. apply (@chunkText_terminates (str "a b c d e f g") 3 2). lia. Defined.

(** ** Binary64 arithmetic: the sign of a difference *)

Lemma digits2_bounds (m : positive) :
  2 ^ (Z.pos (digits2_pos m) - 1) <= Z.pos m < 2 ^ Z.pos (digits2_pos m).
Proof.
  induction m as [m IH|m IH|]; cbn [digits2_pos].
  - rewrite Pos2Z.inj_succ.
    replace (Z.succ (Z.pos (digits2_pos m)) - 1) with (Z.succ (Z.pos (digits2_pos m) - 1)) by lia.
    rewrite !Z.pow_succ_r by lia. lia.
  - rewrite Pos2Z.inj_succ.
    replace (Z.succ (Z.pos (digits2_pos m)) - 1) with (Z.succ (Z.pos (digits2_pos m) - 1)) by lia.
    rewrite !Z.pow_succ_r by lia. lia.
  - simpl. lia.
Qed.

(** Shifting a mantissa right by fewer places than it has digits leaves a
    positive mantissa. *)
Lemma iter_shr_1_pos (p : positive) :
  forall (mrs : shr_record) (q : positive),
    shr_m mrs = Z.pos q -> Z.pos p < Z.pos (digits2_pos q) ->
    exists q', shr_m (iter_pos shr_1 p mrs) = Z.pos q'
               /\ Z.pos (digits2_pos q') = Z.pos (digits2_pos q) - Z.pos p.
Proof.
  assert (Hone : forall mrs q, shr_m mrs = Z.pos q -> 1 < Z.pos (digits2_pos q) ->
            exists q', shr_m (shr_1 mrs) = Z.pos q'
                       /\ Z.pos (digits2_pos q') = Z.pos (digits2_pos q) - 1).
  { intros [m r s] q Hm Hd. simpl in Hm. subst m.
    destruct q as [q|q|]; cbn [digits2_pos] in *.
    - exists q. split; [reflexivity|]. rewrite Pos2Z.inj_succ. lia.
    - exists q. split; [reflexivity|]. rewrite Pos2Z.inj_succ. lia.
    - lia. }
  induction p as [p IH|p IH|]; intros mrs q Hm Hd; cbn [iter_pos].
  - destruct (Hone mrs q Hm ltac:(lia)) as [q1 [H1 D1]].
    destruct (IH _ q1 H1 ltac:(lia)) as [q2 [H2 D2]].
    destruct (IH _ q2 H2 ltac:(lia)) as [q3 [H3 D3]].
    exists q3. split; [exact H3|]. lia.
  - destruct (IH _ q Hm ltac:(lia)) as [q2 [H2 D2]].
    destruct (IH _ q2 H2 ltac:(lia)) as [q3 [H3 D3]].
    exists q3. split; [exact H3|]. lia.
  - destruct (Hone mrs q Hm ltac:(lia)) as [q1 [H1 D1]].
    exists q1. split; [exact H1|]. lia.
Qed.

Lemma emin_value : SpecFloat.emin prec emax = -1074.
Proof. reflexivity. Qed.

Lemma shr_fexp_pos (q : positive) (e : Z) (l : location) :
  -1074 <= e ->
  exists q' e', shr_fexp prec emax (Z.pos q) e l
                = (Build_shr_record (Z.pos q') (shr_r (fst (shr_fexp prec emax (Z.pos q) e l)))
                                    (shr_s (fst (shr_fexp prec emax (Z.pos q) e l))), e')
                /\ -1074 <= e'.
Proof.
  intros He. unfold shr_fexp, shr.
  set (mrs := shr_record_of_loc (Z.pos q) l).
  assert (Hm : shr_m mrs = Z.pos q) by (unfold mrs; destruct l as [|[| |]]; reflexivity).
  set (n := fexp prec emax (Zdigits2 (Z.pos q) + e) - e).
  assert (Hn : n <= Z.max 0 (Z.pos (digits2_pos q) - 53)).
  { unfold n, fexp. rewrite emin_value. change prec with 53. cbn [Zdigits2]. lia. }
  destruct n as [|p|p] eqn:En.
  - exists q, e. cbn [fst]. split; [|exact He].
    destruct mrs as [m r s]. simpl in Hm. subst m. reflexivity.
  - destruct (@iter_shr_1_pos p mrs q Hm ltac:(lia)) as [q' [Hq' _]].
    exists q', (e + Z.pos p). cbn [fst]. split; [|lia].
    destruct (iter_pos shr_1 p mrs) as [m r s]. simpl in Hq'. subst m. reflexivity.
  - exists q, e. cbn [fst]. split; [|exact He].
    destruct mrs as [m r s]. simpl in Hm. subst m. reflexivity.
Qed.

Lemma round_nearest_even_pos (q : positive) (l : location) :
  exists q', round_nearest_even (Z.pos q) l = Z.pos q'.
Proof.
  destruct l as [|[| |]]; cbn [round_nearest_even]; eauto.
  - destruct (Z.even (Z.pos q)); eauto. exists (q + 1)%positive. reflexivity.
  - exists (q + 1)%positive. reflexivity.
Qed.

(** Rounding a positive mantissa whose exponent is not below the least
    one gives a number of the same sign: never a zero, never a NaN. *)
Lemma binary_round_aux_sign (s : bool) (q : positive) (e : Z) (l : location) :
  -1074 <= e ->
  sf_sign (binary_round_aux prec emax s (Z.pos q) e l) = if s then -1 else 1.
Proof.
  intros He. unfold binary_round_aux.
  destruct (shr_fexp_pos q l He) as [q1 [e1 [E1 He1]]].
  rewrite E1. cbn [shr_m].
  set (l1 := loc_of_shr_record _).
  destruct (round_nearest_even_pos q1 l1) as [q2 E2]. rewrite E2.
  destruct (shr_fexp_pos q2 loc_Exact He1) as [q3 [e3 [E3 He3]]].
  rewrite E3. cbn [shr_m].
  destruct (e3 <=? emax - prec); reflexivity.
Qed.

Lemma binary_round_sign (s : bool) (q : positive) (e : Z) :
  -1074 <= e ->
  sf_sign (binary_round prec emax s q e) = if s then -1 else 1.
Proof.
  intros He. unfold binary_round, shl_align.
  set (t := fexp prec emax (Z.pos (digits2_pos q) + e)).
  assert (Ht : -1074 <= t) by (unfold t, fexp; rewrite emin_value; lia).
  destruct (t - e); now apply binary_round_aux_sign.
Qed.

Lemma binary_normalize_sign (d e : Z) :
  -1074 <= e -> sf_sign (binary_normalize prec emax d e false) = Z.sgn d.
Proof.
  intros He. destruct d; cbn [binary_normalize Z.sgn].
  - reflexivity.
  - now apply (binary_round_sign false).
  - now apply (binary_round_sign true).
Qed.

(** ** The order of positive binary64 numbers *)

Lemma sf_compare_key (a b : spec_float) :
  sf_positive a -> sf_positive b ->
  match SFcompare a b with
  | Some Lt => key_lt (sf_key a) (sf_key b)
  | Some Gt => key_lt (sf_key b) (sf_key a)
  | Some Eq => a = b
  | None => False
  end.
Proof.
  intros [_ Ha] [_ Hb].
  destruct a as [sa|[|]| |[|] ma ea]; try contradiction;
  destruct b as [sb|[|]| |[|] mb eb]; try contradiction;
    cbn [SFcompare sf_key key_lt]; try lia; try reflexivity.
  destruct (Z.compare_spec ea eb) as [E|E|E].
  - subst eb. change (Pos.compare_cont Eq ma mb) with (Pos.compare ma mb).
    destruct (Pos.compare_spec ma mb) as [E'|E'|E'].
    + now subst.
    + right. split; [reflexivity|]. right. split; [reflexivity|]. lia.
    + right. split; [reflexivity|]. right. split; [reflexivity|]. lia.
  - right. split; [reflexivity|]. now left.
  - right. split; [reflexivity|]. now left.
Qed.

Lemma shl_align_value (m : positive) (e ez : Z) :
  ez <= e ->
  Z.pos (fst (shl_align m e ez)) = Z.pos m * 2 ^ (e - ez).
Proof.
  intros H. unfold shl_align.
  destruct (ez - e) as [|p|p] eqn:E; cbn [fst].
  - replace (e - ez) with 0 by lia. simpl. lia.
  - lia.
  - replace (e - ez) with (Z.pos p) by lia.
    change (Pos.iter xO m p) with (shift_pos p m).
    rewrite shift_pos_correct, Zpower_pos_nat, Zpower_nat_Z, positive_nat_Z. lia.
Qed.

Lemma bounded_digits (m : positive) (e : Z) :
  bounded prec emax m e = true ->
  -1074 <= e /\ Z.pos (digits2_pos m) <= 53
  /\ (-1074 < e -> Z.pos (digits2_pos m) = 53).
Proof.
  unfold bounded, canonical_mantissa, fexp. rewrite emin_value. change prec with 53.
  intros H. apply andb_true_iff in H. destruct H as [H _].
  apply Z.eqb_eq in H. lia.
Qed.

(** The difference of the aligned mantissas of two positive finite numbers
    has the sign of their comparison. *)
Lemma aligned_difference (ma mb : positive) (ea eb : Z) :
  bounded prec emax ma ea = true -> bounded prec emax mb eb = true ->
  let ez := Z.min eb ea in
  let d := Z.pos (fst (shl_align mb eb ez)) - Z.pos (fst (shl_align ma ea ez)) in
  (key_lt (0, ea, Z.pos ma) (0, eb, Z.pos mb) -> 0 < d)
  /\ (key_lt (0, eb, Z.pos mb) (0, ea, Z.pos ma) -> d < 0).
Proof.
  intros Ha Hb ez d. unfold d.
  rewrite !shl_align_value by (unfold ez; lia).
  destruct (bounded_digits _ _ Ha) as [Ha1 [Ha2 Ha3]].
  destruct (bounded_digits _ _ Hb) as [Hb1 [Hb2 Hb3]].
  pose proof (digits2_bounds ma) as Da. pose proof (digits2_bounds mb) as Db.
  assert (Hpow : forall x, 0 < x -> 2 <= 2 ^ x).
  { intros x Hx. replace x with (Z.succ (x - 1)) by lia.
    rewrite Z.pow_succ_r by lia. pose proof (Z.pow_pos_nonneg 2 (x - 1)). lia. }
  assert (Hlarge : forall m m' e e', -1074 <= e -> e < e' ->
            Z.pos (digits2_pos m) <= 53 -> Z.pos (digits2_pos m') = 53 ->
            Z.pos m * 2 ^ 0 < Z.pos m' * 2 ^ (e' - e)).
  { intros m m' e e' He Hlt Hd Hd'.
    pose proof (digits2_bounds m) as D. pose proof (digits2_bounds m') as D'.
    rewrite Hd' in D'. change (53 - 1) with 52 in D'.
    assert (Z.pos m < 2 ^ 53).
    { destruct D as [_ D]. eapply Z.lt_le_trans; [exact D|].
      apply Z.pow_le_mono_r; lia. }
    pose proof (Hpow (e' - e) ltac:(lia)).
    change (2 ^ 53) with (2 * 2 ^ 52) in *. nia. }
  unfold key_lt, ez. split; intros [H|[_ [H|[H1 H2]]]]; try lia.
  - rewrite Z.min_r by lia. replace (ea - ea) with 0 by lia.
    pose proof (@Hlarge ma mb ea eb Ha1 H Ha2 (Hb3 ltac:(lia))). lia.
  - rewrite <- H1, Z.min_l by lia. replace (ea - ea) with 0 by lia. lia.
  - rewrite Z.min_l by lia. replace (eb - eb) with 0 by lia.
    pose proof (@Hlarge mb ma eb ea Hb1 H Hb2 (Ha3 ltac:(lia))). lia.
  - rewrite <- H1, Z.min_l by lia. replace (eb - eb) with 0 by lia. lia.
Qed.

(** The sign of [b - a] for two different positive numbers. *)
Lemma sf_sub_sign (a b : spec_float) :
  sf_positive a -> sf_positive b ->
  (key_lt (sf_key a) (sf_key b) -> sf_sign (SF64sub b a) = 1)
  /\ (key_lt (sf_key b) (sf_key a) -> sf_sign (SF64sub b a) = -1).
Proof.
  intros [Va Ha] [Vb Hb].
  destruct a as [sa|[|]| |[|] ma ea]; try contradiction;
  destruct b as [sb|[|]| |[|] mb eb]; try contradiction;
    cbn [sf_key key_lt]; unfold SF64sub; cbn [SFsub sf_sign negb];
    try (split; intros; first [reflexivity | lia]).
  cbn [valid_binary] in Va, Vb. cbn [cond_Zopp].
  destruct (bounded_digits _ _ Va) as [Ha1 _].
  destruct (bounded_digits _ _ Vb) as [Hb1 _].
  rewrite binary_normalize_sign by lia.
  destruct (aligned_difference _ _ _ _ Va Vb) as [H1 H2].
  split; intros H.
  - specialize (H1 H). now apply Z.sgn_pos.
  - specialize (H2 H). now apply Z.sgn_neg.
Qed.

Lemma Prim2SF_zero : Prim2SF 0%float = S754_zero false.
Proof. reflexivity. Qed.

Lemma positive_sf (x : float) : positive_score x -> sf_positive (Prim2SF x).
Proof.
  unfold positive_score. rewrite ltb_spec, Prim2SF_zero. intros H.
  split; [apply Prim2SF_valid|].
  destruct (Prim2SF x) as [s|[|]| |[|] m e]; cbn in H; try discriminate; exact I.
Qed.

Lemma float_sign_sf (x : float) : float_sign x = sf_sign (Prim2SF x).
Proof.
  unfold float_sign. rewrite !ltb_spec, Prim2SF_zero.
  destruct (Prim2SF x) as [s|[|]| |[|] m e]; reflexivity.
Qed.

Lemma key_lt_irrefl (k : Z * Z * Z) : ~ key_lt k k.
Proof. destruct k as [[a b] c]. unfold key_lt. lia. Qed.

Lemma key_lt_trans (a b c : Z * Z * Z) : key_lt a b -> key_lt b c -> key_lt a c.
Proof.
  destruct a as [[a1 a2] a3], b as [[b1 b2] b3], c as [[c1 c2] c3].
  unfold key_lt. lia.
Qed.

Lemma key_lt_asym (a b : Z * Z * Z) : key_lt a b -> ~ key_lt b a.
Proof. intros H H'. exact (@key_lt_irrefl a (@key_lt_trans a b a H H')). Qed.

Lemma ltb_key (x y : float) :
  positive_score x -> positive_score y ->
  ((x <? y)%float = true <-> key_lt (score_key x) (score_key y)).
Proof.
  intros Hx Hy. rewrite ltb_spec. unfold SFltb, score_key.
  pose proof (sf_compare_key (positive_sf Hx) (positive_sf Hy)) as H.
  destruct (SFcompare (Prim2SF x) (Prim2SF y)) as [[| |]|]; try contradiction.
  - rewrite H. split; [discriminate|]. intros K. now apply key_lt_irrefl in K.
  - tauto.
  - split; [discriminate|]. intros K. now apply key_lt_asym in K.
Qed.

Lemma eqb_key (x y : float) :
  positive_score x -> positive_score y ->
  ((x =? y)%float = true <-> score_key x = score_key y).
Proof.
  intros Hx Hy. rewrite eqb_spec. unfold SFeqb, score_key.
  pose proof (sf_compare_key (positive_sf Hx) (positive_sf Hy)) as H.
  destruct (SFcompare (Prim2SF x) (Prim2SF y)) as [[| |]|]; try contradiction.
  - rewrite H. tauto.
  - split; [discriminate|]. intros K. rewrite K in H. now apply key_lt_irrefl in H.
  - split; [discriminate|]. intros K. rewrite K in H. now apply key_lt_irrefl in H.
Qed.

Lemma key_trichotomy (x y : float) :
  positive_score x -> positive_score y ->
  key_lt (score_key x) (score_key y) \/ score_key x = score_key y
  \/ key_lt (score_key y) (score_key x).
Proof.
  intros Hx Hy. unfold score_key.
  pose proof (sf_compare_key (positive_sf Hx) (positive_sf Hy)) as H.
  destruct (SFcompare (Prim2SF x) (Prim2SF y)) as [[| |]|]; try contradiction;
    [right; left; now rewrite H|now left|now right; right].
Qed.

(** The sign of the difference of two different positive scores tells
    which one is larger. *)
Lemma sub_sign (x y : float) :
  positive_score x -> positive_score y ->
  (key_lt (score_key x) (score_key y) -> float_sign (y - x)%float = 1)
  /\ (key_lt (score_key y) (score_key x) -> float_sign (y - x)%float = -1).
Proof.
  intros Hx Hy. rewrite float_sign_sf, sub_spec.
  apply sf_sub_sign; now apply positive_sf.
Qed.

(** A score that is at most zero is not positive. *)
Lemma nonpositive_dropped (x : float) :
  (x <=? 0)%float = true -> (0 <? x)%float = false.
Proof.
  rewrite leb_spec, ltb_spec, Prim2SF_zero.
  destruct (Prim2SF x) as [s|[|]| |[|] m e]; cbn; congruence.
Qed.

(** ** The comparator orders the positive scores *)

Lemma ranks_before_key (a b : ScoredChunk) :
  positive_score (score a) -> positive_score (score b) ->
  (ranks_before a b <->
   key_lt (score_key (score b)) (score_key (score a))
   \/ (score_key (score a) = score_key (score b)
       /\ (matchedWords b < matchedWords a
           \/ (matchedWords a = matchedWords b
               /\ s_chunkIndex a <= s_chunkIndex b)))).
Proof.
  intros Ha Hb. unfold ranks_before.
  now rewrite (ltb_key Hb Ha), (eqb_key Ha Hb).
Qed.

Lemma ranks_before_trans (a b c : ScoredChunk) :
  positive_score (score a) -> positive_score (score b) -> positive_score (score c) ->
  ranks_before a b -> ranks_before b c -> ranks_before a c.
Proof.
  intros Ha Hb Hc.
  rewrite (@ranks_before_key a b Ha Hb), (@ranks_before_key b c Hb Hc), (@ranks_before_key a c Ha Hc).
  intros [H1|[E1 H1]] [H2|[E2 H2]].
  - left. eapply key_lt_trans; eassumption.
  - left. now rewrite <- E2.
  - left. now rewrite E1.
  - right. split; [congruence|lia].
Qed.

Lemma compareChunks_ranks (a b : ScoredChunk) :
  positive_score (score a) -> positive_score (score b) ->
  ((compareChunks a b >? 0) = false -> ranks_before a b)
  /\ ((compareChunks a b >? 0) = true -> ranks_before b a).
Proof.
  intros Ha Hb.
  rewrite (@ranks_before_key a b Ha Hb), (@ranks_before_key b a Hb Ha).
  unfold compareChunks.
  destruct (sub_sign Ha Hb) as [S1 S2].
  destruct (score b =? score a)%float eqn:E; cbn [negb].
  - apply (eqb_key Hb Ha) in E.
    destruct (matchedWords b =? matchedWords a) eqn:E2; cbn [negb].
    + apply Z.eqb_eq in E2. split; intros H.
      * right. split; [congruence|]. right. split; [lia|].
        rewrite Z.gtb_ltb in H. apply Z.ltb_ge in H.
        destruct (Z.sgn_spec (s_chunkIndex a - s_chunkIndex b)) as [[? ?]|[[? ?]|[? ?]]]; lia.
      * right. split; [congruence|]. right. split; [lia|].
        apply Z.gtb_lt in H.
        destruct (Z.sgn_spec (s_chunkIndex a - s_chunkIndex b)) as [[? ?]|[[? ?]|[? ?]]]; lia.
    + apply Z.eqb_neq in E2. split; intros H.
      * right. split; [congruence|]. left.
        rewrite Z.gtb_ltb in H. apply Z.ltb_ge in H.
        destruct (Z.sgn_spec (matchedWords b - matchedWords a)) as [[? ?]|[[? ?]|[? ?]]]; lia.
      * right. split; [congruence|]. left.
        apply Z.gtb_lt in H.
        destruct (Z.sgn_spec (matchedWords b - matchedWords a)) as [[? ?]|[[? ?]|[? ?]]]; lia.
  - assert (Hne : score_key (score b) <> score_key (score a)).
    { intros K. apply (eqb_key Hb Ha) in K. congruence. }
    destruct (key_trichotomy Ha Hb) as [K|[K|K]]; [|congruence|].
    + rewrite (S1 K). split; intros H; [discriminate|now left].
    + rewrite (S2 K). split; intros H; [now left|discriminate].
Qed.

(** ** Sorting by insertion *)

Section Sorting.
Variable A : Type.
Variable cmp : A -> A -> Z.
Variable P : A -> Prop.
Variable R : A -> A -> Prop.
Hypothesis cmp_total : forall x y, P x -> P y ->
  ((cmp x y >? 0) = false -> R x y) /\ ((cmp x y >? 0) = true -> R y x).
Hypothesis R_trans : forall x y z, P x -> P y -> P z -> R x y -> R y z -> R x z.

Lemma insert_perm (x : A) (l : list A) : Permutation (insert cmp x l) (x :: l).
Proof.
  induction l as [|y l IH]; simpl; [reflexivity|].
  destruct (cmp x y >? 0); [|reflexivity].
  rewrite IH. apply perm_swap.
Qed.

Lemma sort_perm (l : list A) : Permutation (sort cmp l) l.
Proof.
  induction l as [|x l IH]; simpl; [reflexivity|].
  rewrite insert_perm. now constructor.
Qed.

Lemma insert_sorted (x : A) (l : list A) :
  P x -> Forall P l -> StronglySorted R l -> StronglySorted R (insert cmp x l).
Proof.
  intros Hx Hl Hs. induction Hs as [|y l Hs IH Hy]; simpl.
  - constructor; constructor.
  - inversion Hl as [|? ? Py Pl]; subst.
    destruct (cmp_total Hx Py) as [T1 T2].
    destruct (cmp x y >? 0) eqn:E.
    + constructor; [now apply IH|].
      eapply Permutation_Forall; [symmetry; apply insert_perm|].
      constructor; [now apply T2|exact Hy].
    + constructor; [now constructor|].
      constructor; [now apply T1|].
      rewrite Forall_forall in *. intros z Hz.
      apply (@R_trans x y z); auto.
Qed.

Lemma sort_sorted (l : list A) : Forall P l -> StronglySorted R (sort cmp l).
Proof.
  induction 1 as [|x l Hx Hl IH]; simpl; [constructor|].
  apply insert_sorted; [exact Hx| |exact IH].
  eapply Permutation_Forall; [symmetry; apply sort_perm|exact Hl].
Qed.
End Sorting.

Lemma slice_prefix {A} (l : list A) (n : Z) :
  0 <= n -> slice l 0 n = firstn (Z.to_nat n) l.
Proof.
  intros H. change n with (0 + n) at 1.
  now rewrite slice_firstn_skipn by lia.
Qed.

Lemma StronglySorted_firstn {A} (R : A -> A -> Prop) (n : nat) (l : list A) :
  StronglySorted R l -> StronglySorted R (firstn n l).
Proof.
  intros H. revert n. induction H as [|x l Hs IH Hx]; intros [|n]; simpl;
    try constructor; auto.
  now apply Forall_firstn.
Qed.

(** ** The ranker: tokens and pass-through *)

Lemma jsstring_eqb_eq (a b : jsstring) : jsstring_eqb a b = true <-> a = b.
Proof.
  revert b. induction a as [|x a IH]; intros [|y b]; simpl;
    try (split; [discriminate|congruence]); [tauto|].
  rewrite andb_true_iff, Ascii.eqb_eq, IH. split.
  - now intros [-> ->].
  - intros E. now inversion E.
Qed.

Lemma has_In (set : list jsstring) (w : jsstring) : has set w = true <-> In w set.
Proof.
  unfold has. rewrite existsb_exists. split.
  - intros [x [Hx E]]. apply jsstring_eqb_eq in E. now subst.
  - intros H. exists w. split; [exact H|]. now apply jsstring_eqb_eq.
Qed.

Lemma copyChunk_id (c : Chunk) : copyChunk c = c.
Proof. now destruct c. Qed.

Lemma queryWordsOf_empty : queryWordsOf [] = [].
Proof. reflexivity. Qed.

Lemma firstn_min {A} (n : nat) (l : list A) :
  firstn (Nat.min n (length l)) l = firstn n l.
Proof.
  destruct (Nat.le_ge_cases n (length l)) as [H|H].
  - now rewrite Nat.min_l.
  - rewrite Nat.min_r by exact H. now rewrite !firstn_all2.
Qed.

(** C6.  The query words are the whitespace-separated fields of the
    lowercased query that are longer than two code units and are not among
    the twenty stop words.  For a non-empty query and [maxChunks >= 0]:
    when no query word survives, the call returns copies of the first
    [min(maxChunks, chunks.length)] chunks, in their order, without
    annotations. *)
Theorem stop_word_pass_through (chunks : list Chunk) (query : jsstring)
    (maxChunks : Z) :
  query <> [] -> 0 <= maxChunks ->
  (forall w, In w (queryWordsOf query)
             <-> In w (split_ws (toLowerCase query))
                 /\ 2 < len w /\ ~ In w stopWords)
  /\ length stopWords = 20%nat
  /\ (queryWordsOf query = [] ->
      findRelevantChunks chunks query maxChunks
      = Ok (map Unscored
              (firstn (Z.to_nat (Z.min maxChunks (len chunks))) chunks))).
Proof.
  intros Hq Hm. split; [|split; [reflexivity|]].
  - intros w. unfold queryWordsOf.
    rewrite filter_In, andb_true_iff, negb_true_iff, Z.gtb_lt.
    assert (Hs : has stopWords w = false <-> ~ In w stopWords).
    { rewrite <- has_In. destruct (has stopWords w); split; congruence. }
    rewrite Hs. tauto.
  - intros E. unfold findRelevantChunks. rewrite E. cbn [is_empty].
    destruct chunks as [|c chunks]; [now destruct (Z.to_nat _)|].
    destruct query as [|q query]; [congruence|]. cbn [is_empty orb].
    rewrite slice_prefix by exact Hm.
    rewrite (map_ext _ Unscored) by (intros x; now rewrite copyChunk_id).
    f_equal. f_equal. rewrite <- firstn_min. f_equal. unfold len. lia.
Qed.

Lemma stop_word_pass_through_witness :
  (forall w, In w (queryWordsOf (str "the and of"))
             <-> In w (split_ws (toLowerCase (str "the and of")))
                 /\ 2 < len w /\ ~ In w stopWords)
  /\ length stopWords = 20%nat
  /\ (queryWordsOf (str "the and of") = [] ->
      findRelevantChunks
        [mkChunk (str "one") 0 0 None; mkChunk (str "two") 1 0 None;
         mkChunk (str "three") 2 0 None] (str "the and of") 2
      = Ok (map Unscored
              (firstn (Z.to_nat (Z.min 2 (len [mkChunk (str "one") 0 0 None;
                                               mkChunk (str "two") 1 0 None;
                                               mkChunk (str "three") 2 0 None])))
                 [mkChunk (str "one") 0 0 None; mkChunk (str "two") 1 0 None;
                  mkChunk (str "three") 2 0 None]))).
Proof.
  apply (@stop_word_pass_through
           [mkChunk (str "one") 0 0 None; mkChunk (str "two") 1 0 None;
            mkChunk (str "three") 2 0 None] (str "the and of") 2).
  - discriminate.
  - lia.
Defined.

(** C6, as stated, fails on the empty query, which returns no chunk before
    any tokenisation, and on a negative [maxChunks], where [slice] drops
    chunks from the end instead of returning none. *)
Lemma stop_word_pass_through_counterexample :
  (queryWordsOf (str "") = []
   /\ findRelevantChunks [mkChunk (str "one") 0 0 None] (str "") 3 = Ok []
   /\ map Unscored
        (firstn (Z.to_nat (Z.min 3 (len [mkChunk (str "one") 0 0 None])))
           [mkChunk (str "one") 0 0 None])
      = [Unscored (mkChunk (str "one") 0 0 None)])
  /\ (queryWordsOf (str "the and of") = []
      /\ findRelevantChunks
           [mkChunk (str "one") 0 0 None; mkChunk (str "two") 1 0 None]
           (str "the and of") (-1)
         = Ok [Unscored (mkChunk (str "one") 0 0 None)]
      /\ map Unscored
           (firstn (Z.to_nat (Z.min (-1) (len [mkChunk (str "one") 0 0 None;
                                               mkChunk (str "two") 1 0 None])))
              [mkChunk (str "one") 0 0 None; mkChunk (str "two") 1 0 None])
         = []).
Proof. repeat split. Qed.

(** ** The ranker: filter, sort, truncate *)

Lemma In_firstn {A} (x : A) (n : nat) (l : list A) :
  In x (firstn n l) -> In x l.
Proof.
  revert n. induction l as [|y l IH]; intros [|n]; simpl; try tauto.
  intros [H|H]; [now left|right; eauto].
Qed.

Lemma filter_positive (l : list ScoredChunk) :
  Forall (fun c => positive_score (score c)) (filter (fun c => (0 <? score c)%float) l).
Proof.
  apply Forall_forall. intros c Hc. apply filter_In in Hc. apply Hc.
Qed.

(** C3.  When a query word survives, the call returns and
    [maxChunks >= 0]: the result is made of the scored records of the
    chunks; those whose score is not above zero are dropped; the kept
    ones are arranged so that a record stands before every record of
    lower score, before every record of equal score and fewer matched
    words, and before every record of equal score and matched words and
    higher chunk index; the first [maxChunks] of them are returned.  So
    the result has at most [maxChunks] records, each with a positive_score
    score. *)
Theorem ranking_filter_sort_truncate (chunks : list Chunk) (query : jsstring)
    (maxChunks : Z) (result : list ChunkObject) :
  0 <= maxChunks ->
  queryWordsOf query <> [] ->
  findRelevantChunks chunks query maxChunks = Ok result ->
  exists scored kept : list ScoredChunk,
    scoreChunks (queryWordsOf query) (len chunks) chunks 0 = Ok scored
    /\ Permutation kept (filter (fun c => (0 <? score c)%float) scored)
    /\ (forall c, In c scored -> (score c <=? 0)%float = true -> ~ In c kept)
    /\ StronglySorted ranks_before kept
    /\ result = map Scored (firstn (Z.to_nat maxChunks) kept)
    /\ len result <= maxChunks
    /\ (forall r, In r result ->
          exists c, r = Scored c /\ (0 <? score c)%float = true).
Proof.
  intros Hm Hq E. unfold findRelevantChunks in E.
  assert (Hquery : query <> []) by (intros ->; now apply Hq).
  destruct (is_empty chunks) eqn:Ec.
  - apply is_empty_true in Ec. subst chunks.
    cbn [is_empty orb] in E. inversion E; subst result.
    exists [], []. cbn. rewrite firstn_nil. repeat split; try constructor.
    + intros c [].
    + unfold len. simpl. lia.
    + intros r [].
  - replace (is_empty query) with false in E
      by (symmetry; now apply is_empty_false).
    cbn [orb] in E.
    replace (is_empty (queryWordsOf query)) with false in E
      by (symmetry; now apply is_empty_false).
    destruct (scoreChunks (queryWordsOf query) (len chunks) chunks 0)
      as [scored| |]; try discriminate.
    inversion E; subst result. clear E.
    set (pos := filter (fun c => (0 <? score c)%float) scored).
    pose proof (filter_positive scored) as Hpos. fold pos in Hpos.
    exists scored, (sort compareChunks pos).
    assert (Hperm : Permutation (sort compareChunks pos) pos) by apply sort_perm.
    split; [reflexivity|]. split; [exact Hperm|]. split; [|split; [|split; [|split]]].
    + intros c _ Hle Hin.
      apply (Permutation_in _ Hperm) in Hin. apply filter_In in Hin.
      rewrite (nonpositive_dropped Hle) in Hin. destruct Hin; discriminate.
    + apply (@sort_sorted _ compareChunks (fun c => positive_score (score c)) ranks_before).
      * intros x y Hx Hy. now apply compareChunks_ranks.
      * intros x y z. apply ranks_before_trans.
      * exact Hpos.
    + now rewrite slice_prefix.
    + rewrite slice_prefix by exact Hm. unfold len.
      rewrite length_map, length_firstn. lia.
    + intros r Hr. rewrite slice_prefix in Hr by exact Hm.
      apply in_map_iff in Hr. destruct Hr as [c [<- Hc]]. exists c.
      split; [reflexivity|]. apply In_firstn in Hc.
      apply (Permutation_in _ Hperm) in Hc. apply filter_In in Hc. apply Hc.
Qed.

Lemma ranking_filter_sort_truncate_witness :
  exists result,
    findRelevantChunks sample_chunks (str "the CAT mat") 2 = Ok result
    /\ exists scored kept : list ScoredChunk,
         scoreChunks (queryWordsOf (str "the CAT mat")) (len sample_chunks)
           sample_chunks 0 = Ok scored
         /\ Permutation kept (filter (fun c => (0 <? score c)%float) scored)
         /\ (forall c, In c scored -> (score c <=? 0)%float = true -> ~ In c kept)
         /\ StronglySorted ranks_before kept
         /\ result = map Scored (firstn (Z.to_nat 2) kept)
         /\ len result <= 2
         /\ (forall r, In r result ->
               exists c, r = Scored c /\ (0 <? score c)%float = true).
Proof.
  destruct (findRelevantChunks sample_chunks (str "the CAT mat") 2)
    as [result| |] eqn:E; try (vm_compute in E; discriminate).
  exists result. split; [reflexivity|].
  apply (@ranking_filter_sort_truncate sample_chunks (str "the CAT mat") 2 result);
    [lia|vm_compute; discriminate|exact E].
Defined.

(** C3, as stated, fails for a negative [maxChunks]: [slice(0, -1)] keeps
    all but the last record, more than [maxChunks]. *)
Lemma ranking_counterexample :
  queryWordsOf (str "cat") <> []
  /\ exists result,
       findRelevantChunks
         [mkChunk (str "cat") 0 0 None; mkChunk (str "cat cat") 1 0 None]
         (str "cat") (-1) = Ok result
       /\ length result = 1%nat
       /\ ~ (len result <= -1).
Proof.
  split; [discriminate|].
  eexists. split; [vm_compute; reflexivity|]. split; [reflexivity|].
  unfold len. simpl. lia.
Qed.

(** ** Lists under [map] *)

Lemma map_filter_comm {A B} (f : A -> B) (p : B -> bool) (l : list A) :
  map f (filter (fun x => p (f x)) l) = filter p (map f l).
Proof.
  induction l as [|x l IH]; simpl; [reflexivity|].
  destruct (p (f x)); simpl; now rewrite IH.
Qed.

Lemma map_insert_comm {A B} (f : A -> B) (cmp : B -> B -> Z) (x : A) (l : list A) :
  map f (insert (fun a b => cmp (f a) (f b)) x l) = insert cmp (f x) (map f l).
Proof.
  induction l as [|y l IH]; simpl; [reflexivity|].
  destruct (cmp (f x) (f y) >? 0); simpl; now rewrite ?IH.
Qed.

Lemma map_sort_comm {A B} (f : A -> B) (cmp : B -> B -> Z) (l : list A) :
  map f (sort (fun a b => cmp (f a) (f b)) l) = sort cmp (map f l).
Proof.
  induction l as [|x l IH]; simpl; [reflexivity|].
  now rewrite map_insert_comm, IH.
Qed.

Lemma map_slice_comm {A B} (f : A -> B) (l : list A) (a b : Z) :
  map f (slice l a b) = slice (map f l) a b.
Proof.
  unfold slice. now rewrite length_map, skipn_map, firstn_map.
Qed.

Lemma In_slice {A} (x : A) (l : list A) (a b : Z) : In x (slice l a b) -> In x l.
Proof.
  unfold slice. intros H. apply In_firstn in H.
  rewrite <- (firstn_skipn (Z.to_nat (rel_index (Z.of_nat (length l)) a)) l).
  apply in_or_app. now right.
Qed.

Lemma In_insert {A} (cmp : A -> A -> Z) (x y : A) (l : list A) :
  In y (insert cmp x l) -> y = x \/ In y l.
Proof.
  intros H. apply (Permutation_in _ (insert_perm cmp x l)) in H.
  destruct H; auto.
Qed.

Lemma In_sort {A} (cmp : A -> A -> Z) (x : A) (l : list A) :
  In x (sort cmp l) -> In x l.
Proof. apply Permutation_in, sort_perm. Qed.

(** ** Heap cells *)

Lemma set_nth_prefix {A} (k a : nat) (x : A) (l : list A) :
  (k <= a)%nat -> firstn k (set_nth a x l) = firstn k l.
Proof.
  revert k a. induction l as [|y l IH]; intros k a H; [now destruct a|].
  destruct a as [|a]; simpl.
  - assert (k = 0%nat) by lia. now subst.
  - destruct k as [|k]; [reflexivity|]. simpl. f_equal. apply IH. lia.
Qed.

Lemma set_nth_length {A} (a : nat) (x : A) (l : list A) :
  length (set_nth a x l) = length l.
Proof.
  revert a. induction l as [|y l IH]; intros [|a]; simpl; auto.
Qed.

Lemma set_nth_last {A} (x y d : A) (l : list A) :
  nth (length l) (set_nth (length l) x (l ++ [y])) d = x.
Proof. induction l as [|z l IH]; simpl; auto. Qed.

Lemma nth_last {A} (y d : A) (l : list A) : nth (length l) (l ++ [y]) d = y.
Proof. induction l as [|z l IH]; simpl; auto. Qed.

Lemma firstn_app_exact {A} (l l' : list A) : firstn (length l) (l ++ l') = l.
Proof. induction l as [|x l IH]; simpl; [now destruct l'|now rewrite IH]. Qed.

Lemma read_chunk_old (h h' : heap) (os : list ChunkObject) (r : ref) :
  objects h' = objects h ++ os -> (r < length (objects h))%nat ->
  read_chunk h' r = read_chunk h r.
Proof.
  intros E H. unfold read_chunk. rewrite E. now rewrite app_nth1.
Qed.

(** The objects a [map] allocates: one per element, at the references
    that follow the objects of the heap. *)
Lemma nth_new_objects (old news : list ChunkObject) (d : ChunkObject) :
  map (fun r => nth r (old ++ news) d) (seq (length old) (length news)) = news.
Proof.
  revert old. induction news as [|o news IH]; intros old; [reflexivity|].
  cbn [length seq map]. f_equal.
  - rewrite app_nth2 by lia. now rewrite Nat.sub_diag.
  - specialize (IH (old ++ [o])).
    rewrite length_app, Nat.add_1_r, <- app_assoc in IH. exact IH.
Qed.

Lemma nth_error_valid {A} (l : list A) (d : A) (rs : list nat) :
  Forall (fun r => (r < length l)%nat) rs ->
  map (nth_error l) rs = map Some (map (fun r => nth r l d) rs).
Proof.
  induction 1 as [|r rs Hr _ IH]; simpl; [reflexivity|].
  now rewrite IH, (nth_error_nth' l d Hr).
Qed.

Lemma seq_bounds (a n : nat) :
  Forall (fun r => (a <= r < a + n)%nat) (seq a n).
Proof. apply Forall_forall. intros r Hr. apply in_seq in Hr. lia. Qed.

Lemma map_copy_spec (h : heap) (refs : list ref) :
  Forall (fun r => (r < length (objects h))%nat) refs ->
  map_copy h refs
  = (mkHeap (objects h ++ map (fun r => Unscored (copyChunk (read_chunk h r))) refs)
            (arrays h),
     seq (length (objects h)) (length refs)).
Proof.
  intros H. revert h H. induction refs as [|r refs IH]; intros h H.
  - simpl. rewrite app_nil_r. now destruct h.
  - inversion H as [|? ? Hr Hrest]; subst. cbn [map_copy new_object].
    set (h1 := mkHeap (objects h ++ [Unscored (copyChunk (read_chunk h r))]) (arrays h)).
    assert (Hv : Forall (fun r0 => (r0 < length (objects h1))%nat) refs).
    { revert Hrest. apply Forall_impl. intros a Ha. unfold h1. cbn [objects].
      rewrite length_app. simpl. lia. }
    rewrite (IH h1 Hv). unfold h1. cbn [objects arrays length map seq].
    rewrite length_app, Nat.add_1_r, <- app_assoc. cbn [app]. f_equal. f_equal. f_equal.
    f_equal. apply map_ext_in. intros a Ha.
    rewrite Forall_forall in Hrest. f_equal. f_equal.
    apply (@read_chunk_old h _ [Unscored (copyChunk (read_chunk h r))]);
      [reflexivity|auto].
Qed.

Lemma map_score_spec (queryWords : list jsstring) (total : Z) (refs : list ref) :
  forall (h : heap) (index : Z),
    Forall (fun r => (r < length (objects h))%nat) refs ->
    match scoreChunks queryWords total (map (read_chunk h) refs) index with
    | Ok scs =>
        map_score queryWords total h refs index
        = Ok (mkHeap (objects h ++ map Scored scs) (arrays h),
              seq (length (objects h)) (length scs))
    | SyntaxError => map_score queryWords total h refs index = SyntaxError
    | Unsupported => map_score queryWords total h refs index = Unsupported
    end.
Proof.
  induction refs as [|r refs IH]; intros h index H.
  - simpl. rewrite app_nil_r. now destruct h.
  - inversion H as [|? ? Hr Hrest]; subst. cbn [map scoreChunks map_score].
    destruct (scoreChunk queryWords total (read_chunk h r) index) as [sc| |];
      try reflexivity.
    cbn [new_object].
    set (h1 := mkHeap (objects h ++ [Scored sc]) (arrays h)).
    assert (Hv : Forall (fun r0 => (r0 < length (objects h1))%nat) refs).
    { revert Hrest. apply Forall_impl. intros a Ha. unfold h1. cbn [objects].
      rewrite length_app. simpl. lia. }
    specialize (IH h1 (index + 1) Hv).
    assert (Em : map (read_chunk h1) refs = map (read_chunk h) refs).
    { apply map_ext_in. intros a Ha. rewrite Forall_forall in Hrest.
      apply (@read_chunk_old h h1 [Scored sc]); [reflexivity|auto]. }
    rewrite Em in IH.
    destruct (scoreChunks queryWords total (map (read_chunk h) refs) (index + 1))
      as [scs| |]; rewrite IH; try reflexivity.
    unfold h1. cbn [objects arrays length map seq].
    rewrite length_app, Nat.add_1_r, <- app_assoc. reflexivity.
Qed.

Lemma set_nth_app_last {A} (x y : A) (l : list A) :
  set_nth (length l) x (l ++ [y]) = l ++ [x].
Proof. induction l as [|z l IH]; simpl; [reflexivity|now rewrite IH]. Qed.

Lemma read_scored_objects (objs : list ChunkObject) (a a' : list (list ref)) (r : ref) :
  read_scored (mkHeap objs a) r = read_scored (mkHeap objs a') r.
Proof. reflexivity. Qed.

(** The arrays [filter_sort_slice] leaves behind: the filtered array,
    sorted in place, and the slice it returns. *)
Lemma filter_sort_slice_spec (objs : list ChunkObject) (arrs : list (list ref))
    (rs : list ref) (maxChunks : Z) :
  filter_sort_slice (mkHeap objs (arrs ++ [rs])) (length arrs) maxChunks
  = let sorted :=
      sort (fun x y => compareChunks (read_scored (mkHeap objs arrs) x)
                                     (read_scored (mkHeap objs arrs) y))
           (filter (fun r => (0 <? score (read_scored (mkHeap objs arrs) r))%float) rs) in
    (mkHeap objs (((arrs ++ [rs]) ++ [sorted]) ++ [slice sorted 0 maxChunks]),
     S (S (length arrs))).
Proof.
  unfold filter_sort_slice, new_array, store_array, array_at.
  cbn [objects arrays]. rewrite nth_last.
  rewrite nth_last, set_nth_app_last, nth_last.
  cbv zeta. f_equal. rewrite !length_app. simpl. lia.
Qed.

(** ** The ranker: where a returned record comes from *)

Lemma scoreChunk_chunk (queryWords : list jsstring) (total : Z) (c : Chunk)
    (index : Z) (s : ScoredChunk) :
  scoreChunk queryWords total c index = Ok s -> chunk_of (Scored s) = c.
Proof.
  unfold scoreChunk.
  destruct (accumulate queryWords (toLowerCase (content c)) 0); try discriminate.
  intros E. inversion E. now destruct c.
Qed.

Lemma scoreChunks_nth (queryWords : list jsstring) (total : Z) (chunks : list Chunk) :
  forall (k : Z) (scored : list ScoredChunk),
    scoreChunks queryWords total chunks k = Ok scored ->
    forall s, In s scored ->
      exists (i : nat) (c : Chunk),
        nth_error chunks i = Some c
        /\ scoreChunk queryWords total c (k + Z.of_nat i) = Ok s.
Proof.
  induction chunks as [|c chunks IH]; intros k scored E s Hs.
  - inversion E; subst. destruct Hs.
  - cbn [scoreChunks] in E.
    destruct (scoreChunk queryWords total c k) as [sc| |] eqn:E1; try discriminate.
    destruct (scoreChunks queryWords total chunks (k + 1)) as [scs| |] eqn:E2;
      try discriminate.
    inversion E; subst. destruct Hs as [<-|Hs].
    + exists 0%nat, c. split; [reflexivity|]. now rewrite Z.add_0_r.
    + destruct (IH _ _ E2 s Hs) as [i [c' [Hi Hc]]].
      exists (S i), c'. split; [exact Hi|].
      replace (k + Z.of_nat (S i)) with (k + 1 + Z.of_nat i) by lia. exact Hc.
Qed.

(** Every returned record is derived from one input chunk: it carries the
    four properties of that chunk, and its annotations, if any, are those
    computed for that chunk at its position. *)
Lemma findRelevantChunks_provenance (chunks : list Chunk) (query : jsstring)
    (maxChunks : Z) (result : list ChunkObject) :
  findRelevantChunks chunks query maxChunks = Ok result ->
  forall o, In o result ->
    exists (i : nat) (c : Chunk),
      nth_error chunks i = Some c
      /\ chunk_of o = c
      /\ (o = Unscored c
          \/ exists s, o = Scored s
                       /\ scoreChunk (queryWordsOf query) (len chunks) c (Z.of_nat i)
                          = Ok s).
Proof.
  unfold findRelevantChunks. intros E o Ho.
  destruct (is_empty chunks || is_empty query).
  - inversion E; subst. destruct Ho.
  - destruct (is_empty (queryWordsOf query)).
    + inversion E; subst. clear E. apply in_map_iff in Ho.
      destruct Ho as [c [<- Hc]]. apply In_slice in Hc.
      apply In_nth_error in Hc. destruct Hc as [i Hi].
      exists i, c. rewrite copyChunk_id. auto.
    + destruct (scoreChunks (queryWordsOf query) (len chunks) chunks 0)
        as [scored| |] eqn:E1; try discriminate.
      inversion E; subst. clear E. apply in_map_iff in Ho.
      destruct Ho as [s [<- Hs]]. apply In_slice, In_sort in Hs.
      apply filter_In in Hs. destruct Hs as [Hs _].
      destruct (scoreChunks_nth _ _ _ _ E1 s Hs) as [i [c [Hi Hc]]].
      exists i, c. split; [exact Hi|]. split; [now apply scoreChunk_chunk in Hc|].
      right. exists s. split; [reflexivity|]. exact Hc.
Qed.

(** ** The ranker in the heap *)

Lemma scored_objects (h : heap) (old : list ChunkObject) (scs : list ScoredChunk) :
  objects h = old ++ map Scored scs ->
  map (read_scored h) (seq (length old) (length scs)) = scs
  /\ Forall (fun r => nth r (objects h) (Unscored (mkChunk [] 0 0 None))
                      = Scored (read_scored h r))
            (seq (length old) (length scs)).
Proof.
  intros E.
  pose proof (nth_new_objects old (map Scored scs) (Unscored (mkChunk [] 0 0 None)))
    as H.
  rewrite length_map, <- E in H.
  assert (H1 : map (read_scored h) (seq (length old) (length scs)) = scs).
  { transitivity (map scored_of
                    (map (fun r => nth r (objects h) (Unscored (mkChunk [] 0 0 None)))
                         (seq (length old) (length scs)))).
    - now rewrite map_map.
    - rewrite H, map_map. apply map_id. }
  split; [exact H1|].
  apply Forall_forall. intros r Hr.
  assert (Hin : In (nth r (objects h) (Unscored (mkChunk [] 0 0 None)))
                   (map Scored scs)).
  { rewrite <- H.
    apply (in_map (fun r => nth r (objects h) (Unscored (mkChunk [] 0 0 None)))).
    exact Hr. }
  apply in_map_iff in Hin. destruct Hin as [s [Hs _]].
  unfold read_scored. now rewrite <- Hs.
Qed.

Lemma Forall_sub {A} (P : A -> Prop) (l l' : list A) :
  (forall x, In x l' -> In x l) -> Forall P l -> Forall P l'.
Proof.
  intros H Hl. rewrite Forall_forall in *. auto.
Qed.

Lemma nth_firstn_lt {A} (k n : nat) (l : list A) (d : A) :
  (k < n)%nat -> nth k (firstn n l) d = nth k l d.
Proof.
  revert k n. induction l as [|x l IH]; intros k n H.
  - now rewrite firstn_nil.
  - destruct n as [|n]; [lia|]. destruct k as [|k]; [reflexivity|].
    simpl. apply IH. lia.
Qed.

(** C10.  The call on an array of the heap whose references point to
    objects: it returns in the heap what [findRelevantChunks] returns on
    the chunks read from the array, and throws when that throws.  The
    objects and the arrays the heap held before the call are unchanged,
    the input array among them; the array returned is a new one and holds
    only new objects; every returned record carries [content],
    [chunkIndex], [pageNumber] and [id] of one input chunk, alone (the
    pass-through) or with the [score], [rawScore] and [matchedWords]
    computed for that chunk at its position. *)
Theorem ranker_leaves_input_alone (h : heap) (chunks : ref)
    (query : jsstring) (maxChunks : Z) :
  valid_input h chunks ->
  let input := map (read_chunk h) (array_at h chunks) in
  match findRelevantChunks input query maxChunks with
  | Ok result =>
      exists (h' : heap) (res : ref),
        findRelevantChunks_in_heap h chunks query maxChunks = Ok (h', res)
        /\ firstn (length (objects h)) (objects h') = objects h
        /\ firstn (length (arrays h)) (arrays h') = arrays h
        /\ array_at h' chunks = array_at h chunks
        /\ (length (arrays h) <= res)%nat
        /\ Forall (fun r => (length (objects h) <= r)%nat) (array_at h' res)
        /\ map (nth_error (objects h')) (array_at h' res) = map Some result
        /\ (forall o, In o result ->
              exists (i : nat) (c : Chunk),
                nth_error input i = Some c
                /\ chunk_of o = c
                /\ (o = Unscored c
                    \/ exists s, o = Scored s
                         /\ scoreChunk (queryWordsOf query) (len input) c (Z.of_nat i)
                            = Ok s))
  | SyntaxError =>
      findRelevantChunks_in_heap h chunks query maxChunks = SyntaxError
  | Unsupported =>
      findRelevantChunks_in_heap h chunks query maxChunks = Unsupported
  end.
Proof.
  intros [Ha Hrefs] input.
  pose proof (@findRelevantChunks_provenance input query maxChunks) as Hprov.
  assert (Hkeep : forall h' : heap,
             firstn (length (arrays h)) (arrays h') = arrays h ->
             array_at h' chunks = array_at h chunks).
  { intros h' E. unfold array_at. rewrite <- E at 1. now rewrite nth_firstn_lt. }
  unfold findRelevantChunks in *. unfold findRelevantChunks_in_heap.
  set (refs := array_at h chunks) in *.
  assert (Hlen : len input = len refs) by (unfold input, len; now rewrite length_map).
  assert (He : is_empty input = is_empty refs) by (unfold input; now destruct refs).
  rewrite He in *. destruct (is_empty refs || is_empty query).
  - (* nothing to rank *)
    exists (fst (new_array h [])), (snd (new_array h [])).
    cbn [new_array fst snd objects arrays].
    split; [reflexivity|]. split; [apply firstn_all|].
    split; [apply firstn_app_exact|].
    split; [apply Hkeep; apply firstn_app_exact|].
    split; [lia|]. unfold array_at at 1 2. cbn [arrays]. rewrite nth_last.
    split; [constructor|]. split; [reflexivity|]. intros o [].
  - destruct (is_empty (queryWordsOf query)).
    + (* pass-through *)
      unfold new_array at 1. cbv beta iota.
      unfold array_at at 1. cbn [arrays objects]. rewrite nth_last.
      set (sl := slice refs 0 maxChunks).
      assert (Hsl : Forall (fun r => (r < length (objects h))%nat) sl).
      { apply (Forall_sub _ (l := refs)); [|exact Hrefs].
        intros x. apply In_slice. }
      rewrite (@map_copy_spec (mkHeap (objects h) (arrays h ++ [sl])) sl Hsl).
      cbn [objects arrays].
      eexists _, _. split; [reflexivity|]. cbn [objects arrays].
      split; [apply firstn_app_exact|].
      split; [rewrite <- app_assoc; apply firstn_app_exact|].
      split; [apply Hkeep; cbn [arrays]; rewrite <- app_assoc; apply firstn_app_exact|].
      split; [rewrite length_app; simpl; lia|].
      unfold array_at. cbn [arrays]. rewrite nth_last.
      split; [|split].
      * eapply Forall_impl; [|apply seq_bounds]. intros r Hr. simpl in Hr. lia.
      * rewrite (@nth_error_valid _ _ (Unscored (mkChunk [] 0 0 None))).
        2:{ eapply Forall_impl; [|apply seq_bounds]. intros r Hr. simpl in Hr.
            rewrite length_app, length_map. lia. }
        f_equal.
        pose proof (nth_new_objects (objects h)
                      (map (fun r => Unscored (copyChunk
                         (read_chunk (mkHeap (objects h) (arrays h ++ [sl])) r))) sl)
                      (Unscored (mkChunk [] 0 0 None))) as Hn.
        rewrite length_map in Hn. rewrite Hn.
        unfold input. rewrite <- map_slice_comm. fold sl. rewrite map_map.
        reflexivity.
      * exact (Hprov _ eq_refl).
    + (* ranking *)
      pose proof (@map_score_spec (queryWordsOf query) (len refs) refs h 0 Hrefs)
        as MS.
      fold input in MS. rewrite Hlen in *.
      destruct (scoreChunks (queryWordsOf query) (len refs) input 0)
        as [scs| |]; rewrite MS; try reflexivity.
      unfold new_array at 1. cbv beta iota. cbn [objects arrays].
      rewrite filter_sort_slice_spec.
      set (objs := objects h ++ map Scored scs).
      set (rs := seq (length (objects h)) (length scs)).
      destruct (@scored_objects (mkHeap objs (arrays h)) (objects h) scs eq_refl)
        as [Hread Hobj].
      fold rs in Hread, Hobj. cbn [objects] in Hobj.
      cbv zeta.
      set (kept := filter (fun r => (0 <? score (read_scored (mkHeap objs (arrays h)) r))%float) rs).
      set (sorted := sort _ kept).
      assert (Hsub : forall r, In r (slice sorted 0 maxChunks) -> In r rs).
      { intros r Hr. apply In_slice, In_sort in Hr. apply filter_In in Hr. apply Hr. }
      eexists _, _. split; [reflexivity|]. cbn [objects arrays].
      split; [apply firstn_app_exact|].
      split; [rewrite <- !app_assoc; apply firstn_app_exact|].
      split; [apply Hkeep; cbn [arrays]; rewrite <- !app_assoc; apply firstn_app_exact|].
      split; [lia|].
      unfold array_at. cbn [arrays].
      replace (S (S (length (arrays h))))
        with (length ((arrays h ++ [rs]) ++ [sorted]))
        by (rewrite !length_app; simpl; lia).
      rewrite nth_last. split; [|split].
      * apply (Forall_sub _ (l := rs)); [exact Hsub|].
        eapply Forall_impl; [|apply seq_bounds]. intros r Hr. simpl in Hr. lia.
      * rewrite (@nth_error_valid _ _ (Unscored (mkChunk [] 0 0 None))).
        2:{ apply (Forall_sub _ (l := rs)); [exact Hsub|].
            eapply Forall_impl; [|apply seq_bounds]. intros r Hr. simpl in Hr.
            unfold objs. rewrite length_app, length_map. lia. }
        f_equal.
        rewrite (map_ext_in _ (fun r => Scored (read_scored (mkHeap objs (arrays h)) r))).
        2:{ intros r Hr. apply Hsub in Hr. rewrite Forall_forall in Hobj. auto. }
        rewrite <- (map_map (read_scored (mkHeap objs (arrays h))) Scored).
        f_equal. rewrite map_slice_comm. f_equal.
        unfold sorted. rewrite (map_sort_comm (read_scored (mkHeap objs (arrays h)))).
        f_equal. unfold kept.
        rewrite (map_filter_comm (read_scored (mkHeap objs (arrays h)))
                   (fun c => (0 <? score c)%float)).
        now rewrite Hread.
      * exact (Hprov _ eq_refl).
Qed.

Lemma ranker_leaves_input_alone_witness :
  exists (h' : heap) (res : ref),
    findRelevantChunks_in_heap sample_heap 0%nat (str "the CAT mat") 2 = Ok (h', res)
    /\ firstn (length (objects sample_heap)) (objects h') = objects sample_heap
    /\ firstn (length (arrays sample_heap)) (arrays h') = arrays sample_heap
    /\ array_at h' 0%nat = array_at sample_heap 0%nat.
Proof.
  assert (V : valid_input sample_heap 0%nat).
  { split; [simpl; lia|]. repeat constructor. }
  pose proof (@ranker_leaves_input_alone sample_heap 0%nat (str "the CAT mat") 2 V)
    as H.
  cbv zeta in H.
  destruct (findRelevantChunks
              (map (read_chunk sample_heap) (array_at sample_heap 0%nat))
              (str "the CAT mat") 2) as [result| |] eqn:E;
    try (vm_compute in E; discriminate).
  destruct H as [h' [res [H1 [H2 [H3 [H4 _]]]]]].
  exists h', res. auto.
Defined.

(** ** Query words without pattern characters *)

Lemma plain_char_cases (c : ascii) :
  plain_char c = true ->
  Ascii.eqb c "^" = false /\ Ascii.eqb c "$" = false /\ Ascii.eqb c BS = false
  /\ Ascii.eqb c "." = false /\ char_is c "*+?" = false /\ char_is c "{[" = false
  /\ Ascii.eqb c "(" = false /\ char_is c "|)" = false
  /\ Ascii.eqb c "*" = false /\ Ascii.eqb c "+" = false /\ Ascii.eqb c "?" = false
  /\ Ascii.eqb c "{" = false.
Proof.
  unfold plain_char, char_is. cbn [list_ascii_of_string existsb].
  rewrite negb_true_iff, !orb_false_iff. unfold BS. tauto.
Qed.

Lemma parse_quantifier_none (atom : regex) (rest : jsstring) :
  no_quantifier rest -> parse_quantifier atom rest = Ok (atom, rest).
Proof.
  destruct rest as [|c rest]; [reflexivity|]. cbn [no_quantifier parse_quantifier].
  intros [H| ->]; [|reflexivity].
  destruct (plain_char_cases c H) as (_ & _ & _ & _ & _ & _ & _ & _ & H1 & H2 & H3 & H4).
  now rewrite H1, H2, H3, H4.
Qed.

Lemma no_quantifier_app (w tail : jsstring) :
  Forall (fun c => plain_char c = true) w -> no_quantifier tail ->
  no_quantifier (w ++ tail).
Proof. destruct 1; simpl; auto. Qed.

Lemma parse_alternative_literal (w : jsstring) :
  Forall (fun c => plain_char c = true) w ->
  forall (n : nat) (tail : jsstring),
    (1 <= n)%nat -> no_quantifier tail ->
    parse_alternative (n + length w) (w ++ tail)
    = match parse_alternative n tail with
      | Ok (r, rest) => Ok (literal w r, rest)
      | SyntaxError => SyntaxError
      | Unsupported => Unsupported
      end.
Proof.
  induction 1 as [|c w Hc Hw IH]; intros n tail Hn Ht.
  - rewrite Nat.add_0_r. cbn [app literal].
    destruct (parse_alternative n tail) as [[r rest]| |]; reflexivity.
  - cbn [length app]. rewrite Nat.add_succ_r. cbn [parse_alternative].
    destruct (plain_char_cases c Hc)
      as (H1 & H2 & H3 & H4 & H5 & H6 & H7 & H8 & _).
    rewrite H8.
    destruct (n + length w)%nat as [|k] eqn:Ek; [lia|].
    cbn [parse_term]. rewrite H1, H2, H3, H4, H5, H6, H7.
    rewrite (@parse_quantifier_none (RChar c) (w ++ tail) (@no_quantifier_app w tail Hw Ht)).
    rewrite <- Ek, (IH n tail Hn Ht).
    destruct (parse_alternative n tail) as [[r rest]| |]; reflexivity.
Qed.

Lemma parse_alternative_end (n : nat) :
  (1 <= n)%nat -> parse_alternative n [] = Ok (REmpty, []).
Proof. destruct n; [lia|reflexivity]. Qed.

Lemma parse_alternative_boundary (n : nat) (rest : jsstring) :
  (1 <= n)%nat ->
  parse_alternative (S n) (BS :: "b"%char :: rest)
  = match parse_alternative n rest with
    | Ok (r, rest') => Ok (RSeq (RAssert AWordBoundary) r, rest')
    | SyntaxError => SyntaxError
    | Unsupported => Unsupported
    end.
Proof.
  destruct n as [|n]; [lia|]. intros _.
  destruct (parse_alternative (S n) rest) as [[r rest']| |] eqn:E;
    cbn [parse_alternative]; cbn [parse_alternative] in E;
    change (char_is BS "|)") with false; cbv iota;
    change (parse_term (S n) (BS :: "b"%char :: rest))
      with (Ok (RAssert AWordBoundary, rest));
    cbv iota; now rewrite E.
Qed.

Lemma RegExp_of_alternative (p : jsstring) (r : regex) :
  (forall n, (length p + 3 <= n)%nat -> parse_alternative n p = Ok (r, [])) ->
  RegExp p = Ok r.
Proof.
  intros H. unfold RegExp.
  replace (4 * length p + 4)%nat with (S (4 * length p + 3)) by lia.
  cbn [parse_disjunction]. rewrite H by lia. reflexivity.
Qed.

(** The two patterns built from a word of plain code units are accepted. *)
Lemma RegExp_plain_word (w : jsstring) :
  Forall (fun c => plain_char c = true) w ->
  RegExp w = Ok (literal w REmpty)
  /\ RegExp ([BS; "b"%char] ++ w ++ [BS; "b"%char])
     = Ok (RSeq (RAssert AWordBoundary)
                (literal w (RSeq (RAssert AWordBoundary) REmpty))).
Proof.
  intros H. split; apply RegExp_of_alternative; intros n Hn.
  - replace n with ((n - length w) + length w)%nat by lia.
    assert (E := @parse_alternative_literal w H (n - length w)%nat []).
    rewrite app_nil_r in E. rewrite E by (simpl; first [lia | exact I]).
    rewrite parse_alternative_end by lia. reflexivity.
  - rewrite !length_app in Hn. cbn [length] in Hn. cbn [app].
    destruct n as [|n]; [lia|].
    rewrite parse_alternative_boundary by lia.
    replace n with ((n - length w) + length w)%nat by lia.
    rewrite (@parse_alternative_literal w H (n - length w)%nat [BS; "b"%char])
      by (simpl; first [lia | now right]).
    destruct (n - length w)%nat as [|m] eqn:Em; [lia|].
    rewrite parse_alternative_boundary by lia.
    rewrite parse_alternative_end by lia. reflexivity.
Qed.

Lemma accumulate_plain (queryWords : list jsstring) (text : jsstring) :
  Forall (Forall (fun c => plain_char c = true)) queryWords ->
  forall score0, exists score1, accumulate queryWords text score0 = Ok score1.
Proof.
  induction 1 as [|w ws Hw _ IH]; intros score0; cbn [accumulate]; [eauto|].
  destruct (@RegExp_plain_word w Hw) as [E1 E2]. rewrite E2, E1. apply IH.
Qed.

Lemma scoreChunks_plain (queryWords : list jsstring) (total : Z)
    (chunks : list Chunk) :
  Forall (Forall (fun c => plain_char c = true)) queryWords ->
  forall index, exists scored, scoreChunks queryWords total chunks index = Ok scored.
Proof.
  intros H. induction chunks as [|c chunks IH]; intros index; cbn [scoreChunks];
    [eauto|].
  unfold scoreChunk.
  destruct (@accumulate_plain queryWords (toLowerCase (content c)) H 0%float) as [s ->].
  destruct (IH (index + 1)) as [scs ->]. eauto.
Qed.

Lemma lower_char_plain (c : ascii) :
  plain_char c = true -> plain_char (lower_char c) = true.
Proof.
  destruct c as [[|] [|] [|] [|] [|] [|] [|] [|]]; vm_compute; congruence.
Qed.

Lemma lower_char_space (c : ascii) :
  is_space c = true -> is_space (lower_char c) = true.
Proof.
  destruct c as [[|] [|] [|] [|] [|] [|] [|] [|]]; vm_compute; congruence.
Qed.

Lemma split_from_Forall (P : ascii -> Prop) (sep : ascii -> bool) (s : jsstring) :
  Forall (fun c => P c \/ sep c = true) s ->
  forall b, Forall (Forall P) (split_from sep b s).
Proof.
  induction 1 as [|c s Hc _ IH]; intros b; cbn [split_from].
  - repeat constructor.
  - destruct (sep c) eqn:E.
    + destruct b; [apply IH|]. constructor; [constructor|apply IH].
    + destruct Hc as [Hc|Hc]; [|congruence].
      specialize (IH false). destruct (split_from sep false s) as [|f fs].
      * repeat constructor. exact Hc.
      * inversion IH; subst. constructor; [now constructor|assumption].
Qed.

Lemma plain_query_words (query : jsstring) :
  plain_query query ->
  Forall (Forall (fun c => plain_char c = true)) (queryWordsOf query).
Proof.
  intros H. unfold queryWordsOf.
  apply Forall_forall. intros w Hw. apply filter_In in Hw. destruct Hw as [Hw _].
  revert w Hw. apply Forall_forall. apply split_from_Forall.
  unfold toLowerCase. apply Forall_map. revert H. apply Forall_impl.
  intros c [Hc|Hc]; [left; now apply lower_char_plain|right; now apply lower_char_space].
Qed.

(** X9.  On a query without pattern characters (every code unit is
    whitespace or none of [^$\.*+?()[]{}|]) no [RegExp] constructor throws:
    [findRelevantChunks] returns an array. *)
Lemma findRelevantChunks_returns (chunks : list Chunk) (query : jsstring)
    (maxChunks : Z) :
  plain_query query ->
  exists result, findRelevantChunks chunks query maxChunks = Ok result.
Proof.
  intros H. unfold findRelevantChunks.
  destruct (is_empty chunks || is_empty query); [eauto|].
  destruct (is_empty (queryWordsOf query)); [eauto|].
  destruct (@scoreChunks_plain (queryWordsOf query) (len chunks) chunks (@plain_query_words query H) 0)
    as [scored ->]. eauto.
Qed.

(** ** Where the code departs from its description *)

Lemma paragraphs_at_most_one (text : jsstring) :
  (length (paragraphsOf (cleanText text)) <= 1)%nat.
Proof.
  destruct (words text) as [|w ws] eqn:E.
  - rewrite (@paragraphs_blank text E). simpl. lia.
  - rewrite (@paragraphs_single text) by (rewrite E; discriminate). simpl. lia.
Qed.

(** C1.  The normalisation replaces every whitespace run by a space, line
    feeds included, before the text is split at line feeds: no text has
    more than one paragraph.  Two paragraphs of four words in all with
    [chunkSize = 4] give one chunk in which a space joins them, and two
    paragraphs of three words each with [chunkSize = 3] give three
    windows that straddle the break, where the paragraph loop, given the
    two paragraphs, would have given two chunks, the second one seeded
    with the last word of the first. *)
Theorem paragraph_breaks_are_lost :
  (forall text,
      Forall (fun c => is_LF c = false) (cleanText text)
      /\ (length (paragraphsOf (cleanText text)) <= 1)%nat)
  /\ chunkText 20 (str "one two" ++ [LF; LF] ++ str "three four") 4 1
     = Some [mkChunk (str "one two three four") 0 0 None]
  /\ chunkText 20 (str "a b c" ++ [LF; LF] ++ str "d e f") 3 1
     = Some [mkChunk (str "a b c") 0 0 None; mkChunk (str "c d e") 1 0 None;
             mkChunk (str "e f") 2 0 None]
  /\ option_map
       (fun st => st_chunks (pushChunk st (join PARA_SEP (st_currentChunk st))))
       (for_paragraphs 20 3 1 [str "a b c"; str "d e f"] initial_state)
     = Some [mkChunk (str "a b c") 0 0 None;
             mkChunk (str "c" ++ [LF; LF] ++ str "d e f") 1 0 None].
Proof.
  split; [|repeat split].
  intros text. split; [apply cleanText_no_LF|apply paragraphs_at_most_one].
Qed.

(** C4.  The loop body flushes a pending buffer before the windows of an
    oversized paragraph, but [chunkText] never meets an oversized paragraph
    with a buffer pending: the whole text is its one paragraph, and its
    windows are those of all the words of the text, from the initial state.
    A paragraph of one word, a blank line and a paragraph of five words,
    with [chunkSize = 3] and [overlap = 1], give the three windows of the
    six words together, where the paragraph loop, given the two paragraphs,
    gives the first one as a chunk of its own and then the two windows of
    the second. *)
Theorem pending_buffer_is_never_flushed :
  (forall (fuel : nat) (text : jsstring) (chunkSize overlap : Z),
      words text <> [] -> len (words text) > chunkSize ->
      paragraphsOf (cleanText text) = [join [SP] (words text)]
      /\ chunkText fuel text chunkSize overlap
         = option_map st_chunks
             (window_loop fuel (words text) chunkSize overlap 0 initial_state))
  /\ chunkText 20 (str "a" ++ [LF; LF] ++ str "b c d e f") 3 1
     = Some [mkChunk (str "a b c") 0 0 None; mkChunk (str "c d e") 1 0 None;
             mkChunk (str "e f") 2 0 None]
  /\ option_map st_chunks
       (for_paragraphs 20 3 1 [str "a"; str "b c d e f"] initial_state)
     = Some [mkChunk (str "a") 0 0 None; mkChunk (str "b c d") 1 0 None;
             mkChunk (str "d e f") 2 0 None].
Proof.
  split; [|split; reflexivity].
  intros fuel text chunkSize overlap Hne Hbig.
  split; [now apply paragraphs_single|].
  rewrite chunkText_closed_form.
  destruct (words text) as [|w ws] eqn:E; [congruence|]. cbn [is_empty].
  now replace (len (w :: ws) >? chunkSize) with true
    by (symmetry; rewrite Z.gtb_ltb; apply Z.ltb_lt; lia).
Qed.

(** C2.  A query that repeats a word: [queryWords] holds the word twice,
    the chunk [cat] is found to hold two of the query words and receives
    the bonus for more than one, [2 * 2], on top of [3 + 3].  One distinct
    query word occurs in the chunk. *)
Theorem repeated_query_word_bonus :
  queryWordsOf (str "cat cat") = [str "cat"; str "cat"]
  /\ findRelevantChunks [mkChunk (str "cat") 0 0 None] (str "cat cat") 3
     = Ok [Scored (mkScored (str "cat") 0 0 None 10 10 2)]
  /\ findRelevantChunks [mkChunk (str "cat") 0 0 None] (str "cat") 3
     = Ok [Scored (mkScored (str "cat") 0 0 None 3 3 1)].
Proof. repeat split. Qed.

(** C5.  A query word goes into [new RegExp] as it is.  The word [c++] and
    the word [foo(] are no patterns: the constructor throws and so does
    the call.  The word [c.t] is a pattern that matches [cut]: the chunk
    scores a whole-word match although it does not include the word. *)
Theorem query_word_read_as_pattern :
  RegExp (str "\bc++\b") = SyntaxError
  /\ findRelevantChunks [mkChunk (str "learn c++ today") 0 0 None] (str "c++") 3
     = SyntaxError
  /\ findRelevantChunks [mkChunk (str "call foo( now") 0 0 None] (str "foo(") 3
     = SyntaxError
  /\ includes (str "a cut above") (str "c.t") = false
  /\ exists s,
       findRelevantChunks [mkChunk (str "a cut above") 0 0 None] (str "c.t") 3
       = Ok [Scored s]
       /\ rawScore s = 3%float /\ matchedWords s = 0.
Proof.
  repeat split. eexists. split; [vm_compute; reflexivity|]. split; reflexivity.
Qed.

(** ** The chunker: the chunks as windows of the word sequence *)

(** Up to [chunkSize] words make the single window [0]. *)
Lemma window_all (ws : list jsstring) (S O : Z) :
  len ws <= S -> window ws S O 0 = ws.
Proof.
  intros H. unfold window, stride, slice, rel_index, len in *. cbn [Z.of_nat Z.mul Z.add].
  change (0 <? 0) with false. cbv iota.
  destruct (S <? 0) eqn:E.
  - apply Z.ltb_lt in E. destruct ws; [now rewrite skipn_nil, firstn_nil|].
    cbn [length] in H. lia.
  - apply Z.ltb_ge in E. rewrite (Z.min_l 0) by lia.
    rewrite (Z.min_r S) by lia. rewrite Z.sub_0_r, Nat2Z.id. cbn [Z.to_nat skipn].
    apply firstn_all.
Qed.

(** For [0 <= overlap < chunkSize] the chunks of a text that is not blank
    are the windows [0 .. m] of its words, [m] being the first window that
    reaches the last word. *)
Lemma chunkText_as_windows (text : jsstring) (S O : Z) :
  0 <= O < S -> words text <> [] ->
  exists m : nat,
    (forall j, (j < m)%nat -> Z.of_nat j * stride S O + S < len (words text))
    /\ len (words text) <= Z.of_nat m * stride S O + S
    /\ forall fuel, (length text < fuel)%nat ->
         chunkText fuel text S O
         = Some (window_chunks (words text) S O 0 (Datatypes.S m)).
Proof.
  intros HSO Hne.
  destruct (Z_gt_le_dec (len (words text)) S) as [Hbig|Hsmall].
  - exact (@chunkText_windows text S O HSO Hbig).
  - exists 0%nat. split; [intros j Hj; lia|]. split; [cbn; lia|].
    intros fuel _. rewrite chunkText_closed_form.
    destruct (words text) as [|w ws] eqn:E; [congruence|]. cbn [is_empty].
    rewrite <- E in *.
    replace (len (words text) >? S) with false
      by (symmetry; rewrite Z.gtb_ltb; apply Z.ltb_ge; lia).
    unfold window_chunks. cbn [seq map]. rewrite (@window_all (words text) S O Hsmall).
    reflexivity.
Qed.

Lemma nth_error_window_chunks (ws : list jsstring) (S O first : Z)
    (count j : nat) (c : Chunk) :
  nth_error (window_chunks ws S O first count) j = Some c ->
  (j < count)%nat
  /\ c = mkChunk (join [SP] (window ws S O j)) (first + Z.of_nat j) 0 None.
Proof.
  unfold window_chunks. intros H.
  assert (Hj : (j < count)%nat).
  { assert (H' : nth_error (map (fun j => mkChunk (join [SP] (window ws S O j))
                                     (first + Z.of_nat j) 0 None) (seq 0 count)) j
                 <> None) by congruence.
    apply nth_error_Some in H'. now rewrite length_map, length_seq in H'. }
  split; [exact Hj|].
  rewrite nth_error_map in H.
  rewrite (nth_error_nth' (seq 0 count) 0%nat) in H by (now rewrite length_seq).
  rewrite seq_nth in H by exact Hj. cbn in H. congruence.
Qed.

Lemma window_length_le (ws : list jsstring) (S O : Z) (j : nat) :
  0 <= O <= S -> len (window ws S O j) <= S.
Proof.
  intros H. rewrite (@window_nat ws S O j H). unfold len.
  rewrite length_firstn. lia.
Qed.

(** The loop is stuck at or before index [0] when the stride is not
    positive. *)
Lemma window_loop_stuck (ws : list jsstring) (S O : Z) (fuel : nat) :
  S <= O -> S < len ws -> 0 < len ws ->
  forall (i : Z) (st : state), i <= 0 -> window_loop fuel ws S O i st = None.
Proof.
  intros HO HS Hn. induction fuel as [|fuel IH]; intros i st Hi; [reflexivity|].
  cbn [window_loop].
  replace (i <? len ws) with true by (symmetry; apply Z.ltb_lt; lia).
  replace (i + S >=? len ws) with false
    by (symmetry; rewrite Z.geb_leb; apply Z.leb_gt; lia).
  apply IH. lia.
Qed.

Lemma join_only_SP (W : list jsstring) :
  Forall is_word W ->
  Forall (fun c => is_space c = true -> c = SP) (join [SP] W).
Proof.
  induction 1 as [|w W [_ Hw] HW IH]; [constructor|].
  assert (Hword : Forall (fun c => is_space c = true -> c = SP) w).
  { revert Hw. apply Forall_impl. intros c Hc Hs. congruence. }
  destruct W as [|w' W']; [exact Hword|].
  rewrite join_cons by discriminate.
  apply Forall_app. split; [exact Hword|].
  apply Forall_app. split; [|exact IH]. constructor; [reflexivity|constructor].
Qed.

(** X1.  [chunkText] returns the empty array for a blank text, whatever the
    parameters, and, for [0 <= overlap < chunkSize], for no other text. *)
Theorem blank_text_no_chunk (text : jsstring) :
  (trim text = [] ->
   forall (fuel : nat) (chunkSize overlap : Z),
     chunkText fuel text chunkSize overlap = Some [])
  /\ (forall chunkSize overlap : Z,
        0 <= overlap < chunkSize -> trim text <> [] ->
        exists (c : Chunk) (cs : list Chunk),
          forall fuel, (length text < fuel)%nat ->
            chunkText fuel text chunkSize overlap = Some (c :: cs)).
Proof.
  split.
  - intros H fuel S O. rewrite chunkText_closed_form.
    apply trim_nil_words in H. now rewrite H.
  - intros S O HSO H.
    assert (Hw : words text <> []) by (now rewrite <- trim_nil_words).
    destruct (@chunkText_as_windows text S O HSO Hw) as (m & _ & _ & Hc).
    unfold window_chunks in Hc. cbn [seq map] in Hc. eauto.
Qed.

(** X2.  The normalisation of [chunkText] gives the words of the text joined
    by single spaces: it is idempotent, keeps the words, leaves no
    whitespace at either end, and the only whitespace code unit left is the
    space. *)
Theorem cleanText_normal_form (text : jsstring) :
  cleanText text = join [SP] (words text)
  /\ words (cleanText text) = words text
  /\ cleanText (cleanText text) = cleanText text
  /\ trim (cleanText text) = cleanText text
  /\ Forall (fun c => is_space c = true -> c = SP) (cleanText text)
  /\ (words text <> [] -> split_ws (cleanText text) = words text).
Proof.
  assert (Hw := words_are_words text).
  assert (E : words (cleanText text) = words text).
  { rewrite cleanText_words. now apply words_join. }
  repeat split.
  - apply cleanText_words.
  - exact E.
  - rewrite (cleanText_words (cleanText text)), E. symmetry. apply cleanText_words.
  - rewrite cleanText_words. apply trim_tight. now apply join_tight.
  - rewrite cleanText_words. now apply join_only_SP.
  - intros Hne. rewrite cleanText_words. now apply split_join.
Qed.

(** X3.  A text that is not blank and has at most [chunkSize] words gives
    one chunk, the normalised text with index 0, whatever [overlap] is. *)
Theorem short_text_single_chunk (fuel : nat) (text : jsstring)
    (chunkSize overlap : Z) :
  trim text <> [] -> len (words text) <= chunkSize ->
  chunkText fuel text chunkSize overlap
  = Some [mkChunk (cleanText text) 0 0 None].
Proof.
  intros Hne Hle. rewrite chunkText_closed_form, cleanText_words.
  rewrite trim_nil_words in Hne.
  destruct (words text) as [|w ws] eqn:E; [congruence|]. cbn [is_empty].
  now replace (len (w :: ws) >? chunkSize) with false
    by (symmetry; rewrite Z.gtb_ltb; apply Z.ltb_ge; lia).
Qed.

Lemma short_text_single_chunk_witness :
  chunkText 0 (str "  one   two ") 2 7
  = Some [mkChunk (cleanText (str "  one   two ")) 0 0 None].
Proof.
  apply (@short_text_single_chunk 0 (str "  one   two ") 2 7).
  - vm_compute. discriminate.
  - vm_compute. discriminate.
Defined.

(** X4.  For [0 <= overlap < chunkSize], the chunk at position [j] holds the
    [chunkSize] words of the text from word [j * (chunkSize - overlap)] on
    (fewer at the end of the text), joined by single spaces. *)
Theorem chunk_at_position (text : jsstring) (chunkSize overlap : Z) :
  0 <= overlap < chunkSize ->
  exists chunks,
    (forall fuel, (length text < fuel)%nat ->
       chunkText fuel text chunkSize overlap = Some chunks)
    /\ forall (j : nat) (c : Chunk),
         nth_error chunks j = Some c ->
         let ws := firstn (Z.to_nat chunkSize)
                     (skipn (j * Z.to_nat (chunkSize - overlap)) (words text)) in
         content c = join [SP] ws
         /\ words (content c) = ws
         /\ chunkIndex c = Z.of_nat j
         /\ pageNumber c = 0
         /\ id c = None.
Proof.
  intros HSO.
  destruct (words text) as [|w0 ws0] eqn:E.
  - exists []. split.
    + intros fuel _. rewrite chunkText_closed_form. now rewrite E.
    + intros [|j] c H; discriminate.
  - assert (Hne : words text <> []) by (rewrite E; discriminate).
    destruct (@chunkText_as_windows text chunkSize overlap HSO Hne)
      as (m & _ & _ & Hc).
    rewrite <- E. eexists. split; [exact Hc|].
    intros j c H. apply nth_error_window_chunks in H. destruct H as [_ ->].
    cbn [content chunkIndex pageNumber id].
    rewrite <- (@window_nat (words text) chunkSize overlap j) by lia.
    repeat split; try reflexivity.
    apply window_chunk_words, words_are_words.
Qed.

Lemma chunk_at_position_witness :
  exists chunks,
    (forall fuel, (length (str "a b c d e") < fuel)%nat ->
       chunkText fuel (str "a b c d e") 3 1 = Some chunks)
    /\ forall (j : nat) (c : Chunk),
         nth_error chunks j = Some c ->
         let ws := firstn (Z.to_nat 3)
                     (skipn (j * Z.to_nat (3 - 1)) (words (str "a b c d e"))) in
         content c = join [SP] ws
         /\ words (content c) = ws
         /\ chunkIndex c = Z.of_nat j
         /\ pageNumber c = 0
         /\ id c = None.
Proof. apply (@chunk_at_position (str "a b c d e") 3 1). lia. Defined.

(** X5.  For [0 <= overlap < chunkSize], a text of [n > 0] words gives
    [1 + ceil (max 0 (n - chunkSize) / (chunkSize - overlap))] chunks. *)
Theorem chunk_count (text : jsstring) (chunkSize overlap : Z) :
  0 <= overlap < chunkSize ->
  exists chunks,
    (forall fuel, (length text < fuel)%nat ->
       chunkText fuel text chunkSize overlap = Some chunks)
    /\ len chunks
       = if len (words text) =? 0 then 0
         else 1 + (Z.max 0 (len (words text) - chunkSize)
                   + (chunkSize - overlap) - 1) / (chunkSize - overlap).
Proof.
  intros HSO.
  destruct (words text) as [|w0 ws0] eqn:E.
  - exists []. split; [|reflexivity].
    intros fuel _. rewrite chunkText_closed_form. now rewrite E.
  - assert (Hne : words text <> []) by (rewrite E; discriminate).
    destruct (@chunkText_as_windows text chunkSize overlap HSO Hne)
      as (m & Hlt & Hle & Hc).
    rewrite <- E. eexists. split; [exact Hc|].
    assert (Hpos : 0 < len (words text)) by (rewrite E; unfold len; cbn; lia).
    replace (len (words text) =? 0) with false by (symmetry; apply Z.eqb_neq; lia).
    unfold window_chunks, len at 1. rewrite length_map, length_seq.
    unfold stride in *.
    set (n := len (words text)) in *. set (d := chunkSize - overlap) in *.
    assert (Hd : 0 < d) by (unfold d; lia).
    assert (Hm : Z.of_nat m = (Z.max 0 (n - chunkSize) + d - 1) / d).
    { apply (Z.div_unique_pos _ d (Z.of_nat m)
               (Z.max 0 (n - chunkSize) + d - 1 - d * Z.of_nat m)); [|lia].
      destruct m as [|m'].
      - assert (n <= chunkSize) by lia. rewrite Z.max_l by lia. lia.
      - assert (H1 := Hlt m' (Nat.lt_succ_diag_r m')).
        rewrite Z.max_r by nia. nia. }
    rewrite <- Hm. lia.
Qed.

Lemma chunk_count_witness :
  exists chunks,
    (forall fuel, (length (str "a b c d e f") < fuel)%nat ->
       chunkText fuel (str "a b c d e f") 3 1 = Some chunks)
    /\ len chunks
       = if len (words (str "a b c d e f")) =? 0 then 0
         else 1 + (Z.max 0 (len (words (str "a b c d e f")) - 3)
                   + (3 - 1) - 1) / (3 - 1).
Proof. apply (@chunk_count (str "a b c d e f") 3 1). lia. Defined.

(** X6.  For [0 <= overlap < chunkSize], every chunk holds between one and
    [chunkSize] words, single-spaced with no whitespace at either end, and
    every chunk but the last holds exactly [chunkSize] words. *)
Theorem chunk_sizes (text : jsstring) (chunkSize overlap : Z) :
  0 <= overlap < chunkSize ->
  exists chunks,
    (forall fuel, (length text < fuel)%nat ->
       chunkText fuel text chunkSize overlap = Some chunks)
    /\ (forall c, In c chunks ->
          1 <= len (words (content c)) <= chunkSize
          /\ content c = join [SP] (words (content c))
          /\ trim (content c) = content c
          /\ content c <> [])
    /\ (forall (j : nat) (c : Chunk),
          nth_error chunks j = Some c -> (S j < length chunks)%nat ->
          len (words (content c)) = chunkSize).
Proof.
  intros HSO.
  destruct (words text) as [|w0 ws0] eqn:E.
  - exists []. split; [|split].
    + intros fuel _. rewrite chunkText_closed_form. now rewrite E.
    + intros c [].
    + intros [|j] c H; discriminate.
  - assert (Hne : words text <> []) by (rewrite E; discriminate).
    destruct (@chunkText_as_windows text chunkSize overlap HSO Hne)
      as (m & Hlt & Hle & Hc).
    eexists. split; [exact Hc|].
    assert (Hw := words_are_words text).
    split.
    + intros c Hin. apply In_nth_error in Hin. destruct Hin as [j Hj].
      apply nth_error_window_chunks in Hj. destruct Hj as [Hj ->].
      cbn [content].
      assert (Hwin : Forall is_word (window (words text) chunkSize overlap j))
        by (now apply window_words).
      assert (Hnz : window (words text) chunkSize overlap j <> []).
      { apply window_nonempty; [lia|].
        destruct (Nat.eq_dec j 0) as [->|Hj0].
        - rewrite E. unfold len. cbn. lia.
        - assert (H1 := Hlt (j - 1)%nat). unfold stride in *. nia. }
      rewrite (window_chunk_words chunkSize overlap j Hw).
      repeat split.
      * destruct (window (words text) chunkSize overlap j); [congruence|].
        unfold len. cbn. lia.
      * apply window_length_le. lia.
      * apply trim_tight. now apply join_tight.
      * now apply join_nonempty.
    + intros j c Hj Hlast. apply nth_error_window_chunks in Hj.
      destruct Hj as [_ ->]. cbn [content].
      rewrite (window_chunk_words chunkSize overlap j Hw).
      unfold window_chunks in Hlast. rewrite length_map, length_seq in Hlast.
      unfold len. rewrite window_full; [lia|lia|].
      assert (H1 := Hlt j). lia.
Qed.

Lemma chunk_sizes_witness :
  exists chunks,
    (forall fuel, (length (str "a b c d e") < fuel)%nat ->
       chunkText fuel (str "a b c d e") 3 1 = Some chunks)
    /\ (forall c, In c chunks ->
          1 <= len (words (content c)) <= 3
          /\ content c = join [SP] (words (content c))
          /\ trim (content c) = content c
          /\ content c <> [])
    /\ (forall (j : nat) (c : Chunk),
          nth_error chunks j = Some c -> (S j < length chunks)%nat ->
          len (words (content c)) = 3).
Proof. apply (@chunk_sizes (str "a b c d e") 3 1). lia. Defined.

(** X7.  [chunkText] reads its text only through the sequence of its words:
    two texts with the same words, however spaced or broken into lines,
    give the same chunks. *)
Theorem chunkText_reads_words (fuel : nat) (text1 text2 : jsstring)
    (chunkSize overlap : Z) :
  words text1 = words text2 ->
  chunkText fuel text1 chunkSize overlap = chunkText fuel text2 chunkSize overlap.
Proof. intros H. rewrite !chunkText_closed_form. now rewrite H. Qed.

Lemma chunkText_reads_words_witness :
  chunkText 9 (str "a b  c") 2 1 = chunkText 9 ([LF] ++ str "a" ++ [TAB] ++ str "b" ++ [CR; LF; LF] ++ str "c ") 2 1.
Proof.
  apply (@chunkText_reads_words 9 (str "a b  c")
           ([LF] ++ str "a" ++ [TAB] ++ str "b" ++ [CR; LF; LF] ++ str "c ") 2 1).
  vm_compute. reflexivity.
Defined.

(** X8.  With [overlap >= chunkSize] the window loop never advances: on a
    text of more than [chunkSize] words (and at least one) [chunkText] does
    not return, however many iterations it is given. *)
Theorem no_stride_no_result (fuel : nat) (text : jsstring)
    (chunkSize overlap : Z) :
  chunkSize <= overlap -> trim text <> [] -> len (words text) > chunkSize ->
  chunkText fuel text chunkSize overlap = None.
Proof.
  intros HO Hne Hbig. rewrite chunkText_closed_form.
  rewrite trim_nil_words in Hne.
  destruct (words text) as [|w ws] eqn:E; [congruence|]. cbn [is_empty].
  rewrite <- E in *.
  replace (len (words text) >? chunkSize) with true
    by (symmetry; rewrite Z.gtb_ltb; apply Z.ltb_lt; lia).
  rewrite (@window_loop_stuck (words text) chunkSize overlap fuel);
    try lia; [reflexivity|].
  rewrite E. unfold len. cbn. lia.
Qed.

Lemma no_stride_no_result_witness :
  chunkText 1000 (str "a b c") 2 2 = None.
Proof.
  apply (@no_stride_no_result 1000 (str "a b c") 2 2).
  - lia.
  - vm_compute. discriminate.
  - vm_compute. reflexivity.
Defined.

(** ** The ranker: what a plain query can match *)

Lemma rmatch_literal_miss (w : jsstring) (tail : regex) :
  forall (prev : option ascii) (s : jsstring)
         (k : option ascii -> jsstring -> option position),
    starts_with w s = false -> rmatch (literal w tail) prev s k = None.
Proof.
  induction w as [|c w IH]; intros prev s k H; [discriminate|].
  cbn [literal rmatch]. destruct s as [|d s]; [reflexivity|].
  cbn [on_char]. cbn [starts_with] in H.
  destruct (Ascii.eqb c d); [|reflexivity]. cbn [andb] in H. now apply IH.
Qed.

Lemma includes_miss (s w : jsstring) :
  includes s w = false ->
  starts_with w s = false
  /\ match s with [] => True | _ :: s' => includes s' w = false end.
Proof.
  destruct s as [|c s]; cbn [includes]; intros H; apply orb_false_iff in H;
    destruct H as [H1 H2]; auto.
Qed.

(** A pattern that needs the word at the place where it matches counts no
    match in a text that does not hold the word. *)
Lemma count_from_miss (r : regex) (w : jsstring) :
  (forall prev s k, starts_with w s = false -> rmatch r prev s k = None) ->
  forall (fuel : nat) (prev : option ascii) (s : jsstring),
    includes s w = false -> count_from fuel r prev s = 0%nat.
Proof.
  intros Hr. induction fuel as [|fuel IH]; intros prev s H; [reflexivity|].
  cbn [count_from]. destruct (includes_miss s w H) as [H1 H2].
  rewrite (Hr prev s _ H1). destruct s as [|c t]; [reflexivity|]. now apply IH.
Qed.

Lemma match_count_miss (w text : jsstring) :
  includes text w = false ->
  match_count (literal w REmpty) text = 0
  /\ match_count (RSeq (RAssert AWordBoundary)
                       (literal w (RSeq (RAssert AWordBoundary) REmpty))) text = 0.
Proof.
  intros H. unfold match_count. split.
  - rewrite (@count_from_miss (literal w REmpty) w); [reflexivity| |exact H].
    intros prev s k Hs. now apply rmatch_literal_miss.
  - rewrite (@count_from_miss _ w); [reflexivity| |exact H].
    intros prev s k Hs. cbn [rmatch].
    destruct (holds AWordBoundary prev s); [|reflexivity].
    now apply rmatch_literal_miss.
Qed.

#[local] Set Warnings "-inexact-float".

Lemma no_match_no_score :
  (0 + number 0 * 3 + Math_max 0 (number 0 - number 0) * 1.5)%float = 0%float.
Proof. vm_compute. reflexivity. Qed.

Lemma accumulate_miss (queryWords : list jsstring) (text : jsstring) :
  Forall (Forall (fun c => plain_char c = true)) queryWords ->
  Forall (fun w => includes text w = false) queryWords ->
  accumulate queryWords text 0%float = Ok 0%float.
Proof.
  induction 1 as [|w ws Hw _ IH]; intros Hmiss; [reflexivity|].
  inversion Hmiss as [|? ? H1 H2]; subst. cbn [accumulate].
  destruct (@RegExp_plain_word w Hw) as [E1 E2]. rewrite E2, E1.
  destruct (@match_count_miss w text H1) as [M1 M2]. rewrite M1, M2.
  rewrite no_match_no_score. now apply IH.
Qed.

(** Zero divided and then multiplied by anything is not above zero: the
    result is a zero or NaN. *)
Lemma zero_score_not_positive (x y : float) :
  (0 <? (0 / x * y))%float = false.
Proof.
  rewrite ltb_spec, mul_spec, div_spec, Prim2SF_zero.
  destruct (Prim2SF x) as [sx|sx| |sx mx ex]; destruct (Prim2SF y) as [sy|sy| |sy my ey];
    reflexivity.
Qed.

Lemma filter_nil_Forall {A} (p : A -> bool) (l : list A) :
  filter p l = [] -> Forall (fun x => p x = false) l.
Proof.
  induction l as [|x l IH]; cbn [filter]; intros H; [constructor|].
  destruct (p x) eqn:E; [discriminate|]. constructor; auto.
Qed.

(** A chunk scored above zero by plain query words holds one of them. *)
Lemma scoreChunk_positive (queryWords : list jsstring) (total : Z)
    (c : Chunk) (index : Z) (s : ScoredChunk) :
  Forall (Forall (fun ch => plain_char ch = true)) queryWords ->
  scoreChunk queryWords total c index = Ok s ->
  (0 <? score s)%float = true ->
  s_content s = content c
  /\ 1 <= matchedWords s
  /\ exists w, In w queryWords /\ includes (toLowerCase (content c)) w = true.
Proof.
  intros Hplain Hs Hpos. unfold scoreChunk in Hs.
  destruct (filter (fun w => includes (toLowerCase (content c)) w) queryWords)
    as [|w found] eqn:F.
  - apply filter_nil_Forall in F.
    rewrite (@accumulate_miss queryWords (toLowerCase (content c)) Hplain F) in Hs.
    change (len (@nil jsstring) >? 1) with false in Hs. cbv iota in Hs.
    inversion Hs; subst. cbn [score] in Hpos.
    now rewrite zero_score_not_positive in Hpos.
  - destruct (accumulate queryWords (toLowerCase (content c)) 0) as [s0| |];
      try discriminate.
    inversion Hs; subst. cbn [s_content matchedWords].
    split; [reflexivity|]. split; [unfold len; cbn [length]; lia|].
    exists w.
    assert (Hin : In w (filter (fun w => includes (toLowerCase (content c)) w)
                          queryWords)) by (rewrite F; now left).
    apply filter_In in Hin. exact Hin.
Qed.

Lemma slice_0_firstn {A} (l : list A) (n : Z) :
  exists k : nat, slice l 0 n = firstn k l.
Proof.
  unfold slice, rel_index. change (0 <? 0) with false. cbv iota.
  rewrite (Z.min_l 0) by lia. cbn [Z.to_nat skipn]. eauto.
Qed.

Lemma scoreChunks_chunks (queryWords : list jsstring) (total : Z)
    (chunks : list Chunk) :
  forall (k : Z) (scored : list ScoredChunk),
    scoreChunks queryWords total chunks k = Ok scored ->
    map (fun s => chunk_of (Scored s)) scored = chunks.
Proof.
  induction chunks as [|c chunks IH]; intros k scored H; cbn [scoreChunks] in H.
  - now inversion H.
  - destruct (scoreChunk queryWords total c k) as [s| |] eqn:E; try discriminate.
    destruct (scoreChunks queryWords total chunks (k + 1)) as [scs| |] eqn:E';
      try discriminate.
    inversion H; subst. cbn [map]. f_equal; [now apply (@scoreChunk_chunk _ _ _ _ _ E)|].
    now apply (IH (k + 1) scs).
Qed.

Lemma filter_complement_perm {A} (p : A -> bool) (l : list A) :
  Permutation (filter p l ++ filter (fun x => negb (p x)) l) l.
Proof.
  induction l as [|x l IH]; [constructor|]. cbn [filter].
  destruct (p x); cbn [negb app].
  - now constructor.
  - apply Permutation_sym, Permutation_cons_app, Permutation_sym, IH.
Qed.

Lemma lower_char_is_space (c : ascii) : is_space (lower_char c) = is_space c.
Proof.
  destruct c as [[|] [|] [|] [|] [|] [|] [|] [|]]; vm_compute; reflexivity.
Qed.

Lemma split_from_map (f : ascii -> ascii) (sep : ascii -> bool) :
  (forall c, sep (f c) = sep c) ->
  forall (s : jsstring) (b : bool),
    split_from sep b (map f s) = map (map f) (split_from sep b s).
Proof.
  intros Hf. induction s as [|c s IH]; intros b; [reflexivity|].
  cbn [map split_from]. rewrite Hf. destruct (sep c).
  - destruct b; rewrite IH; reflexivity.
  - rewrite IH. destruct (split_from sep false s); reflexivity.
Qed.

Lemma filter_filter_weaker {A} (p q : A -> bool) (l : list A) :
  (forall x, p x = true -> q x = true) -> filter p (filter q l) = filter p l.
Proof.
  intros H. induction l as [|x l IH]; [reflexivity|]. cbn [filter].
  destruct (q x) eqn:Q; cbn [filter].
  - now rewrite IH.
  - destruct (p x) eqn:P; [apply H in P; congruence|exact IH].
Qed.

(** The query words are read off the lowercased words of the query. *)
Lemma queryWordsOf_words (query : jsstring) :
  queryWordsOf query
  = filter (fun w => (len w >? 2) && negb (has stopWords w))
           (map toLowerCase (words query)).
Proof.
  unfold queryWordsOf, toLowerCase at 1, split_ws at 1.
  rewrite (@split_from_map lower_char is_space lower_char_is_space).
  fold (split_ws query). unfold words.
  change (map lower_char) with toLowerCase.
  rewrite <- (@filter_filter_weaker _ _ (fun f => negb (is_empty f))
                (map toLowerCase (split_ws query))).
  - f_equal. induction (split_ws query) as [|f fs IH]; [reflexivity|].
    cbn [map filter]. destruct f; cbn [toLowerCase map is_empty negb]; now rewrite IH.
  - intros [|c x]; [discriminate|reflexivity].
Qed.

Lemma firstn_prefix_map {A B} (f : A -> B) (l : list A) (a b : nat) :
  (a <= b)%nat -> map f (firstn a l) = firstn a (map f (firstn b l)).
Proof.
  intros H. rewrite firstn_map, firstn_firstn. now rewrite Nat.min_l.
Qed.

Lemma findRelevantChunks_returns_witness :
  plain_query (str "the CAT mat")
  /\ exists result, findRelevantChunks sample_chunks (str "the CAT mat") 2 = Ok result.
Proof.
  assert (H : plain_query (str "the CAT mat")).
  { unfold plain_query. repeat constructor. }
  split; [exact H|].
  exact (@findRelevantChunks_returns sample_chunks (str "the CAT mat") 2 H).
Defined.

(** X10.  On a query without pattern characters, every record of a ranked
    result is of a chunk that holds, in its lowercased content, at least one
    of the query words: its [matchedWords] is at least 1. *)
Theorem returned_chunks_hold_a_query_word (chunks : list Chunk)
    (query : jsstring) (maxChunks : Z) (result : list ChunkObject) :
  plain_query query -> queryWordsOf query <> [] ->
  findRelevantChunks chunks query maxChunks = Ok result ->
  forall r, In r result ->
    exists (s : ScoredChunk) (w : jsstring),
      r = Scored s
      /\ In w (queryWordsOf query)
      /\ includes (toLowerCase (s_content s)) w = true
      /\ 1 <= matchedWords s.
Proof.
  intros Hplain Hq H r Hr. unfold findRelevantChunks in H.
  destruct (is_empty chunks || is_empty query); [inversion H; subst; destruct Hr|].
  destruct (queryWordsOf query) as [|w0 ws0] eqn:Q; [congruence|]. cbn [is_empty] in H.
  rewrite <- Q in *.
  destruct (scoreChunks (queryWordsOf query) (len chunks) chunks 0)
    as [scored| |] eqn:E; try discriminate.
  inversion H; subst. apply in_map_iff in Hr. destruct Hr as (s & <- & Hs).
  apply In_slice, In_sort, filter_In in Hs. destruct Hs as [Hs Hpos].
  destruct (@scoreChunks_nth _ _ _ _ _ E s Hs) as (i & c & _ & Hc).
  destruct (@scoreChunk_positive _ _ _ _ _ (@plain_query_words query Hplain) Hc Hpos)
    as (Hcontent & Hm & w & Hw & Hin).
  exists s, w. rewrite Hcontent. auto.
Qed.

Lemma returned_chunks_hold_a_query_word_witness :
  exists result,
    findRelevantChunks sample_chunks (str "the CAT mat") 2 = Ok result
    /\ forall r, In r result ->
         exists (s : ScoredChunk) (w : jsstring),
           r = Scored s
           /\ In w (queryWordsOf (str "the CAT mat"))
           /\ includes (toLowerCase (s_content s)) w = true
           /\ 1 <= matchedWords s.
Proof.
  eexists. split; [vm_compute; reflexivity|].
  apply (@returned_chunks_hold_a_query_word sample_chunks (str "the CAT mat") 2).
  - unfold plain_query. repeat constructor.
  - vm_compute. discriminate.
  - vm_compute. reflexivity.
Defined.

(** X11.  Asking for fewer chunks gives a prefix: for [0 <= m <= m'] the
    result for [m] is the first [m] records of the result for [m'], and
    the call throws for [m] exactly when it throws for [m']. *)
Theorem fewer_chunks_is_a_prefix (chunks : list Chunk) (query : jsstring)
    (m m' : Z) :
  0 <= m <= m' ->
  match findRelevantChunks chunks query m' with
  | Ok result' =>
      findRelevantChunks chunks query m = Ok (firstn (Z.to_nat m) result')
  | SyntaxError => findRelevantChunks chunks query m = SyntaxError
  | Unsupported => findRelevantChunks chunks query m = Unsupported
  end.
Proof.
  intros Hm. unfold findRelevantChunks.
  destruct (is_empty chunks || is_empty query); [now rewrite firstn_nil|].
  destruct (is_empty (queryWordsOf query)).
  - rewrite !slice_prefix by lia. f_equal. apply firstn_prefix_map. lia.
  - destruct (scoreChunks (queryWordsOf query) (len chunks) chunks 0);
      try reflexivity.
    rewrite !slice_prefix by lia. f_equal. apply firstn_prefix_map. lia.
Qed.

Lemma fewer_chunks_is_a_prefix_witness :
  match findRelevantChunks sample_chunks (str "cat") 3 with
  | Ok result' =>
      findRelevantChunks sample_chunks (str "cat") 1 = Ok (firstn (Z.to_nat 1) result')
  | SyntaxError => findRelevantChunks sample_chunks (str "cat") 1 = SyntaxError
  | Unsupported => findRelevantChunks sample_chunks (str "cat") 1 = Unsupported
  end.
Proof. apply (@fewer_chunks_is_a_prefix sample_chunks (str "cat") 1 3). lia. Defined.

(** X12.  The ranker reads a non-empty query only through its lowercased
    words: letter case and the whitespace between and around the words make
    no difference to the result. *)
Theorem query_case_and_spacing (chunks : list Chunk) (query1 query2 : jsstring)
    (maxChunks : Z) :
  query1 <> [] -> query2 <> [] ->
  map toLowerCase (words query1) = map toLowerCase (words query2) ->
  findRelevantChunks chunks query1 maxChunks
  = findRelevantChunks chunks query2 maxChunks.
Proof.
  intros H1 H2 H. unfold findRelevantChunks.
  rewrite !queryWordsOf_words, H.
  destruct query1; [congruence|]. destruct query2; [congruence|]. reflexivity.
Qed.

Lemma query_case_and_spacing_witness :
  findRelevantChunks sample_chunks (str "  The CAT   mat ") 2
  = findRelevantChunks sample_chunks (str "the cat Mat") 2.
Proof.
  apply (@query_case_and_spacing sample_chunks (str "  The CAT   mat ")
           (str "the cat Mat") 2).
  - discriminate.
  - discriminate.
  - vm_compute. reflexivity.
Defined.

(** X13.  The records returned are of distinct positions of the input: the
    chunks of the result, together with some others, are a rearrangement of
    the input, so no chunk is returned twice and the result is no longer
    than the input. *)
Theorem result_is_a_selection (chunks : list Chunk) (query : jsstring)
    (maxChunks : Z) (result : list ChunkObject) :
  findRelevantChunks chunks query maxChunks = Ok result ->
  (exists rest, Permutation (map chunk_of result ++ rest) chunks)
  /\ len result <= len chunks.
Proof.
  intros H.
  assert (Hperm : exists rest, Permutation (map chunk_of result ++ rest) chunks).
  { unfold findRelevantChunks in H.
    destruct (is_empty chunks || is_empty query).
    { inversion H; subst. exists chunks. apply Permutation_refl. }
    destruct (is_empty (queryWordsOf query)).
    - inversion H; subst. destruct (slice_0_firstn chunks maxChunks) as [k ->].
      exists (skipn k chunks). rewrite map_map.
      rewrite (map_ext _ (fun c => c)) by (intros c; apply copyChunk_id).
      rewrite map_id, firstn_skipn. apply Permutation_refl.
    - destruct (scoreChunks (queryWordsOf query) (len chunks) chunks 0)
        as [scored| |] eqn:E; try discriminate.
      inversion H; subst.
      set (p := fun c : ScoredChunk => (0 <? score c)%float).
      destruct (slice_0_firstn (sort compareChunks (filter p scored)) maxChunks)
        as [k ->].
      exists (map (fun s => chunk_of (Scored s))
                (skipn k (sort compareChunks (filter p scored))
                 ++ filter (fun x => negb (p x)) scored)).
      rewrite map_map, <- map_app, <- (@scoreChunks_chunks _ _ _ _ _ E).
      apply Permutation_map. rewrite app_assoc, firstn_skipn.
      eapply Permutation_trans; [|apply (filter_complement_perm p)].
      apply Permutation_app_tail. apply sort_perm. }
  split; [exact Hperm|].
  destruct Hperm as [rest Hperm]. apply Permutation_length in Hperm.
  rewrite length_app, length_map in Hperm. unfold len. lia.
Qed.

Lemma result_is_a_selection_witness :
  exists result,
    findRelevantChunks sample_chunks (str "cat") 2 = Ok result
    /\ (exists rest, Permutation (map chunk_of result ++ rest) sample_chunks)
    /\ len result <= len sample_chunks.
Proof.
  eexists. split; [vm_compute; reflexivity|].
  apply (@result_is_a_selection sample_chunks (str "cat") 2).
  vm_compute. reflexivity.
Defined.

(** X14.  The ranker on the chunks of [chunkText]: the [chunkIndex] of every
    record returned is the position, in the chunk array, of the chunk the
    record was made from. *)
Theorem chunkIndex_locates_chunk (text : jsstring) (chunkSize overlap : Z)
    (query : jsstring) (maxChunks : Z) :
  0 <= overlap < chunkSize ->
  exists chunks,
    (forall fuel, (length text < fuel)%nat ->
       chunkText fuel text chunkSize overlap = Some chunks)
    /\ forall result,
         findRelevantChunks chunks query maxChunks = Ok result ->
         forall r, In r result ->
           0 <= chunkIndex (chunk_of r) < len chunks
           /\ nth_error chunks (Z.to_nat (chunkIndex (chunk_of r)))
              = Some (chunk_of r).
Proof.
  intros HSO. destruct (@chunkText_returns text chunkSize overlap HSO) as [chunks Hc].
  exists chunks. split; [exact Hc|]. intros result H r Hr.
  destruct (@findRelevantChunks_provenance _ _ _ _ H r Hr) as (i & c & Hi & Hco & _).
  assert (Hd : dense chunks).
  { apply (@chunkText_dense (S (length text)) text chunkSize overlap). apply Hc. lia. }
  rewrite Hco, (@dense_nth _ _ _ Hd Hi), Nat2Z.id.
  assert (Hlt : nth_error chunks i <> None) by congruence.
  apply nth_error_Some in Hlt. unfold len. split; [lia|exact Hi].
Qed.

Lemma chunkIndex_locates_chunk_witness :
  exists chunks,
    (forall fuel, (length (str "a cat b cat c") < fuel)%nat ->
       chunkText fuel (str "a cat b cat c") 2 1 = Some chunks)
    /\ forall result,
         findRelevantChunks chunks (str "cat") 3 = Ok result ->
         forall r, In r result ->
           0 <= chunkIndex (chunk_of r) < len chunks
           /\ nth_error chunks (Z.to_nat (chunkIndex (chunk_of r)))
              = Some (chunk_of r).
Proof. apply (@chunkIndex_locates_chunk (str "a cat b cat c") 2 1 (str "cat") 3). lia. Defined.

(** ** The ranker: when a [RegExp] constructor throws *)

Lemma some_pattern_character (queryWords : list jsstring) :
  Forall (Forall (fun c => plain_char c = true)) queryWords
  \/ Exists (Exists (fun c => plain_char c = false)) queryWords.
Proof.
  induction queryWords as [|w ws IH]; [left; constructor|].
  assert (Hw : Forall (fun c => plain_char c = true) w
               \/ Exists (fun c => plain_char c = false) w).
  { clear. induction w as [|c w IH]; [left; constructor|].
    destruct (plain_char c) eqn:E; [|right; now constructor].
    destruct IH as [IH|IH]; [left; now constructor|right; now constructor 2]. }
  destruct Hw as [Hw|Hw]; [|right; now constructor].
  destruct IH as [IH|IH]; [left; now constructor|right; now constructor 2].
Qed.

Lemma quantifier_cases (c : ascii) :
  char_is c "*+?" = true -> c = "*"%char \/ c = "+"%char \/ c = "?"%char.
Proof.
  unfold char_is. cbn [list_ascii_of_string existsb].
  rewrite !orb_true_iff, !Ascii.eqb_eq. intuition discriminate.
Qed.

(** A word that begins with a quantifier has nothing to repeat after the
    word boundary: the first pattern built from it is refused. *)
Lemma RegExp_leading_quantifier (c : ascii) (w : jsstring) :
  char_is c "*+?" = true ->
  RegExp ([BS; "b"%char] ++ (c :: w) ++ [BS; "b"%char]) = SyntaxError.
Proof.
  intros Hc. unfold RegExp.
  match goal with
  | |- context [parse_disjunction ?n _] =>
      replace n
        with (Datatypes.S (Datatypes.S (Datatypes.S (Datatypes.S (4 * length w + 20)))))
        by (rewrite !length_app; cbn [length]; lia)
  end.
  cbn [app].
  cbn [parse_disjunction]. rewrite parse_alternative_boundary by lia.
  destruct (quantifier_cases c Hc) as [->|[->| ->]]; reflexivity.
Qed.

(** X15.  [findRelevantChunks] can throw only while it scores: when it does
    not return an array, the chunk array and the query are not empty and
    some query word that survived tokenization holds a pattern character
    (one of [^$\.*+?()[]{}|]). *)
Theorem throws_only_on_pattern_words (chunks : list Chunk) (query : jsstring)
    (maxChunks : Z) :
  (forall result, findRelevantChunks chunks query maxChunks <> Ok result) ->
  chunks <> [] /\ query <> []
  /\ Exists (Exists (fun c => plain_char c = false)) (queryWordsOf query).
Proof.
  intros H. unfold findRelevantChunks in H.
  destruct chunks as [|c0 cs]; [exfalso; now apply (H [])|].
  destruct query as [|q0 qs]; [exfalso; now apply (H [])|].
  cbn [is_empty orb] in H.
  split; [discriminate|]. split; [discriminate|].
  destruct (some_pattern_character (queryWordsOf (q0 :: qs))) as [Hp|Hp];
    [exfalso|exact Hp].
  destruct (is_empty (queryWordsOf (q0 :: qs))); [now eapply H|].
  destruct (@scoreChunks_plain (queryWordsOf (q0 :: qs)) (len (c0 :: cs))
              (c0 :: cs) Hp 0) as [scored E].
  rewrite E in H. now eapply H.
Qed.

Lemma throws_only_on_pattern_words_witness :
  sample_chunks <> [] /\ str "learn c++" <> []
  /\ Exists (Exists (fun c => plain_char c = false)) (queryWordsOf (str "learn c++")).
Proof.
  apply (@throws_only_on_pattern_words sample_chunks (str "learn c++") 3).
  intros result H. vm_compute in H. discriminate.
Defined.

(** X16.  A query whose first surviving word begins with [*], [+] or [?]
    makes [findRelevantChunks] throw a [SyntaxError] on every chunk array
    that is not empty. *)
Theorem leading_quantifier_throws (chunks : list Chunk) (query : jsstring)
    (maxChunks : Z) (c : ascii) (w : jsstring) (ws : list jsstring) :
  chunks <> [] -> queryWordsOf query = (c :: w) :: ws ->
  char_is c "*+?" = true ->
  findRelevantChunks chunks query maxChunks = SyntaxError.
Proof.
  intros Hc Hq Hquant. unfold findRelevantChunks.
  destruct chunks as [|c0 cs]; [congruence|].
  destruct query as [|q0 qs]; [rewrite queryWordsOf_empty in Hq; discriminate|].
  cbn [is_empty orb]. rewrite Hq. cbn [is_empty scoreChunks].
  unfold scoreChunk. cbn [accumulate].
  now rewrite (@RegExp_leading_quantifier c w Hquant).
Qed.

Lemma leading_quantifier_throws_witness :
  findRelevantChunks sample_chunks (str "the +cat") 3 = SyntaxError.
Proof.
  apply (@leading_quantifier_throws sample_chunks (str "the +cat") 3
           "+"%char (str "cat") []).
  - discriminate.
  - vm_compute. reflexivity.
  - reflexivity.
Defined.

(** ** The ranker: the substring pattern and [includes] *)

Lemma rmatch_literal_hit (w : jsstring) :
  forall (prev : option ascii) (s : jsstring),
    starts_with w s = true ->
    exists p, rmatch (literal w REmpty) prev s (fun prev' s' => Some (prev', s'))
              = Some p.
Proof.
  induction w as [|c w IH]; intros prev s H; cbn [literal rmatch]; [eauto|].
  destruct s as [|d s]; [discriminate|]. cbn [starts_with] in H.
  apply andb_true_iff in H. destruct H as [H1 H2].
  cbn [on_char]. rewrite H1. now apply IH.
Qed.

Lemma count_from_hit (w : jsstring) (s : jsstring) :
  forall (fuel : nat) (prev : option ascii),
    (length s < fuel)%nat -> includes s w = true ->
    (1 <= count_from fuel (literal w REmpty) prev s)%nat.
Proof.
  induction s as [|c s IH]; intros fuel prev Hfuel H;
    (destruct fuel as [|fuel]; [cbn [length] in Hfuel; lia|]);
    cbn [count_from]; cbn [includes] in H.
  - rewrite orb_false_r in H.
    destruct (rmatch_literal_hit w prev [] H) as [[p' s'] ->].
    destruct (Nat.eqb (length s') (length (@nil ascii))); lia.
  - destruct (starts_with w (c :: s)) eqn:E.
    + destruct (rmatch_literal_hit w prev (c :: s) E) as [[p' s'] ->].
      destruct (Nat.eqb (length s') (length (c :: s))); lia.
    + rewrite (@rmatch_literal_miss w REmpty prev (c :: s) _ E).
      cbn [orb] in H. apply IH; [cbn [length] in Hfuel; lia|exact H].
Qed.

(** X17.  For a query word without pattern characters the two tests of the
    scoring loop agree: the chunk content includes the word exactly when
    the pattern built from the word finds at least one match, so
    [matchedWords] counts the words with a partial match. *)
Theorem includes_iff_partial_match (word content : jsstring) :
  Forall (fun c => plain_char c = true) word ->
  exists partial,
    RegExp word = Ok partial
    /\ (includes content word = true <-> 1 <= match_count partial content).
Proof.
  intros Hw. destruct (@RegExp_plain_word word Hw) as [E _].
  exists (literal word REmpty). split; [exact E|]. split.
  - intros H. unfold match_count.
    assert (H1 := @count_from_hit word content (S (length content)) None
                    (Nat.lt_succ_diag_r _) H). lia.
  - intros H. destruct (includes content word) eqn:E'; [reflexivity|].
    destruct (@match_count_miss word content E') as [M _]. lia.
Qed.

Lemma includes_iff_partial_match_witness :
  exists partial,
    RegExp (str "cat") = Ok partial
    /\ (includes (str "a category") (str "cat") = true
        <-> 1 <= match_count partial (str "a category")).
Proof.
  apply (@includes_iff_partial_match (str "cat") (str "a category")).
  repeat constructor.
Defined.

(** ** The upload pipeline: theorems *)

Lemma storeChunks_windows (ws : list jsstring) (S O : Z) (count : nat) :
  forall k : nat,
    storeChunks
      (map (fun j => mkChunk (join [SP] (window ws S O j)) (0 + Z.of_nat j) 0 None)
           (seq k count)) (Z.of_nat k)
    = map stored
        (map (fun j => mkChunk (join [SP] (window ws S O j)) (0 + Z.of_nat j) 0 None)
             (seq k count)).
Proof.
  induction count as [|count IH]; intros k; [reflexivity|].
  cbn [seq map storeChunks]. unfold stored at 1. cbn [content chunkIndex pageNumber].
  f_equal. replace (Z.of_nat k + 1) with (Z.of_nat (Datatypes.S k)) by lia.
  apply IH.
Qed.

(** X18.  [processPDF] sends the store at most two updates.  When the text
    cannot be extracted or is blank, the one update marks the document
    failed.  Otherwise the first update marks it ready with the text and
    the chunks of [chunkText(text, 500, 50)]: at least one chunk, and each
    stored with the content, index and page number [chunkText] gave it (the
    renumbering changes nothing); the document is then marked failed only
    if the store rejects that update. *)
Theorem processPDF_updates (readFile : jsstring -> option Buffer)
    (pdfParse : Buffer -> option PdfData)
    (accepts : ObjectId -> DocumentUpdate -> bool)
    (documentId : ObjectId) (filePath : jsstring) :
  match extractTextFromPDF readFile pdfParse filePath with
  | Throws _ =>
      forall fuel,
        processPDF fuel readFile pdfParse accepts documentId filePath
        = Some ([(documentId, Failed)],
                if accepts documentId Failed then Resolved else Rejected)
  | Returns extracted =>
      if is_empty (trim (text extracted)) then
        forall fuel,
          processPDF fuel readFile pdfParse accepts documentId filePath
          = Some ([(documentId, Failed)],
                  if accepts documentId Failed then Resolved else Rejected)
      else
        exists rawChunks,
          (forall fuel, (length (text extracted) < fuel)%nat ->
             chunkText fuel (text extracted) 500 50 = Some rawChunks)
          /\ rawChunks <> []
          /\ let update := Ready (text extracted) (map stored rawChunks) in
             forall fuel, (length (text extracted) < fuel)%nat ->
               processPDF fuel readFile pdfParse accepts documentId filePath
               = Some (if accepts documentId update
                       then ([(documentId, update)], Resolved)
                       else ([(documentId, update); (documentId, Failed)],
                             if accepts documentId Failed
                             then Resolved else Rejected))
  end.
Proof.
  unfold processPDF.
  destruct (extractTextFromPDF readFile pdfParse filePath) as [extracted|msg];
    [|reflexivity].
  destruct (is_empty (trim (text extracted))) eqn:Eb.
  - intros fuel. now rewrite orb_true_r.
  - assert (Hne : text extracted <> []).
    { intros H. rewrite H in Eb. discriminate. }
    assert (Hw : words (text extracted) <> []).
    { rewrite <- trim_nil_words. now apply is_empty_false. }
    destruct (@chunkText_as_windows (text extracted) 500 50 ltac:(lia) Hw)
      as (m & _ & _ & Hc).
    eexists. split; [exact Hc|]. split.
    { unfold window_chunks. cbn [seq map]. discriminate. }
    cbv zeta. intros fuel Hfuel.
    destruct (text extracted) as [|c t] eqn:Et; [congruence|].
    cbn [is_empty orb]. rewrite (Hc fuel Hfuel). unfold window_chunks.
    assert (E := @storeChunks_windows (words (c :: t)) 500 50 (Datatypes.S m) 0%nat).
    change (Z.of_nat 0) with 0 in E. rewrite E.
    destruct (accepts documentId _); reflexivity.
Qed.
